(** * Blade structural post-processing of [wisdem/rotorse/rotor_structure.py]

    A shallow embedding of the OpenMDAO components of the rotor structure
    module whose behaviour is specified in the design document: the laminate
    resizer, the panel buckling evaluator, the blade curvature integrator,
    the principal-axis strain and damage recovery, the tip deflection chain,
    the extreme-load combiner and the structural margins.

    Numbers.  The Python code computes on NumPy [float64] arrays.  Closed-form
    properties are proved over the real numbers [R] (exact arithmetic); where
    a property speaks about bit-exact values, NaN or the absence of an error,
    the same definitions are run on binary64 primitive floats.  Definitions
    that are needed at both number types are written once over the small
    interface [Numeric]. *)

From stdpp Require Import base option list strings gmap.
From Stdlib Require Import PrimFloat.
From Stdlib Require Import ZArith Reals Lra Lia.
From Stdlib Require Uint63.

Set Default Proof Using "Type".
Set Warnings "-inexact-float".

(** ** Part I: the embedding *)

(** *** Numbers *)

Class Numeric (A : Type) := {
  nzero : A;
  nadd : A -> A -> A;
  nsub : A -> A -> A;
  nmul : A -> A -> A;
  ndiv : A -> A -> A;
  nofZ : Z -> A
}.

(** Conversion of a Python [int] to a binary64 value, for the small integers
    (blade counts) the components convert. *)
Definition float_of_Z (z : Z) : float :=
  match z with
  | Z0 => PrimFloat.zero
  | Zpos _ => PrimFloat.of_uint63 (Uint63.of_Z z)
  | Zneg _ => PrimFloat.opp (PrimFloat.of_uint63 (Uint63.of_Z (Z.opp z)))
  end.

#[global] Instance Numeric_R : Numeric R := {|
  nzero := 0%R; nadd := Rplus; nsub := Rminus; nmul := Rmult; ndiv := Rdiv;
  nofZ := IZR
|}.

#[global] Instance Numeric_float : Numeric float := {|
  nzero := PrimFloat.zero; nadd := PrimFloat.add; nsub := PrimFloat.sub;
  nmul := PrimFloat.mul; ndiv := PrimFloat.div; nofZ := float_of_Z
|}.

(** *** ExtremeLoads *)

Module ExtremeLoads.
Section Compute.
Context {A : Type} `{Numeric A}.

(** [T] and [Q] are declared with [shape=((2,))]: index 0 is the worst
    case, index 1 the feathered blade. *)
Record Inputs := {
  T : A * A;
  Q : A * A;
  nBlades : Z
}.

Record Outputs := {
  T_extreme : A;
  Q_extreme : A
}.

Definition compute (inputs : Inputs) : Outputs :=
  let n := nofZ (nBlades inputs) in
  let T := T inputs in
  let Q := Q inputs in
  let T_extreme := ndiv (nadd (fst T) (nmul (snd T) (nsub n (nofZ 1)))) n in
  let Q_extreme := ndiv (nadd (fst Q) (nmul (snd Q) (nsub n (nofZ 1)))) n in
  {| T_extreme := T_extreme;
     Q_extreme := nzero |}.
End Compute.
Arguments Inputs : clear implicits.
Arguments Outputs : clear implicits.

Local Open Scope R_scope.

End ExtremeLoads.

(** *** ConstraintsStructures *)

Module ConstraintsStructures.
Section Compute.
Context {A : Type} `{Numeric A}.

Record Inputs := {
  nBlades : Z;
  freq : list A;
  freq_curvefem : list A;
  Omega : A;
  strainU_spar : list A;
  strainL_spar : list A;
  strainU_te : list A;
  strainL_te : list A;
  strain_ult_spar : A;
  strain_ult_te : A;
  eps_crit_spar : list A;
  eps_crit_te : list A;
  damageU_spar : list A;
  damageL_spar : list A;
  damageU_te : list A;
  damageL_te : list A;
  gamma_f : A;
  gamma_m : A;
  gamma_freq : A
}.

Record Outputs := {
  Pn_margin : list A;
  P1_margin : list A;
  Pn_margin_cfem : list A;
  P1_margin_cfem : list A;
  rotor_strain_sparU : list A;
  rotor_strain_sparL : list A;
  rotor_strain_teU : list A;
  rotor_strain_teL : list A;
  rotor_buckling_sparU : list A;
  rotor_buckling_sparL : list A;
  rotor_buckling_teU : list A;
  rotor_buckling_teL : list A;
  rotor_damage_sparU : list A;
  rotor_damage_sparL : list A;
  rotor_damage_teU : list A;
  rotor_damage_teL : list A
}.

(** [array * scalar / scalar], the scalars being shape-(1,) inputs. *)
Definition scale_div (a : list A) (k d : A) : list A :=
  (fun s => ndiv (nmul s k) d) <$> a.

(** [array * scalar / array], element by element. *)
Definition scale_div_arr (a : list A) (k : A) (d : list A) : list A :=
  zip_with (fun s e => ndiv (nmul s k) e) a d.

(** [scalar / array]. *)
Definition div_into (k : A) (d : list A) : list A :=
  (fun f => ndiv k f) <$> d.

Definition compute (inputs : Inputs) : Outputs :=
  let omega := ndiv (Omega inputs) (nofZ 60) in
  let gamma_freq := gamma_freq inputs in
  let gamma_f := gamma_f inputs in
  let gamma_strain := nmul gamma_f (gamma_m inputs) in
  let strain_ult_spar := strain_ult_spar inputs in
  let strain_ult_te := strain_ult_te inputs in
  let eps_crit_spar := eps_crit_spar inputs in
  let eps_crit_te := eps_crit_te inputs in
  let nBlades := nofZ (nBlades inputs) in
  {| Pn_margin := div_into (nmul (nmul nBlades omega) gamma_freq) (freq inputs);
     P1_margin := div_into (nmul omega gamma_freq) (freq inputs);
     Pn_margin_cfem :=
       div_into (nmul (nmul nBlades omega) gamma_freq) (freq_curvefem inputs);
     P1_margin_cfem := div_into (nmul omega gamma_freq) (freq_curvefem inputs);
     rotor_strain_sparU := scale_div (strainU_spar inputs) gamma_strain strain_ult_spar;
     rotor_strain_sparL := scale_div (strainL_spar inputs) gamma_strain strain_ult_spar;
     rotor_strain_teU := scale_div (strainU_te inputs) gamma_strain strain_ult_te;
     rotor_strain_teL := scale_div (strainL_te inputs) gamma_strain strain_ult_te;
     rotor_buckling_sparU := scale_div_arr (strainU_spar inputs) gamma_f eps_crit_spar;
     rotor_buckling_sparL := scale_div_arr (strainL_spar inputs) gamma_f eps_crit_spar;
     rotor_buckling_teU := scale_div_arr (strainU_te inputs) gamma_f eps_crit_te;
     rotor_buckling_teL := scale_div_arr (strainL_te inputs) gamma_f eps_crit_te;
     rotor_damage_sparU := damageU_spar inputs;
     rotor_damage_sparL := damageL_spar inputs;
     rotor_damage_teU := damageU_te inputs;
     rotor_damage_teL := damageL_te inputs |}.

(** The four strain-recovery locations of a station, and the views of the
inputs and outputs that belong to each of them. *)
Inductive Location := SparU | SparL | TeU | TeL.

Definition strain_in (loc : Location) (inputs : Inputs) : list A :=
  match loc with
  | SparU => strainU_spar inputs | SparL => strainL_spar inputs
  | TeU => strainU_te inputs | TeL => strainL_te inputs
  end.

Definition strain_ult_in (loc : Location) (inputs : Inputs) : A :=
  match loc with
  | SparU | SparL => strain_ult_spar inputs
  | TeU | TeL => strain_ult_te inputs
  end.

Definition damage_in (loc : Location) (inputs : Inputs) : list A :=
  match loc with
  | SparU => damageU_spar inputs | SparL => damageL_spar inputs
  | TeU => damageU_te inputs | TeL => damageL_te inputs
  end.

Definition rotor_strain (loc : Location) (outputs : Outputs) : list A :=
  match loc with
  | SparU => rotor_strain_sparU outputs | SparL => rotor_strain_sparL outputs
  | TeU => rotor_strain_teU outputs | TeL => rotor_strain_teL outputs
  end.

Definition rotor_damage (loc : Location) (outputs : Outputs) : list A :=
  match loc with
  | SparU => rotor_damage_sparU outputs | SparL => rotor_damage_sparL outputs
  | TeU => rotor_damage_teU outputs | TeL => rotor_damage_teL outputs
  end.

Definition eps_crit_in (loc : Location) (inputs : Inputs) : list A :=
  match loc with
  | SparU | SparL => eps_crit_spar inputs
  | TeU | TeL => eps_crit_te inputs
  end.

Definition rotor_buckling (loc : Location) (outputs : Outputs) : list A :=
  match loc with
  | SparU => rotor_buckling_sparU outputs
  | SparL => rotor_buckling_sparL outputs
  | TeU => rotor_buckling_teU outputs
  | TeL => rotor_buckling_teL outputs
  end.

(** A one-station test vector: the same strain, ultimate strain and damage at
the four locations, three blades at 12 rpm. *)
Definition sample_inputs (strain gamma_f gamma_m ult damage : A) : Inputs :=
  {| nBlades := 3; freq := []; freq_curvefem := []; Omega := nofZ 12;
     strainU_spar := [strain]; strainL_spar := [strain];
     strainU_te := [strain]; strainL_te := [strain];
     strain_ult_spar := ult; strain_ult_te := ult;
     eps_crit_spar := []; eps_crit_te := [];
     damageU_spar := [damage]; damageL_spar := [damage];
     damageU_te := [damage]; damageL_te := [damage];
     gamma_f := gamma_f; gamma_m := gamma_m; gamma_freq := nofZ 1 |}.
End Compute.
Arguments Inputs : clear implicits.
Arguments Outputs : clear implicits.
End ConstraintsStructures.

(** *** NumPy on real arrays

    One-dimensional arrays are lists; the arithmetic operators act element by
    element on arrays of the declared common length [NPTS]. *)

Module Np.
Local Open Scope R_scope.

Definition add : list R -> list R -> list R := zip_with Rplus.
Definition sub : list R -> list R -> list R := zip_with Rminus.
Definition mul : list R -> list R -> list R := zip_with Rmult.
Definition div : list R -> list R -> list R := zip_with Rdiv.
Definition neg : list R -> list R := fmap Ropp.
Definition square : list R -> list R := fmap (fun v => v ^ 2).
(** [k * a], [k / a] and [k - a] for a scalar [k]. *)
Definition smul (k : R) : list R -> list R := fmap (Rmult k).
Definition sdiv (k : R) : list R -> list R := fmap (Rdiv k).

(** [numpy.arctan2(y, x)]: the angle of the point [(x, y)], in [(-PI, PI]],
    and 0 at the origin. *)
Definition arctan2 (y x : R) : R :=
  if Rlt_dec 0 x then atan (y / x)
  else if Rlt_dec x 0 then
         if Rle_dec 0 y then atan (y / x) + PI else atan (y / x) - PI
  else if Rlt_dec 0 y then PI / 2
  else if Rlt_dec y 0 then - (PI / 2)
  else 0.

(** [numpy.degrees]. *)
Definition degrees (a : R) : R := a * 180 / PI.

(** [numpy.sum] of a one-dimensional array. *)
Definition sum (a : list R) : R := foldl Rplus 0 a.

(** [a[1:] - a[:-1]]. *)
Definition diff (a : list R) : list R := zip_with Rminus (drop 1 a) a.

(** [numpy.trapz(y, x)]: [(diff(x) * (y[1:] + y[:-1]) / 2.0).sum()]. *)
Definition trapz (y x : list R) : R :=
  sum (zip_with (fun d v => d * v / 2.0) (diff x)
                (zip_with Rplus (drop 1 y) y)).

(** [numpy.linspace(start, stop, num)], end point included. *)
Definition linspace (start stop : R) (num : nat) : list R :=
  match num with
  | O => []
  | S O => [start]
  | S div =>
      ((fun i => INR i * ((stop - start) / INR div) + start) <$> seq 0 div)
      ++ [stop]
  end.

(** A binary operation on two one-dimensional arrays with NumPy's
    broadcasting: equal lengths go element by element, an array of length 1
    is stretched, and any other pair of lengths raises. *)
Definition broadcast (f : R -> R -> R) (a b : list R) : option (list R) :=
  if decide (length a = length b) then Some (zip_with f a b)
  else match a, b with
       | [x], _ => Some (f x <$> b)
       | _, [y] => Some ((fun x => f x y) <$> a)
       | _, _ => None
       end.
End Np.

(** *** RotorWithpBEAM *)

Module RotorWithpBEAM.
Local Open Scope R_scope.

(** The attributes [self.EI11], [self.EI22], [self.EA], [self.ca] and
    [self.sa] that [principalCS] leaves on the component. *)
Record PrincipalAxes := {
  EI11 : list R;
  EI22 : list R;
  EA : list R;
  ca : list R;
  sa : list R
}.

(** The local variables [EIxx], [EIyy], [EIxy] and [alpha] of [principalCS]
    once the rotation angle has been computed.  The four renaming
    assignments run one after the other, as in Python: the second one reads
    the [EIxx] that the first one has just rebound, and likewise for
    [x_ec]. *)
Definition principalCS_locals (EIyy EIxx y_ec x_ec EA EIxy : list R)
  : list R * list R * list R * list R :=
  let EIxx := EIyy in
  let EIyy := EIxx in
  let x_ec := y_ec in
  let y_ec := x_ec in
  let EIxy := EIxy in
  (* translate to elastic center *)
  let EIxx := Np.sub EIxx (Np.mul (Np.square y_ec) EA) in
  let EIyy := Np.sub EIyy (Np.mul (Np.square x_ec) EA) in
  let EIxy := Np.sub EIxy (Np.mul (Np.mul x_ec y_ec) EA) in
  (* get rotation angle *)
  let alpha :=
    Np.smul 0.5 (zip_with Np.arctan2 (Np.smul 2 EIxy) (Np.sub EIyy EIxx)) in
  (EIxx, EIyy, EIxy, alpha).

Definition principalCS (EIyy EIxx y_ec x_ec EA EIxy : list R) : PrincipalAxes :=
  let '(EIxx', EIyy', EIxy', alpha) :=
    principalCS_locals EIyy EIxx y_ec x_ec EA EIxy in
  {| EA := EA;
     EI11 := Np.sub EIxx' (Np.mul EIxy' (tan <$> alpha));
     EI22 := Np.add EIyy' (Np.mul EIxy' (tan <$> alpha));
     ca := cos <$> alpha;
     sa := sin <$> alpha |}.

(** The result of [blade.shearAndBending()]. *)
Record Resultants := {
  Vx : list R; Vy : list R; Fz : list R;
  Mx : list R; My : list R; Tz : list R
}.

Definition strain (self : PrincipalAxes) (blade : Resultants)
    (xu yu xl yl : list R) : list R * list R :=
  let '(Vx, Vy, Fz, Mx, My, Tz) :=
    (Vx blade, Vy blade, Fz blade, Mx blade, My blade, Tz blade) in
  (* use profile c.s. to use Hansen's notation *)
  let '(Vx, Vy) := (Vy, Vx) in
  let '(Mx, My) := (My, Mx) in
  let '(xu, yu) := (yu, xu) in
  let '(xl, yl) := (yl, xl) in
  (* convert to principal axes *)
  let M1 := Np.add (Np.mul Mx (ca self)) (Np.mul My (sa self)) in
  let M2 := Np.add (Np.mul (Np.neg Mx) (sa self)) (Np.mul My (ca self)) in
  let x := Np.add (Np.mul xu (ca self)) (Np.mul yu (sa self)) in
  let y := Np.add (Np.mul (Np.neg xu) (sa self)) (Np.mul yu (ca self)) in
  let strainU :=
    Np.neg (Np.add (Np.sub (Np.mul (Np.div M1 (EI11 self)) y)
                           (Np.mul (Np.div M2 (EI22 self)) x))
                   (Np.div Fz (EA self))) in
  let x := Np.add (Np.mul xl (ca self)) (Np.mul yl (sa self)) in
  let y := Np.add (Np.mul (Np.neg xl) (sa self)) (Np.mul yl (ca self)) in
  let strainL :=
    Np.neg (Np.add (Np.sub (Np.mul (Np.div M1 (EI11 self)) y)
                           (Np.mul (Np.div M2 (EI22 self)) x))
                   (Np.div Fz (EA self))) in
  (strainU, strainL).

Definition damage (self : PrincipalAxes) (Mx My xu yu xl yl : list R)
    (emax eta m N : R) : list R * list R :=
  let '(Mx, My) := (My, Mx) in
  let Fz := 0.0 in
  let '(xu, yu) := (yu, xu) in
  let '(xl, yl) := (yl, xl) in
  let M1 := Np.add (Np.mul Mx (ca self)) (Np.mul My (sa self)) in
  let M2 := Np.add (Np.mul (Np.neg Mx) (sa self)) (Np.mul My (ca self)) in
  let x := Np.add (Np.mul xu (ca self)) (Np.mul yu (sa self)) in
  let y := Np.add (Np.mul (Np.neg xu) (sa self)) (Np.mul yu (ca self)) in
  let strainU :=
    Np.neg (Np.add (Np.sub (Np.mul (Np.div M1 (EI11 self)) y)
                           (Np.mul (Np.div M2 (EI22 self)) x))
                   (Np.sdiv Fz (EA self))) in
  let x := Np.add (Np.mul xl (ca self)) (Np.mul yl (sa self)) in
  let y := Np.add (Np.mul (Np.neg xl) (sa self)) (Np.mul yl (ca self)) in
  let strainL :=
    Np.neg (Np.add (Np.sub (Np.mul (Np.div M1 (EI11 self)) y)
                           (Np.mul (Np.div M2 (EI22 self)) x))
                   (Np.sdiv Fz (EA self))) in
  (* number of cycles to failure (computed, not used by the outputs) *)
  let NfU := (fun e => Rpower (emax / (eta * e)) m) <$> strainU in
  let NfL := (fun e => Rpower (emax / (eta * e)) m) <$> strainL in
  (* damage - use log-based utilization version *)
  let damageU :=
    (fun e => ln N - m * (ln emax - ln eta - ln (Rabs e))) <$> strainU in
  let damageL :=
    (fun e => ln N - m * (ln emax - ln eta - ln (Rabs e))) <$> strainL in
  (damageU, damageL).

(** The inputs of [compute] that the strain and damage recovery reads. *)
Record Inputs := {
  xu_strain_spar : list R; xl_strain_spar : list R;
  yu_strain_spar : list R; yl_strain_spar : list R;
  xu_strain_te : list R; xl_strain_te : list R;
  yu_strain_te : list R; yl_strain_te : list R;
  Mx_damage : list R; My_damage : list R;
  strain_ult_spar : R; strain_ult_te : R;
  gamma_fatigue : R; m_damage : R; lifetime : R;
  beam_EA : list R; beam_EIxx : list R; beam_EIyy : list R;
  beam_EIxy : list R; beam_x_ec : list R; beam_y_ec : list R
}.

Record Outputs := {
  strainU_spar : list R; strainL_spar : list R;
  strainU_te : list R; strainL_te : list R;
  damageU_spar : list R; damageL_spar : list R;
  damageU_te : list R; damageL_te : list R
}.

(** The strain and damage part of [compute].  [blade] stands for the
    resultants that the external beam solver returns for the strain load
    case; displacements, mass and frequencies come from that solver alone and
    are left out. *)
Definition compute (blade : Resultants) (inputs : Inputs) : Outputs :=
  let N_damage := 365 * 24 * 3600 * lifetime inputs in
  let self :=
    principalCS (beam_EIyy inputs) (beam_EIxx inputs) (beam_y_ec inputs)
                (beam_x_ec inputs) (beam_EA inputs) (beam_EIxy inputs) in
  let '(strainU_spar, strainL_spar) :=
    strain self blade (xu_strain_spar inputs) (yu_strain_spar inputs)
           (xl_strain_spar inputs) (yl_strain_spar inputs) in
  let '(strainU_te, strainL_te) :=
    strain self blade (xu_strain_te inputs) (yu_strain_te inputs)
           (xl_strain_te inputs) (yl_strain_te inputs) in
  let '(damageU_spar, damageL_spar) :=
    damage self (Mx_damage inputs) (My_damage inputs)
           (xu_strain_spar inputs) (yu_strain_spar inputs)
           (xl_strain_spar inputs) (yl_strain_spar inputs)
           (strain_ult_spar inputs) (gamma_fatigue inputs) (m_damage inputs)
           N_damage in
  let '(damageU_te, damageL_te) :=
    damage self (Mx_damage inputs) (My_damage inputs)
           (xu_strain_te inputs) (yu_strain_te inputs)
           (xl_strain_te inputs) (yl_strain_te inputs)
           (strain_ult_te inputs) (gamma_fatigue inputs) (m_damage inputs)
           N_damage in
  {| strainU_spar := strainU_spar; strainL_spar := strainL_spar;
     strainU_te := strainU_te; strainL_te := strainL_te;
     damageU_spar := damageU_spar; damageL_spar := damageL_spar;
     damageU_te := damageU_te; damageL_te := damageL_te |}.

(** The rotation angle [alpha] that [compute] derives, station by station. *)
Definition principal_alpha (inputs : Inputs) : list R :=
  snd (principalCS_locals (beam_EIyy inputs) (beam_EIxx inputs)
         (beam_y_ec inputs) (beam_x_ec inputs) (beam_EA inputs)
         (beam_EIxy inputs)).

(** The component after [compute] has called [principalCS]. *)
Definition principal_axes (inputs : Inputs) : PrincipalAxes :=
  principalCS (beam_EIyy inputs) (beam_EIxx inputs) (beam_y_ec inputs)
              (beam_x_ec inputs) (beam_EA inputs) (beam_EIxy inputs).







(** A one-station test section given about its elastic centre (both offsets
    are 0): [EIxx = 3], [EIyy = 1], [EA = 1] and the cross term [EIxy]. *)
Definition sample_inputs (EIxy : R) : Inputs :=
  {| xu_strain_spar := [0.1]; xl_strain_spar := [0.1];
     yu_strain_spar := [0.2]; yl_strain_spar := [-0.2];
     xu_strain_te := [0.9]; xl_strain_te := [0.9];
     yu_strain_te := [0.05]; yl_strain_te := [-0.05];
     Mx_damage := [2]; My_damage := [1];
     strain_ult_spar := 0.01; strain_ult_te := 0.0075;
     gamma_fatigue := 1.755; m_damage := 10; lifetime := 20;
     beam_EA := [1]; beam_EIxx := [3]; beam_EIyy := [1];
     beam_EIxy := [EIxy]; beam_x_ec := [0]; beam_y_ec := [0] |}.


(** **** Reference notions of the design document *)



(** Cross term of the bending stiffness tensor [[EIxx, EIxy; EIxy, EIyy]]
    seen from the frame turned by [a]; in that frame the first diagonal
    entry is [EIxx*cos^2 a + EIyy*sin^2 a - EIxy*sin 2a]. *)
Definition rotated_EIxy (EIxx EIyy EIxy a : R) : R :=
  (EIxx - EIyy) / 2 * sin (2 * a) + EIxy * cos (2 * a).

Definition rotated_EIxx (EIxx EIyy EIxy a : R) : R :=
  EIxx * (cos a)^2 + EIyy * (sin a)^2 - EIxy * sin (2 * a).

(** The renaming of [principalCS] as its comment describes it, "with swap
    of x, y for profile c.s.": the four names are exchanged at once. *)
Definition principalCS_swapped_locals (EIyy EIxx y_ec x_ec EA EIxy : list R)
  : list R * list R * list R * list R :=
  let '(EIxx, EIyy) := (EIyy, EIxx) in
  let '(x_ec, y_ec) := (y_ec, x_ec) in
  let EIxx := Np.sub EIxx (Np.mul (Np.square y_ec) EA) in
  let EIyy := Np.sub EIyy (Np.mul (Np.square x_ec) EA) in
  let EIxy := Np.sub EIxy (Np.mul (Np.mul x_ec y_ec) EA) in
  let alpha :=
    Np.smul 0.5 (zip_with Np.arctan2 (Np.smul 2 EIxy) (Np.sub EIyy EIxx)) in
  (EIxx, EIyy, EIxy, alpha).

(** **** Load cases *)

(** The resultants of the load case [a * blade1 + b * blade2]. *)
Definition superpose (a : R) (blade1 : Resultants) (b : R)
    (blade2 : Resultants) : Resultants :=
  {| Vx := Np.add (Np.smul a (Vx blade1)) (Np.smul b (Vx blade2));
     Vy := Np.add (Np.smul a (Vy blade1)) (Np.smul b (Vy blade2));
     Fz := Np.add (Np.smul a (Fz blade1)) (Np.smul b (Fz blade2));
     Mx := Np.add (Np.smul a (Mx blade1)) (Np.smul b (Mx blade2));
     My := Np.add (Np.smul a (My blade1)) (Np.smul b (My blade2));
     Tz := Np.add (Np.smul a (Tz blade1)) (Np.smul b (Tz blade2)) |}.
(** The load case of [damage]: the damage-equivalent moments and no axial
    force ([Fz = 0.0] at every station). *)
Definition damage_load_case (self : PrincipalAxes) (Mx My : list R)
  : Resultants :=
  {| Vx := []; Vy := []; Fz := (fun _ => 0.0) <$> EA self;
     Mx := Mx; My := My; Tz := [] |}.

(** The expression bound to [NfU] and [NfL]: cycles to failure at the
    strain [e]. *)
Definition cycles_to_failure (emax eta m e : R) : R :=
  Rpower (emax / (eta * e)) m.
(** Principal axes of a one-station section that needs no rotation. *)
Definition sample_axes : PrincipalAxes :=
  {| EI11 := [2]; EI22 := [4]; EA := [1]; ca := [1]; sa := [0] |}.

End RotorWithpBEAM.

(** *** Laminate sections

    The objects of class [CompositeSection] (module [precomp], outside this
    file) as the components below use them: the chordwise breakpoints [loc]
    and, for every sector, the array [t] of its ply thicknesses. *)

Module PreComp.
Record CompositeSection (A : Type) := {
  loc : list A;
  t : list (list A)
}.
Arguments loc {A} _.
Arguments t {A} _.

(** The objects of class [Profile]: the chordwise stations [x] and the
    upper and lower surface heights [yu] and [yl], normalized by chord. *)
Record Profile := {
  x : list R;
  yu : list R;
  yl : list R
}.
End PreComp.

(** *** ResizeCompositeSection

    The lists [upperCS_in], [lowerCS_in] and [websCS_in] hold Python objects,
    and [compute] assigns to their attribute [t].  The objects therefore live
    in a store, the lists hold references into it, and [compute] maps a store
    to a store; the output lists are the input lists themselves. *)

Module ResizeCompositeSection.

Abbreviation ref := nat (only parsing).
Abbreviation store A := (gmap nat (PreComp.CompositeSection A)) (only parsing).

Section Compute.
Context {A : Type} `{Numeric A}.

Record Inputs := {
  chord : list A;
  sparT : list A;
  teT : list A;
  upperCS_in : list ref;
  lowerCS_in : list ref;
  websCS_in : list ref;
  chord_ref : list A;
  sector_idx_strain_spar : list nat;
  sector_idx_strain_te : list nat
}.

Record Outputs := {
  upperCS : list ref;
  lowerCS : list ref;
  websCS : list ref
}.

(** [numpy.sum] of a ply array. *)
Definition np_sum (a : list A) : A := foldl nadd nzero a.

Definition set_t (cs : PreComp.CompositeSection A) (t' : list (list A))
  : PreComp.CompositeSection A :=
  {| PreComp.loc := PreComp.loc cs; PreComp.t := t' |}.

(** [m * k] for a ply array [m] and a scalar [k]. *)
Definition times (k : A) (m : list A) : list A := (fun v => nmul v k) <$> m.

(** [cs.t = [m*f for m in cs.t]] on the object behind [r]. *)
Definition scale_all (r : ref) (f : A) (h : store A) : option (store A) :=
  cs ← h !! r;
  Some (<[r := set_t cs (times f <$> PreComp.t cs)]> h).

(** [numpy.sum(cs.t[idx])]; an index outside [cs.t] raises. *)
Definition sector_sum (r : ref) (idx : nat) (h : store A) : option A :=
  cs ← h !! r;
  plies ← PreComp.t cs !! idx;
  Some (np_sum plies).

(** [cs.t[idx] *= k]. *)
Definition scale_sector (r : ref) (idx : nat) (k : A) (h : store A)
  : option (store A) :=
  cs ← h !! r;
  plies ← PreComp.t cs !! idx;
  Some (<[r := set_t cs (<[idx := times k plies]> (PreComp.t cs))]> h).

(** One turn of the loop over the stations. *)
Definition resize_station (inputs : Inputs) (factor : list A) (i : nat)
    (h : store A) : option (store A) :=
  f ← factor !! i;
  u ← upperCS_in inputs !! i;
  h ← scale_all u f h;
  l ← lowerCS_in inputs !! i;
  h ← scale_all l f h;
  w ← websCS_in inputs !! i;
  h ← scale_all w f h;
  idx_spar ← sector_idx_strain_spar inputs !! i;
  idx_te ← sector_idx_strain_te inputs !! i;
  (* upper and lower have same thickness for this design *)
  tspar ← sector_sum u idx_spar h;
  tte ← sector_sum u idx_te h;
  sparT_i ← sparT inputs !! i;
  h ← scale_sector u idx_spar (ndiv sparT_i tspar) h;
  h ← scale_sector l idx_spar (ndiv sparT_i tspar) h;
  teT_i ← teT inputs !! i;
  h ← scale_sector u idx_te (ndiv teT_i tte) h;
  h ← scale_sector l idx_te (ndiv teT_i tte) h;
  Some h.

Definition resize_loop (inputs : Inputs) (factor : list A)
    (stations : list nat) (h : store A) : option (store A) :=
  foldl (fun acc i => h' ← acc; resize_station inputs factor i h')
        (Some h) stations.

(** [compute] returns [None] when Python raises: arrays of different
    declared lengths in [chord / chord_ref], or a list or sector index out
    of range.  Dividing by a zero sum is NumPy arithmetic and does not
    raise. *)
Definition compute (inputs : Inputs) (h : store A) : option (Outputs * store A) :=
  if decide (length (chord inputs) = length (chord_ref inputs)) then
    (* scale all thicknesses with airfoil thickness *)
    let factor := zip_with ndiv (chord inputs) (chord_ref inputs) in
    h' ← resize_loop inputs factor (seq 0 (length (chord inputs))) h;
    Some ({| upperCS := upperCS_in inputs;
             lowerCS := lowerCS_in inputs;
             websCS := websCS_in inputs |}, h')
  else None.

(** The ply thicknesses of the objects that a list of references names. *)
Definition thicknesses (h : store A) (l : list ref)
  : list (option (list (list A))) :=
  (fun r => PreComp.t <$> h !! r) <$> l.

(** Number of sectors of every stored object. *)
Definition shape (h : store A) : gmap ref nat :=
  (fun cs => length (PreComp.t cs)) <$> h.

(** Every station has its three objects, its two sector indices inside the
    upper and lower layups, and its two targets. *)
Definition well_formed (inputs : Inputs) (sh : gmap ref nat) : Prop :=
  length (chord inputs) = length (chord_ref inputs) /\
  forall i : nat,
    (i < length (chord inputs))%nat ->
    exists (u l w : ref) (idx_spar idx_te nu nl : nat),
      upperCS_in inputs !! i = Some u /\
      lowerCS_in inputs !! i = Some l /\
      websCS_in inputs !! i = Some w /\
      sh !! u = Some nu /\ sh !! l = Some nl /\ is_Some (sh !! w) /\
      sector_idx_strain_spar inputs !! i = Some idx_spar /\
      sector_idx_strain_te inputs !! i = Some idx_te /\
      (idx_spar < nu)%nat /\ (idx_te < nu)%nat /\
      (idx_spar < nl)%nat /\ (idx_te < nl)%nat /\
      is_Some (sparT inputs !! i) /\ is_Some (teT inputs !! i).


(** The data of station [i]: its upper and lower objects, its spar and
    trailing-edge sectors, its chord and reference chord, and its two
    thickness targets. *)
Definition station_data (inputs : Inputs) (i u l idx_spar idx_te : nat)
    (c c_ref sparT_i teT_i : A) : Prop :=
  upperCS_in inputs !! i = Some u /\
  lowerCS_in inputs !! i = Some l /\
  sector_idx_strain_spar inputs !! i = Some idx_spar /\
  sector_idx_strain_te inputs !! i = Some idx_te /\
  chord inputs !! i = Some c /\ chord_ref inputs !! i = Some c_ref /\
  sparT inputs !! i = Some sparT_i /\ teT inputs !! i = Some teT_i.
End Compute.
Arguments Inputs : clear implicits.

(** Test data on binary64: one station whose chord is twice the reference
    chord; the upper, lower and web objects are the references 0, 1 and 2;
    the spar cap is sector 0 and the trailing-edge panel is sector 1. *)
Definition sample_inputs (sparT teT : float) : Inputs float :=
  {| chord := [2%float]; sparT := [sparT]; teT := [teT];
     upperCS_in := [0%nat]; lowerCS_in := [1%nat]; websCS_in := [2%nat];
     chord_ref := [1%float];
     sector_idx_strain_spar := [0%nat]; sector_idx_strain_te := [1%nat] |}.

Definition sample_section (spar te panel : list float)
  : PreComp.CompositeSection float :=
  {| PreComp.loc := [0; 0.25; 0.5; 1]%float;
     PreComp.t := [spar; te; panel] |}.

Definition sample_store (spar : list float) : store float :=
  <[0%nat := sample_section spar [1]%float [1]%float]>
    (<[1%nat := sample_section spar [1]%float [1]%float]>
       (<[2%nat := {| PreComp.loc := [0.3; 0.6]%float;
                      PreComp.t := [[1]%float] |}]> ∅)).

(** A one-station design over the reals: chord 3 on a reference chord 2;
    the upper, lower and web objects are the references 0, 1 and 2; the spar
    cap is sector 1 and the trailing-edge panel is sector 3.  The lower spar
    cap is thicker than the upper one. *)
Definition design_inputs : Inputs R :=
  {| chord := [3%R]; sparT := [0.05%R]; teT := [0.02%R];
     upperCS_in := [0%nat]; lowerCS_in := [1%nat]; websCS_in := [2%nat];
     chord_ref := [2%R];
     sector_idx_strain_spar := [1%nat]; sector_idx_strain_te := [3%nat] |}.

Definition design_upper : PreComp.CompositeSection R :=
  {| PreComp.loc := [0; 0.2; 0.4; 0.8; 1]%R;
     PreComp.t := [[0.001]; [0.01; 0.02]; [0.002]; [0.004; 0.004]]%R |}.

Definition design_lower : PreComp.CompositeSection R :=
  {| PreComp.loc := [0; 0.2; 0.4; 0.8; 1]%R;
     PreComp.t := [[0.001]; [0.02; 0.04]; [0.002]; [0.004; 0.004]]%R |}.

Definition design_web : PreComp.CompositeSection R :=
  {| PreComp.loc := [0.3; 0.6]%R; PreComp.t := [[0.003; 0.003]]%R |}.

Definition design_store : store R :=
  <[0%nat := design_upper]>
    (<[1%nat := design_lower]> (<[2%nat := design_web]> ∅)).
End ResizeCompositeSection.

(** *** PreCompSections *)

Module PreCompSections.
Local Open Scope R_scope.

(** A 3 by 3 laminate stiffness matrix, read as [D[i, j]]. *)
Definition Matrix := nat -> nat -> R.

Section PanelBuckling.
(** The two methods of [CompositeSection] that the evaluator calls;
    [compositeMatrices] returns [(A, B, D, totalHeight)]. *)
Variable compositeMatrices :
  PreComp.CompositeSection R -> nat -> Matrix * Matrix * Matrix * R.
Variable effectiveEAxial : PreComp.CompositeSection R -> nat -> R.

(** The body of the loop of [panelBucklingStrain] for one station; an index
    outside [cs.loc] raises.  Sector indices are PreComp sector numbers,
    counted from 0, hence natural numbers. *)
Definition panelBucklingStrain_station (chord_i : R)
    (cs : PreComp.CompositeSection R) (sector_idx : nat) : option R :=
  hi ← PreComp.loc cs !! (sector_idx + 1)%nat;
  lo ← PreComp.loc cs !! sector_idx;
  (* chord-wise length of sector *)
  let sector_length := chord_i * (hi - lo) in
  (* get matrices *)
  let '(A, B, D, totalHeight) := compositeMatrices cs sector_idx in
  let E := effectiveEAxial cs sector_idx in
  let D1 := D 0%nat 0%nat in
  let D2 := D 1%nat 1%nat in
  let D3 := D 0%nat 1%nat + 2 * D 2%nat 2%nat in
  (* use empirical formula *)
  let Nxx := 2 * (PI / sector_length) ^ 2 * (sqrt (D1 * D2) + D3) in
  Some (- Nxx / totalHeight / E).

Definition panelBucklingStrain (chord : list R)
    (CS_list : list (PreComp.CompositeSection R))
    (sector_idx_strain : list nat) : option (list R) :=
  let nsec := length chord in
  mapM (fun i =>
          chord_i ← chord !! i;
          cs ← CS_list !! i;
          sector_idx ← sector_idx_strain !! i;
          panelBucklingStrain_station chord_i cs sector_idx)
       (seq 0 nsec).

End PanelBuckling.

(** The closed form of the design document: critical strain of a panel of
    chordwise length [L], bending stiffnesses [D1], [D2], [D3], thickness
    [t] and effective axial modulus [E]. *)
Definition critical_strain (L D1 D2 D3 t E : R) : R :=
  - (2 * (PI / L) ^ 2 * (sqrt (D1 * D2) + D3)) / (t * E).

(** A test laminate: two sectors with breakpoints 0, 0.4 and 1, total height
    0.02, modulus 5 and a diagonal bending stiffness. *)
Definition sample_section : PreComp.CompositeSection R :=
  {| PreComp.loc := [0; 0.4; 1]; PreComp.t := [[0.01; 0.01]; [0.02]] |}.

Definition sample_D : Matrix :=
  fun i j => if Nat.eqb i j then 1 else 0.

Definition sample_compositeMatrices (cs : PreComp.CompositeSection R)
    (idx : nat) : Matrix * Matrix * Matrix * R :=
  (sample_D, sample_D, sample_D, 0.02).

Definition sample_effectiveEAxial (cs : PreComp.CompositeSection R)
    (idx : nat) : R := 5.

Section StrainLocations.
(** [numpy.interp(x, xp, fp)] for a scalar [x]; it raises on empty sample
    arrays and on sample arrays of different lengths. *)
Variable np_interp : R -> list R -> list R -> option R.

(** The body of the loop of [criticalStrainLocations]: the entries [i] of
    [xun], [xln], [yun] and [yln]. *)
Definition criticalStrainLocations_station
    (csU csL : PreComp.CompositeSection R) (pf : PreComp.Profile)
    (idx : nat) : option (R * R * R * R) :=
  u0 ← PreComp.loc csU !! idx;
  u1 ← PreComp.loc csU !! (idx + 1)%nat;
  let xun_i := 0.5 * (u0 + u1) in
  l0 ← PreComp.loc csL !! idx;
  l1 ← PreComp.loc csL !! (idx + 1)%nat;
  let xln_i := 0.5 * (l0 + l1) in
  yun_i ← np_interp xun_i (PreComp.x pf) (PreComp.yu pf);
  yln_i ← np_interp xln_i (PreComp.x pf) (PreComp.yl pf);
  Some (xun_i, xln_i, yun_i, yln_i).

(** The result is the tuple [(xu, xl, yu, yl)] of the [return]. *)
Definition criticalStrainLocations (chord : list R)
    (upperCS lowerCS : list (PreComp.CompositeSection R))
    (profile : list PreComp.Profile) (sector_idx_strain : list nat)
    (x_ec_nose y_ec_nose : list R)
  : option (list R * list R * list R * list R) :=
  let NPTS := length chord in
  (* find corresponding locations on airfoil at midpoint of sector *)
  rows ← mapM (fun i =>
                 csU ← upperCS !! i;
                 csL ← lowerCS !! i;
                 pf ← profile !! i;
                 idx ← sector_idx_strain !! i;
                 criticalStrainLocations_station csU csL pf idx)
              (seq 0 NPTS);
  let xun := (fun row : R * R * R * R => row.1.1.1) <$> rows in
  let xln := (fun row : R * R * R * R => row.1.1.2) <$> rows in
  let yun := (fun row : R * R * R * R => row.1.2) <$> rows in
  let yln := (fun row : R * R * R * R => row.2) <$> rows in
  (* make dimensional and define relative to elastic center *)
  xu ← Np.broadcast Rminus (Np.mul xun chord) x_ec_nose;
  xl ← Np.broadcast Rminus (Np.mul xln chord) x_ec_nose;
  yu ← Np.broadcast Rminus (Np.mul yun chord) y_ec_nose;
  yl ← Np.broadcast Rminus (Np.mul yln chord) y_ec_nose;
  (* switch to airfoil coordinate system *)
  let '(xu, yu) := (yu, xu) in
  let '(xl, yl) := (yl, xl) in
  Some (xu, xl, yu, yl).

End StrainLocations.

(** A one-station run: a flat-topped profile and an interpolation that
    returns the first sample. *)
Definition sample_profile : PreComp.Profile :=
  {| PreComp.x := [0; 1]; PreComp.yu := [0.06; 0.06];
     PreComp.yl := [-0.04; -0.04] |}.

Definition sample_interp (_ : R) (xp fp : list R) : option R := fp !! 0%nat.
End PreCompSections.

(** *** TipDeflection *)

Module TipDeflection.
Local Open Scope R_scope.

(** [DirectionVector] of module [commonse.csystem]: three components and
    the rotations between adjacent frames, which stay parameters here. *)
Record DirectionVector := { x : R; y : R; z : R }.

Record Inputs := {
  dx : R; dy : R; dz : R;
  theta : R; pitch : R; azimuth : R; tilt : R; totalConeTip : R;
  hubHt : R; downwind : bool;
  Rtip : R; precurveTip : R; presweepTip : R; precone : R;
  gamma_m : R; dynamicFactor : R
}.

Record Outputs := {
  tip_deflection : R;
  tip_position : R * R * R;
  ground_clearance : R
}.

(** The same inputs with another value on the [azimuth] input. *)
Definition with_azimuth (a : R) (inputs : Inputs) : Inputs :=
  {| dx := dx inputs; dy := dy inputs; dz := dz inputs;
     theta := theta inputs; pitch := pitch inputs; azimuth := a;
     tilt := tilt inputs; totalConeTip := totalConeTip inputs;
     hubHt := hubHt inputs; downwind := downwind inputs;
     Rtip := Rtip inputs; precurveTip := precurveTip inputs;
     presweepTip := presweepTip inputs; precone := precone inputs;
     gamma_m := gamma_m inputs; dynamicFactor := dynamicFactor inputs |}.

Section Compute.
Variables airfoilToBlade bladeToAzimuth azimuthToHub hubToYaw :
  R -> DirectionVector -> DirectionVector.

Definition compute (inputs : Inputs) : Outputs :=
  let dx := dx inputs in
  let dy := dy inputs in
  let dz := dz inputs in
  let theta := theta inputs in
  let pitch := pitch inputs in
  let azimuth := 180.0 (* inputs['azimuth'] *) in
  let precone := precone inputs in
  let tilt := tilt inputs in
  let totalConeTip := totalConeTip inputs in
  let dynamicFactor := dynamicFactor inputs in
  let precurve := precurveTip inputs in
  let presweep := presweepTip inputs in
  let rtip := Rtip inputs in
  let upwind := negb (downwind inputs) in
  let theta := theta + pitch in
  let dr := {| x := dx; y := dy; z := dz |} in
  let delta :=
    hubToYaw tilt
      (azimuthToHub azimuth
         (bladeToAzimuth totalConeTip (airfoilToBlade theta dr))) in
  let tip_deflection := dynamicFactor * x delta in
  (* coordinates of blade tip in yaw c.s. *)
  let dR := {| x := precurve; y := presweep; z := rtip |} in
  let blade_yaw :=
    hubToYaw tilt (azimuthToHub azimuth (bladeToAzimuth totalConeTip dR)) in
  let coeff := if upwind then 1.0 else -1.0 in
  let z_pos := hubHt inputs + z blade_yaw in
  let x_pos := coeff * x blade_yaw + gamma_m inputs * tip_deflection in
  {| tip_deflection := tip_deflection;
     tip_position := (x_pos, 0.0, z_pos);
     ground_clearance := z_pos |}.

End Compute.

(** Test data: a tip 63 m out, 90 m above ground at the hub, with a
    displacement of 5 m, and a frame change that leaves vectors as they
    are. *)
Definition sample_inputs (dx : R) : Inputs :=
  {| dx := dx; dy := 0; dz := 0; theta := 0; pitch := 0; azimuth := 0;
     tilt := 5; totalConeTip := 2.5; hubHt := 90; downwind := false;
     Rtip := 63; precurveTip := 0; presweepTip := 0; precone := 2.5;
     gamma_m := 1.1; dynamicFactor := 1.2 |}.

Definition no_rotation (angle : R) (v : DirectionVector) : DirectionVector := v.

End TipDeflection.

(** *** BladeCurvature *)

Module BladeCurvature.
Local Open Scope R_scope.

(** Modelled from the spec: the cumulative arc length returned by the
    compiled routine [_bem.definecurvature_dv2], which is not part of the
    sources.  The design document describes it as a cumulative 3-D arc
    integration along the stations: the length starts at 0 and grows, from
    one station to the next, by the distance between the two points
    [(precurve, presweep, r)]. *)
Definition distance (p q : R * R * R) : R :=
  let '(x0, y0, z0) := p in
  let '(x1, y1, z1) := q in
  sqrt ((x1 - x0) ^ 2 + (y1 - y0) ^ 2 + (z1 - z0) ^ 2).

Fixpoint path_length (s_prev : R) (prev : R * R * R)
    (rest : list (R * R * R)) : list R :=
  match rest with
  | [] => []
  | p :: rest' =>
      let s := s_prev + distance prev p in
      s :: path_length s p rest'
  end.

Definition stations (r precurve presweep : list R) : list (R * R * R) :=
  zip_with (fun xy z => (fst xy, snd xy, z)) (zip precurve presweep) r.

Definition definecurvature_s (r precurve presweep : list R) : list R :=
  match stations r precurve presweep with
  | [] => []
  | p0 :: rest => 0 :: path_length 0 p0 rest
  end.

Record Inputs := {
  r : list R;
  precurve : list R;
  presweep : list R;
  precone : R
}.

Record Outputs := {
  totalCone : list R;
  x_az : list R;
  y_az : list R;
  z_az : list R;
  s : list R
}.

Section Compute.
(** The other results of the routine for the arguments
    [(r, precurve, presweep, precone)]: the azimuth-frame coordinates and the
    curvature-induced cone angle, in radians. *)
Variable definecurvature_frame :
  list R -> list R -> list R -> R -> list R * list R * list R * list R.

(** [self.r[0]] raises on an empty blade. *)
Definition compute (inputs : Inputs) : option Outputs :=
  let '(x_az, y_az, z_az, cone) :=
    definecurvature_frame (r inputs) (precurve inputs) (presweep inputs) 0.0 in
  let s := definecurvature_s (r inputs) (precurve inputs) (presweep inputs) in
  let totalCone := (fun c => precone inputs + Np.degrees c) <$> cone in
  r0 ← r inputs !! 0%nat;
  let s := (fun v => r0 + v) <$> s in
  Some {| totalCone := totalCone; x_az := x_az; y_az := y_az; z_az := z_az;
          s := s |}.

End Compute.

(** Radii of a station list grow from one station to the next. *)
Definition increasing (r : list R) : Prop :=
  forall (i : nat) (a b : R), r !! i = Some a -> r !! S i = Some b -> a < b.

(** A straight blade with its root at radius 1. *)
Definition sample_inputs : Inputs :=
  {| r := [1; 3; 6]; precurve := [0; 0; 0]; presweep := [0; 0; 0];
     precone := 2.5 |}.

(** A frame routine for test runs: a straight blade along the z axis. *)
Definition straight_frame (r precurve presweep : list R) (precone : R)
  : list R * list R * list R * list R :=
  (precurve, presweep, r, (fun _ => 0) <$> r).

End BladeCurvature.

(** *** GustETM *)

Module GustETM.
Local Open Scope R_scope.

Record Inputs := {
  V_mean : R;
  V_hub : R;
  turbulence_class : string;
  std : Z
}.

(** The output and the two entries of the Jacobian [J]. *)
Record Outputs := {
  V_gust : R;
  dV_gust_dV_mean : R;
  dV_gust_dV_hub : R
}.

(** The chain [if ... elif ... elif ...] has no [else]: for any other class
    the name [Iref] stays unbound and its first use raises. *)
Definition Iref_of (turbulence_class : string) : option R :=
  if decide (turbulence_class = "A") then Some 0.16
  else if decide (turbulence_class = "B") then Some 0.14
  else if decide (turbulence_class = "C") then Some 0.12
  else None.

Definition compute (inputs : Inputs) : option Outputs :=
  let V_mean := V_mean inputs in
  let V_hub := V_hub inputs in
  let std := IZR (std inputs) in
  Iref ← Iref_of (turbulence_class inputs);
  let c := 2.0 in
  let sigma := c * Iref * (0.072 * (V_mean / c + 3) * (V_hub / c - 4) + 10) in
  let V_gust := V_hub + std * sigma in
  Some {| V_gust := V_gust;
          dV_gust_dV_mean := std * (c * Iref * 0.072 / c * (V_hub / c - 4));
          dV_gust_dV_hub :=
            1.0 + std * (c * Iref * 0.072 * (V_mean / c + 3) / c) |}.

End GustETM.

(** *** SetupPCModVarSpeed *)

Module SetupPCModVarSpeed.
Local Open Scope R_scope.

(** The input named [R] in the source is the rotor radius; it is called
    [R_rotor] here (and [R_] as a local), [R] being the type of the real
    numbers. *)
Record Inputs := {
  control_tsr : R;
  control_pitch : R;
  Vrated : R;
  R_rotor : R;
  Vfactor : R
}.

Record Outputs := {
  Uhub : R;
  Omega : R;
  pitch : R;
  azimuth : R;
  J : gmap (string * string) R
}.

Section Compute.
(** The constant [RS2RPM] of the package [wisdem.rotorse]. *)
Variable RS2RPM : R.

Definition compute (inputs : Inputs) : Outputs :=
  let Vrated := Vrated inputs in
  let R_ := R_rotor inputs in
  let Vfactor := Vfactor inputs in
  let Uhub := Vfactor * Vrated in
  let Omega := control_tsr inputs * Uhub / R_ * RS2RPM in
  let pitch := control_pitch inputs in
  let J : gmap (string * string) R := ∅ in
  let J := <[("Uhub", "control_tsr") := 0.0]> J in
  let J := <[("Uhub", "Vrated") := Vfactor]> J in
  let J := <[("Uhub", "R") := 0.0]> J in
  let J := <[("Uhub", "control_pitch") := 0.0]> J in
  let J := <[("Omega", "control_tsr") := Uhub / R_ * RS2RPM]> J in
  let J := <[("Omega", "Vrated") :=
               control_tsr inputs * Vfactor / R_ * RS2RPM]> J in
  let J := <[("Omega", "R") :=
               - control_tsr inputs * Uhub / R_ ^ 2 * RS2RPM]> J in
  let J := <[("Omega", "control_pitch") := 0.0]> J in
  let J := <[("pitch", "control_tsr") := 0.0]> J in
  let J := <[("pitch", "Vrated") := 0.0]> J in
  let J := <[("pitch", "R") := 0.0]> J in
  let J := <[("pitch", "control_pitch") := 1.0]> J in
  {| Uhub := Uhub; Omega := Omega; pitch := pitch; azimuth := 0.0; J := J |}.

End Compute.

(** A region-2 operating point for test runs. *)
Definition sample_inputs : Inputs :=
  {| control_tsr := 8; control_pitch := 0; Vrated := 11; R_rotor := 63;
     Vfactor := 0.7 |}.

End SetupPCModVarSpeed.

(** *** OutputsStructures *)

Module OutputsStructures.
Local Open Scope R_scope.

(** The root loads of the six blade slots, arrays of shape [(3,)], and the
    blade count, a non-negative integer.  The other inputs of the component
    are copied to the output of the same name and are left out. *)
Record Inputs := {
  Fxyz_1_in : R * R * R; Fxyz_2_in : R * R * R; Fxyz_3_in : R * R * R;
  Fxyz_4_in : R * R * R; Fxyz_5_in : R * R * R; Fxyz_6_in : R * R * R;
  Mxyz_1_in : R * R * R; Mxyz_2_in : R * R * R; Mxyz_3_in : R * R * R;
  Mxyz_4_in : R * R * R; Mxyz_5_in : R * R * R; Mxyz_6_in : R * R * R;
  nBlades : nat
}.

Record Outputs := {
  Fxyz_1 : R * R * R; Fxyz_2 : R * R * R; Fxyz_3 : R * R * R;
  Fxyz_4 : R * R * R; Fxyz_5 : R * R * R; Fxyz_6 : R * R * R;
  Mxyz_1 : R * R * R; Mxyz_2 : R * R * R; Mxyz_3 : R * R * R;
  Mxyz_4 : R * R * R; Mxyz_5 : R * R * R; Mxyz_6 : R * R * R;
  Fxyz_total : R * R * R;
  Mxyz_total : R * R * R
}.

(** The rows of the arrays [F_hub] and [M_hub]. *)
Definition F_hub (inputs : Inputs) : list (R * R * R) :=
  [Fxyz_1_in inputs; Fxyz_2_in inputs; Fxyz_3_in inputs;
   Fxyz_4_in inputs; Fxyz_5_in inputs; Fxyz_6_in inputs].

Definition M_hub (inputs : Inputs) : list (R * R * R) :=
  [Mxyz_1_in inputs; Mxyz_2_in inputs; Mxyz_3_in inputs;
   Mxyz_4_in inputs; Mxyz_5_in inputs; Mxyz_6_in inputs].

(** [tot += v] on arrays of shape [(3,)]. *)
Definition add3 (tot v : R * R * R) : R * R * R :=
  let '(a, b, c) := tot in
  let '(x, y, z) := v in
  (a + x, b + y, c + z).

Section Compute.
(** [DirectionVector.fromArray(v).azimuthToHub(angle).toArray()]. *)
Variable azimuthToHub : R -> R * R * R -> R * R * R.

(** The body of the loop over the blades; a row outside the six slots
    raises. *)
Definition blade_step (F_hub M_hub : list (R * R * R)) (angles : list R)
    (acc : option ((R * R * R) * (R * R * R))) (row : nat)
  : option ((R * R * R) * (R * R * R)) :=
  '(F_hub_tot, M_hub_tot) ← acc;
  F_row ← F_hub !! row;
  angle ← angles !! row;
  M_row ← M_hub !! row;
  Some (add3 F_hub_tot (azimuthToHub angle F_row),
        add3 M_hub_tot (azimuthToHub angle M_row)).

Definition sum_over_blades (F_hub M_hub : list (R * R * R))
    (angles : list R) (rows : list nat)
  : option ((R * R * R) * (R * R * R)) :=
  foldl (blade_step F_hub M_hub angles) (Some ((0, 0, 0), (0, 0, 0))) rows.

Definition compute (inputs : Inputs) : option Outputs :=
  let F_hub := F_hub inputs in
  let M_hub := M_hub inputs in
  let nBlades := nBlades inputs in
  let angles := Np.linspace 0 360 (nBlades + 1) in
  '(F_hub_tot, M_hub_tot) ← sum_over_blades F_hub M_hub angles (seq 0 nBlades);
  Some {| Fxyz_1 := Fxyz_1_in inputs; Fxyz_2 := Fxyz_2_in inputs;
          Fxyz_3 := Fxyz_3_in inputs; Fxyz_4 := Fxyz_4_in inputs;
          Fxyz_5 := Fxyz_5_in inputs; Fxyz_6 := Fxyz_6_in inputs;
          Mxyz_1 := Mxyz_1_in inputs; Mxyz_2 := Mxyz_2_in inputs;
          Mxyz_3 := Mxyz_3_in inputs; Mxyz_4 := Mxyz_4_in inputs;
          Mxyz_5 := Mxyz_5_in inputs; Mxyz_6 := Mxyz_6_in inputs;
          Fxyz_total := F_hub_tot;
          Mxyz_total := M_hub_tot |}.

End Compute.

End OutputsStructures.

(** *** BladeDeflection *)

Module BladeDeflection.
Local Open Scope R_scope.

Record Inputs := {
  dx : list R; dy : list R; dz : list R;
  pitch : R;
  theta : list R;
  r_in : list R;
  Rhub : R;
  r_pts : list R;
  precurve : list R;
  bladeLength : R
}.

Record Outputs := {
  delta_bladeLength : R;
  delta_precurve_sub : list R
}.

Section Compute.
(** [DirectionVector(dx, dy, dz).airfoilToBlade(theta)] on arrays, and the
    values returned by [interp_with_deriv] of [commonse.utilities]. *)
Variable airfoilToBlade :
  list R -> list R * list R * list R -> list R * list R * list R.
Variable interp_with_deriv : list R -> list R -> list R -> list R.

Definition compute (inputs : Inputs) : Outputs :=
  let pitch := pitch inputs in
  let theta := theta inputs in
  let r_in0 := r_in inputs in
  let Rhub0 := Rhub inputs in
  let r_pts0 := r_pts inputs in
  let precurve0 := precurve inputs in
  let bladeLength0 := bladeLength inputs in
  let theta := (fun th => th + pitch) <$> theta in
  let dr := (dx inputs, dy inputs, dz inputs) in
  let delta := airfoilToBlade theta dr in
  let delta_x := fst (fst delta) in
  let precurve_out := Np.add precurve0 delta_x in
  let length0 :=
    Rhub0 + Np.sum (sqrt <$> Np.add (Np.square (Np.diff precurve0))
                                    (Np.square (Np.diff r_pts0))) in
  let length :=
    Rhub0 + Np.sum (sqrt <$> Np.add (Np.square (Np.diff precurve_out))
                                    (Np.square (Np.diff r_pts0))) in
  let shortening := length0 / length in
  let delta_bladeLength := bladeLength0 * (shortening - 1) in
  let delta_precurve_sub := interp_with_deriv r_in0 r_pts0 delta_x in
  {| delta_bladeLength := delta_bladeLength;
     delta_precurve_sub := delta_precurve_sub |}.

(** [delta.x] as [compute] obtains it. *)
Definition delta_x (inputs : Inputs) : list R :=
  fst (fst (airfoilToBlade ((fun th => th + pitch inputs) <$> theta inputs)
                           (dx inputs, dy inputs, dz inputs))).

End Compute.

(** The expression bound to [length0] and, with the deflected precurve, to
    [length]: hub radius plus the length of the polyline through the
    stations. *)
Definition length_of (Rhub0 : R) (precurve r_pts0 : list R) : R :=
  Rhub0 + Np.sum (sqrt <$> Np.add (Np.square (Np.diff precurve))
                                  (Np.square (Np.diff r_pts0))).

End BladeDeflection.

(** *** RootMoment *)

Module RootMoment.
Local Open Scope R_scope.

Record Inputs := {
  aeroloads_r : list R;
  aeroloads_Px : list R;
  aeroloads_Py : list R;
  aeroloads_Pz : list R;
  r_pts : list R;
  totalCone : list R;
  x_az : list R;
  y_az : list R;
  z_az : list R;
  s : list R
}.

Record Outputs := {
  root_bending_moment : R;
  Mxyz : R * R * R;
  Fxyz : R * R * R
}.

Section Compute.
(** The values returned by [interp_with_deriv], and the methods
    [bladeToAzimuth] and [cross] of [DirectionVector] on arrays. *)
Variable interp_with_deriv : list R -> list R -> list R -> list R.
Variable bladeToAzimuth :
  list R -> list R * list R * list R -> list R * list R * list R.
Variable cross :
  list R * list R * list R -> list R * list R * list R
  -> list R * list R * list R.

Definition compute (inputs : Inputs) : Outputs :=
  let r := r_pts inputs in
  let totalCone := totalCone inputs in
  let s := s inputs in
  let Px := interp_with_deriv r (aeroloads_r inputs) (aeroloads_Px inputs) in
  let Py := interp_with_deriv r (aeroloads_r inputs) (aeroloads_Py inputs) in
  let Pz := interp_with_deriv r (aeroloads_r inputs) (aeroloads_Pz inputs) in
  let Fx := Np.trapz Px s in
  let Fy := Np.trapz Py s in
  let Fz := Np.trapz Pz s in
  (* loads in azimuthal c.s. *)
  let P := bladeToAzimuth totalCone (Px, Py, Pz) in
  (* distributed bending load in azimuth coordinate system *)
  let az := (x_az inputs, y_az inputs, z_az inputs) in
  let Mp := cross az P in
  (* integrate *)
  let Mx := Np.trapz (fst (fst Mp)) s in
  let My := Np.trapz (snd (fst Mp)) s in
  let Mz := Np.trapz (snd Mp) s in
  (* get total magnitude *)
  let model_bending_moment := sqrt (Mx ^ 2 + My ^ 2 + Mz ^ 2) in
  {| Mxyz := (Mx, My, Mz);
     Fxyz := (Fx, Fy, Fz);
     root_bending_moment := model_bending_moment |}.

End Compute.

End RootMoment.

(** *** DamageLoads *)

Module DamageLoads.
Local Open Scope R_scope.

Record Inputs := {
  rstar : list R;
  Mxb : list R;
  Myb : list R;
  theta : list R;
  r : list R
}.

Record Outputs := {
  Mxa : list R;
  Mya : list R
}.

(** [(r - r[0]) / (r[-1] - r[0])]; both subscripts raise on an empty
    array. *)
Definition normalized_span (r : list R) : option (list R) :=
  r_0 ← r !! 0%nat;
  r_last ← last r;
  Some ((fun r_i => (r_i - r_0) / (r_last - r_0)) <$> r).

Section Compute.
(** [Akima(xp, yp)(x)], the interpolated values, and
    [DirectionVector.bladeToAirfoil] on arrays. *)
Variable Akima : list R -> list R -> list R -> list R.
Variable bladeToAirfoil :
  list R -> list R * list R * list R -> list R * list R * list R.

Definition compute (inputs : Inputs) : option Outputs :=
  let Mxb := Mxb inputs in
  let Myb := Myb inputs in
  let theta := theta inputs in
  let r := r inputs in
  rstar ← normalized_span r;
  let Mxb := Akima (DamageLoads.rstar inputs) Mxb rstar in
  let Myb := Akima (DamageLoads.rstar inputs) Myb rstar in
  let Ma := bladeToAirfoil theta (Mxb, Myb, (fun _ => 0.0) <$> Mxb) in
  Some {| Mxa := fst (fst Ma); Mya := snd (fst Ma) |}.

End Compute.

End DamageLoads.

(** *** CurveFEM *)

Module CurveFEM.
Local Open Scope R_scope.

(** The input read outside the calls of the eigensolver. *)
Record Inputs := {
  beam_z : list R
}.

Record Outputs := {
  freq : list R;
  modes_coef : list (list R)
}.

(** Mode shape polynomial fit. *)
Definition mode_fit (x a b c d e : R) : R :=
  a * x ^ 2 + b * x ^ 3 + c * x ^ 4 + d * x ^ 5 + e * x ^ 6.

(** [[c/sum(coef) for c in coef]], with the built-in [sum]. *)
Definition coef_norm (coef : list R) : list R :=
  (fun c => c / Np.sum coef) <$> coef.

(** Assignment of a sequence to an output, or to a row of an output, of
    [size] entries: a sequence of that length is copied, a single value is
    broadcast, and any other length raises. *)
Definition assign (size : nat) (value : list R) : option (list R) :=
  if decide (length value = size) then Some value
  else match value with
       | [v] => Some (replicate size v)
       | _ => None
       end.

Section Compute.
(** The constant [NFREQ] of [wisdem.commonse]; the frequencies and the
    eigenvector matrix (the list of its columns) that the curved-beam
    eigensolver returns for the inputs; and [curve_fit] of SciPy, reduced to
    the fitted coefficients.  Both calls may raise. *)
Variable NFREQ : nat.
Variable frequencies : Inputs -> option (list R * list (list R)).
Variable curve_fit :
  (R -> R -> R -> R -> R -> R -> R) -> list R -> list R -> option (list R).

(** The array called [R] in the source is [R_] here. *)
Definition compute (inputs : Inputs) : option Outputs :=
  let n := length (beam_z inputs) in
  '(freq, eig_vec) ← frequencies inputs;
  freq_out ← assign NFREQ (take NFREQ freq);
  (* Parse eigen vectors *)
  let R_ := beam_z inputs in
  R_ ← mapM (fun Ri =>
               R_0 ← R_ !! 0%nat;
               R_last ← last R_;
               Some ((Ri - R_0) / (R_last - R_0))) R_;
  let ndof := 6%nat in
  flap_edge ← mapM (fun i =>
                      eig_vec_i ← eig_vec !! i;
                      flap_i ← mapM (fun j => eig_vec_i !! (0 + j * ndof)%nat)
                                    (seq 0 n);
                      edge_i ← mapM (fun j => eig_vec_i !! (1 + j * ndof)%nat)
                                    (seq 0 n);
                      Some (flap_i, edge_i)) (seq 0 NFREQ);
  let flap := fst <$> flap_edge in
  let edge := snd <$> flap_edge in
  (* First Flapwise *)
  flap_0 ← flap !! 0%nat;
  coef ← curve_fit mode_fit R_ flap_0;
  row_0 ← assign 5 (coef_norm coef);
  (* Second Flapwise *)
  flap_1 ← flap !! 1%nat;
  coef ← curve_fit mode_fit R_ flap_1;
  row_1 ← assign 5 (coef_norm coef);
  (* First Edgewise *)
  edge_0 ← edge !! 0%nat;
  coef ← curve_fit mode_fit R_ edge_0;
  row_2 ← assign 5 (coef_norm coef);
  Some {| freq := freq_out; modes_coef := [row_0; row_1; row_2] |}.

End Compute.

(** A run on two stations with a fit that returns the same five
    coefficients for every mode. *)
Definition sample_inputs : Inputs := {| beam_z := [1.5; 61.5] |}.

Definition sample_frequencies (_ : Inputs)
  : option (list R * list (list R)) :=
  Some ([0.9; 1.1], [replicate 12 1; replicate 12 2]).

Definition sample_curve_fit (_ : R -> R -> R -> R -> R -> R -> R)
    (_ _ : list R) : option (list R) :=
  Some [1; 2; 3; 4; -5].

End CurveFEM.

(** ** Part II: properties *)

Ltac unfold_numeric :=
  cbn [nzero nadd nsub nmul ndiv nofZ Numeric_R Numeric_float] in *.

(** Evaluation of an element-wise array expression at one station. *)
Ltac station_eval :=
  repeat first
    [ rewrite lookup_zip_with
    | rewrite list_lookup_fmap
    | match goal with
      | H : ?l !! ?i = Some _ |- context [?l !! ?i] => rewrite H
      end
    | progress simpl ].

(** *** ExtremeLoads *)

(** C10: for every thrust pair, torque pair and blade count, the extreme-load
    combiner returns [T_extreme = (T[0] + T[1]*(n-1)) / n] and returns
    [Q_extreme = 0] whatever the torque input is. *)
Theorem extreme_loads_thrust_and_zero_torque :
  forall (T Q : R * R) (n : Z),
    let out := ExtremeLoads.compute
                 {| ExtremeLoads.T := T; ExtremeLoads.Q := Q;
                    ExtremeLoads.nBlades := n |} in
    ExtremeLoads.T_extreme out = ((fst T + snd T * (IZR n - 1)) / IZR n)%R /\
    ExtremeLoads.Q_extreme out = 0%R /\
    forall Q' : R * R,
      ExtremeLoads.Q_extreme
        (ExtremeLoads.compute
           {| ExtremeLoads.T := T; ExtremeLoads.Q := Q';
              ExtremeLoads.nBlades := n |}) = ExtremeLoads.Q_extreme out.
Proof.
  intros T Q n out. subst out. unfold ExtremeLoads.compute.
  cbn [ExtremeLoads.T_extreme ExtremeLoads.Q_extreme ExtremeLoads.T
       ExtremeLoads.Q ExtremeLoads.nBlades].
  unfold_numeric. repeat split; reflexivity.
Qed.

(** *** ConstraintsStructures *)

Section Margins.
Import ConstraintsStructures.

Lemma scale_div_real (a : list R) (gf gm d : R) :
  scale_div a (nmul gf gm) d = (fun s => (s * gf * gm / d)%R) <$> a.
Proof.
  unfold scale_div. apply list_fmap_ext. intros _ s _. unfold_numeric.
  unfold Rdiv. ring.
Qed.

Lemma rotor_strain_real (loc : Location) (inputs : Inputs R) :
  rotor_strain loc (compute inputs) =
  (fun s => (s * gamma_f inputs * gamma_m inputs / strain_ult_in loc inputs)%R)
    <$> strain_in loc inputs.
Proof. destruct loc; cbn; apply scale_div_real. Qed.

Lemma rotor_damage_passthrough {A : Type} `{Numeric A}
    (loc : Location) (inputs : Inputs A) :
  rotor_damage loc (compute inputs) = damage_in loc inputs.
Proof. destruct loc; reflexivity. Qed.

(** C7, as stated, fails on binary64: the component first forms
    [gamma_strain = gamma_f * gamma_m] and only then multiplies the strain,
    and for strain 0.005, gamma_f 1.35, gamma_m 1.1 and ultimate strain 0.01
    that order of rounding does not land on the double nearest to 0.7425. *)
Lemma strain_margin_sample_not_bit_exact :
  rotor_strain_sparU
    (compute (sample_inputs 0.005 1.35 1.1 0.01 0.25)%float)
  <> [0.7425%float].
Proof.
  intros Heq.
  apply (f_equal (fun l => match l with
                           | [v] => PrimFloat.eqb v 0.7425
                           | _ => false
                           end)) in Heq.
  vm_compute in Heq. discriminate.
Qed.

(** C7, amended: at every station and each of the four locations the strain
    margin is [strain * gamma_f * gamma_m / ultimate strain] in exact
    arithmetic; for strain 0.005, gamma_f 1.35, gamma_m 1.1, ultimate 0.01
    this is 0.7425 over the reals, and the binary64 run returns
    0.74250000000000016, within 1.2e-16 of it; the damage margins are the
    input damage values, unchanged, at either number type. *)
Theorem strain_margin_formula_and_rounding :
  (forall (loc : Location) (inputs : Inputs R),
     rotor_strain loc (compute inputs) =
     (fun s => (s * gamma_f inputs * gamma_m inputs
                / strain_ult_in loc inputs)%R) <$> strain_in loc inputs) /\
  (forall (loc : Location) (damage : R),
     rotor_strain loc (compute (sample_inputs 0.005 1.35 1.1 0.01 damage)%R)
     = [0.7425%R]) /\
  (forall loc : Location,
     exists v : float,
       rotor_strain loc
         (compute (sample_inputs 0.005 1.35 1.1 0.01 0.25)%float) = [v] /\
       v = 0.74250000000000016%float /\
       PrimFloat.leb (PrimFloat.abs (v - 0.7425)) 1.2e-16 = true) /\
  (forall (A : Type) (HA : Numeric A) (loc : Location) (inputs : Inputs A),
     rotor_damage loc (compute inputs) = damage_in loc inputs).
Proof.
  split; [exact rotor_strain_real|].
  split.
  { intros loc damage. rewrite rotor_strain_real.
    destruct loc; cbn; f_equal; lra. }
  split.
  { intros loc. exists 0.74250000000000016%float.
    destruct loc; vm_compute; repeat split; reflexivity. }
  intros A HA loc inputs. apply rotor_damage_passthrough.
Qed.

End Margins.

(** *** NumPy helpers *)

Section ArcTan2.
Local Open Scope R_scope.

Lemma sin_atan_cos (t : R) : sin (atan t) = t * cos (atan t).
Proof.
  assert (Hc : cos (atan t) <> 0).
  { apply Rgt_not_eq, cos_gt_0; destruct (atan_bound t); lra. }
  rewrite <- (tan_atan t) at 2. unfold tan. field. exact Hc.
Qed.

(** The angle returned by [arctan2 y x] points along [(x, y)]. *)
Lemma arctan2_direction (y x : R) :
  x * sin (Np.arctan2 y x) = y * cos (Np.arctan2 y x).
Proof.
  unfold Np.arctan2.
  destruct (Rlt_dec 0 x) as [Hx|Hx].
  { rewrite sin_atan_cos. field. lra. }
  destruct (Rlt_dec x 0) as [Hx'|Hx'].
  { destruct (Rle_dec 0 y) as [Hy|Hy].
    - rewrite neg_sin, neg_cos, sin_atan_cos. field. lra.
    - unfold Rminus. rewrite sin_plus, cos_plus, sin_neg, cos_neg, sin_PI, cos_PI.
      rewrite sin_atan_cos. field. lra. }
  assert (x = 0) by lra. subst x.
  destruct (Rlt_dec 0 y) as [Hy|Hy].
  { rewrite cos_PI2. lra. }
  destruct (Rlt_dec y 0) as [Hy'|Hy'].
  { rewrite cos_neg, cos_PI2. lra. }
  assert (y = 0) by lra. subst y. lra.
Qed.

Lemma arctan2_pos_axis (y : R) : 0 < y -> Np.arctan2 y 0 = PI / 2.
Proof.
  intros Hy. unfold Np.arctan2.
  destruct (Rlt_dec 0 0); [lra|]. destruct (Rlt_dec 0 0); [lra|].
  destruct (Rlt_dec 0 y); [reflexivity|lra].
Qed.

Lemma arctan2_neg_axis (y : R) : y < 0 -> Np.arctan2 y 0 = - (PI / 2).
Proof.
  intros Hy. unfold Np.arctan2.
  destruct (Rlt_dec 0 0); [lra|]. destruct (Rlt_dec 0 0); [lra|].
  destruct (Rlt_dec 0 y); [lra|]. destruct (Rlt_dec y 0); [reflexivity|lra].
Qed.

Lemma arctan2_origin : Np.arctan2 0 0 = 0.
Proof.
  unfold Np.arctan2.
  destruct (Rlt_dec 0 0); [lra|]. destruct (Rlt_dec 0 0); [lra|].
  destruct (Rlt_dec 0 0); [lra|reflexivity].
Qed.

End ArcTan2.

(** *** RotorWithpBEAM: principal axes *)

Section PrincipalAxesFacts.
Import RotorWithpBEAM.
Local Open Scope R_scope.

(** The angle [0.5 * arctan2 (2*EIxy) (EIyy - EIxx)] nulls the cross term of
    the section it is computed from, whatever the three stiffnesses are. *)
Lemma principal_angle_nulls_cross_term (EIxx EIyy EIxy : R) :
  rotated_EIxy EIxx EIyy EIxy (0.5 * Np.arctan2 (2 * EIxy) (EIyy - EIxx)) = 0.
Proof.
  unfold rotated_EIxy.
  replace (2 * (0.5 * Np.arctan2 (2 * EIxy) (EIyy - EIxx)))
    with (Np.arctan2 (2 * EIxy) (EIyy - EIxx)) by lra.
  pose proof (arctan2_direction (2 * EIxy) (EIyy - EIxx)) as Hd. lra.
Qed.

(** The expression [EIxx - EIxy * tan alpha] used for [EI11] is the first
    diagonal entry of the stiffness tensor in the frame turned by the
    principal angle. *)
Lemma principal_stiffness_is_rotated_EIxx (EIxx EIyy EIxy : R) :
  let alpha := 0.5 * Np.arctan2 (2 * EIxy) (EIyy - EIxx) in
  cos alpha <> 0 ->
  EIxx - EIxy * tan alpha = rotated_EIxx EIxx EIyy EIxy alpha.
Proof.
  intros alpha Hc.
  pose proof (principal_angle_nulls_cross_term EIxx EIyy EIxy) as Hn.
  fold alpha in Hn. unfold rotated_EIxy in Hn. unfold rotated_EIxx, tan.
  rewrite sin_2a in Hn |- *. rewrite cos_2a in Hn.
  pose proof (sin2_cos2 alpha) as Hsc. unfold Rsqr in Hsc.
  set (s := sin alpha) in *. set (c := cos alpha) in *.
  assert (HnP : (EIxx - EIyy) * s * c + EIxy * (c * c - s * s) = 0)
    by (rewrite <- Hn; unfold Rdiv; field).
  apply (Rmult_eq_reg_r c); [|exact Hc].
  replace ((EIxx - EIxy * (s / c)) * c)
    with ((EIxx * c - EIxy * s) * (s * s + c * c))
    by (rewrite Hsc; field; exact Hc).
  apply Rminus_diag_uniq.
  replace ((EIxx * c - EIxy * s) * (s * s + c * c)
           - (EIxx * c ^ 2 + EIyy * s ^ 2 - EIxy * (2 * s * c)) * c)
    with (s * ((EIxx - EIyy) * s * c + EIxy * (c * c - s * s))) by ring.
  rewrite HnP. ring.
Qed.

End PrincipalAxesFacts.

(** *** RotorWithpBEAM: strain and damage recovery *)

Section Recovery.
Import RotorWithpBEAM.
Local Open Scope R_scope.






End Recovery.

(** *** RotorWithpBEAM: the renaming in [principalCS] *)

Section PrincipalCS.
Import RotorWithpBEAM.
Local Open Scope R_scope.

(** Read on the local variables of [principalCS], the formulas of the design
    document hold at every station: [alpha] is half the [arctan2] of the
    translated terms, [EI11] and [EI22] are built from it, and [alpha] nulls
    the cross term of the translated local section. *)
Lemma principalCS_locals_station
    (EIyy EIxx y_ec x_ec EA EIxy : list R) (i : nat) (exx eyy exy : R) :
  let '(lxx, lyy, lxy, alpha) :=
    principalCS_locals EIyy EIxx y_ec x_ec EA EIxy in
  let self := principalCS EIyy EIxx y_ec x_ec EA EIxy in
  lxx !! i = Some exx -> lyy !! i = Some eyy -> lxy !! i = Some exy ->
  let a := 0.5 * Np.arctan2 (2 * exy) (eyy - exx) in
  alpha !! i = Some a /\
  EI11 self !! i = Some (exx - exy * tan a) /\
  EI22 self !! i = Some (eyy + exy * tan a) /\
  rotated_EIxy exx eyy exy a = 0.
Proof.
  unfold principalCS, principalCS_locals.
  set (lxx := Np.sub EIyy _). set (lxy := Np.sub EIxy _).
  clearbody lxx lxy. simpl. intros Hxx Hyy Hxy.
  assert (exx = eyy) as -> by congruence. clear Hxx.
  unfold Np.smul, Np.sub, Np.add, Np.mul in *.
  repeat split; station_eval; try reflexivity.
  apply principal_angle_nulls_cross_term.
Qed.

(** The rebinding makes both local bending stiffnesses equal (they are both
    read from the argument [EIyy], translated by [y_ec]), so that the angle
    is a quarter turn or zero whatever the section is. *)
Lemma principalCS_alpha_is_quarter_turn
    (EIyy EIxx y_ec x_ec EA EIxy : list R) (i : nat) (a : R) :
  snd (principalCS_locals EIyy EIxx y_ec x_ec EA EIxy) !! i = Some a ->
  a = PI / 4 \/ a = - (PI / 4) \/ a = 0.
Proof.
  unfold principalCS_locals. simpl.
  set (lxx := Np.sub EIyy _). set (lxy := Np.sub EIxy _). clearbody lxx lxy.
  unfold Np.smul, Np.sub. rewrite list_lookup_fmap, lookup_zip_with.
  rewrite list_lookup_fmap, lookup_zip_with.
  destruct (lxy !! i) as [exy|]; [|discriminate].
  destruct (lxx !! i) as [exx|]; [|discriminate].
  simpl. intros [= <-]. replace (exx - exx) with 0 by ring.
  destruct (Rtotal_order (2 * exy) 0) as [Hn|[Hz|Hp]].
  - right; left. rewrite arctan2_neg_axis by exact Hn. lra.
  - right; right. rewrite Hz, arctan2_origin. lra.
  - left. rewrite arctan2_pos_axis by exact Hp. lra.
Qed.

(** [principalCS] never looks at its [EIxx] and [x_ec] arguments. *)
Lemma principalCS_ignores_EIxx_and_x_ec
    (EIyy EIxx EIxx' y_ec x_ec x_ec' EA EIxy : list R) :
  principalCS EIyy EIxx y_ec x_ec EA EIxy =
  principalCS EIyy EIxx' y_ec x_ec' EA EIxy.
Proof. reflexivity. Qed.

(** With the exchange of names that the comment of [principalCS] announces,
    the angle nulls the cross term of the section at every station. *)
Lemma principalCS_swapped_nulls_cross_term
    (EIyy EIxx y_ec x_ec EA EIxy : list R) (i : nat) (exx eyy exy a : R) :
  let '(lxx, lyy, lxy, alpha) :=
    principalCS_swapped_locals EIyy EIxx y_ec x_ec EA EIxy in
  lxx !! i = Some exx -> lyy !! i = Some eyy -> lxy !! i = Some exy ->
  alpha !! i = Some a ->
  rotated_EIxy exx eyy exy a = 0.
Proof.
  unfold principalCS_swapped_locals. simpl.
  set (lxx := Np.sub EIxx _). set (lyy := Np.sub EIyy _).
  set (lxy := Np.sub EIxy _). clearbody lxx lyy lxy.
  intros Hxx Hyy Hxy. unfold Np.smul, Np.sub.
  station_eval. intros [= <-]. apply principal_angle_nulls_cross_term.
Qed.

(** C1 fails on the code: for the section [EIxx = 3], [EIyy = 1],
    [EIxy = 1] given about its elastic centre, [principalCS] derives
    [alpha = PI/4], [EI11 = 0] and [EI22 = 2]; seen from the frame turned by
    that angle the section keeps a cross term of modulus 1 (whichever of its
    two axes is called x), while the angle of the exchanged names,
    [PI/8], nulls it. *)
Theorem principalCS_cross_term_not_nulled :
  principal_alpha (sample_inputs 1) = [PI / 4] /\
  EI11 (principal_axes (sample_inputs 1)) = [0] /\
  EI22 (principal_axes (sample_inputs 1)) = [2] /\
  rotated_EIxy 1 3 1 (PI / 4) = -1 /\
  rotated_EIxy 3 1 1 (PI / 4) = 1 /\
  snd (principalCS_swapped_locals [1] [3] [0] [0] [1] [1]) = [PI / 8] /\
  rotated_EIxy 1 3 1 (PI / 8) = 0.
Proof.
  assert (Hangle : forall u v : R,
             0 < u -> v = 0 -> 0.5 * Np.arctan2 u v = PI / 4).
  { intros u v Hu ->. rewrite arctan2_pos_axis by exact Hu. lra. }
  assert (Hswap : forall u v : R,
             u = 2 -> v = 2 -> 0.5 * Np.arctan2 u v = PI / 8).
  { intros u v -> ->. unfold Np.arctan2. destruct (Rlt_dec 0 2); [|lra].
    replace (2 / 2) with 1 by lra. rewrite atan_1. lra. }
  assert (Hrot : forall exx eyy exy : R,
             rotated_EIxy exx eyy exy (PI / 4) = (exx - eyy) / 2).
  { intros. unfold rotated_EIxy.
    replace (2 * (PI / 4)) with (PI / 2) by lra.
    rewrite sin_PI2, cos_PI2. lra. }
  repeat split.
  - unfold principal_alpha. cbn. f_equal. apply Hangle; lra.
  - unfold principal_axes. cbn. f_equal.
    rewrite Hangle by lra. rewrite tan_PI4. lra.
  - unfold principal_axes. cbn. f_equal.
    rewrite Hangle by lra. rewrite tan_PI4. lra.
  - rewrite Hrot. lra.
  - rewrite Hrot. lra.
  - cbn. f_equal. apply Hswap; lra.
  - rewrite <- (Hswap (2 * 1) (3 - 1)) by lra.
    apply principal_angle_nulls_cross_term.
Qed.

End PrincipalCS.

(** *** PreCompSections: panel buckling *)

Section PanelBucklingFacts.
Import PreCompSections.
Local Open Scope R_scope.

Variable compositeMatrices :
  PreComp.CompositeSection R -> nat -> Matrix * Matrix * Matrix * R.
Variable effectiveEAxial : PreComp.CompositeSection R -> nat -> R.

Lemma panelBucklingStrain_station_eq
    (c : R) (cs : PreComp.CompositeSection R) (idx : nat) (lo hi : R) :
  PreComp.loc cs !! idx = Some lo ->
  PreComp.loc cs !! (idx + 1)%nat = Some hi ->
  let '(_, _, D, t) := compositeMatrices cs idx in
  panelBucklingStrain_station compositeMatrices effectiveEAxial c cs idx =
  Some (critical_strain (c * (hi - lo)) (D 0%nat 0%nat) (D 1%nat 1%nat)
          (D 0%nat 1%nat + 2 * D 2%nat 2%nat) t (effectiveEAxial cs idx)).
Proof.
  intros Hlo Hhi. unfold panelBucklingStrain_station.
  rewrite Hhi, Hlo. simpl.
  destruct (compositeMatrices cs idx) as [[[A B] D] t].
  f_equal. unfold critical_strain, Rdiv. rewrite (Rinv_mult t). ring.
Qed.

Lemma critical_strain_negative (L D1 D2 D3 t E : R) :
  L <> 0 -> 0 < t -> 0 < E -> 0 < sqrt (D1 * D2) + D3 ->
  critical_strain L D1 D2 D3 t E < 0.
Proof.
  intros HL Ht HE HD. unfold critical_strain.
  assert (HpL : PI / L <> 0).
  { unfold Rdiv. apply Rmult_integral_contrapositive_currified.
    - apply PI_neq0.
    - apply Rinv_neq_0_compat, HL. }
  assert (Hsq : 0 < (PI / L) ^ 2)
    by (rewrite <- Rsqr_pow2; apply Rsqr_pos_lt, HpL).
  assert (HtE : 0 < t * E) by (apply Rmult_lt_0_compat; assumption).
  assert (Hnum : 0 < 2 * (PI / L) ^ 2 * (sqrt (D1 * D2) + D3)).
  { apply Rmult_lt_0_compat; [lra|exact HD]. }
  pose proof (Rdiv_lt_0_compat _ _ Hnum HtE) as Hq.
  unfold Rdiv in *. rewrite <- Ropp_mult_distr_l. lra.
Qed.

Lemma critical_strain_inverse_square (k L D1 D2 D3 t E : R) :
  k <> 0 -> L <> 0 ->
  critical_strain (k * L) D1 D2 D3 t E = critical_strain L D1 D2 D3 t E / k ^ 2.
Proof.
  intros Hk HL. unfold critical_strain.
  replace (PI / (k * L)) with (PI / L / k) by (field; split; assumption).
  unfold Rdiv. rewrite !Rinv_mult, Rpow_mult_distr, pow_inv. ring.
Qed.

(** A positive-definite bending stiffness matrix makes the bracket of the
    buckling load positive. *)
Lemma positive_definite_bracket (D11 D22 D12 D66 : R) :
  0 < D11 -> 0 < D22 -> 0 < D66 -> D12 * D12 < D11 * D22 ->
  0 < sqrt (D11 * D22) + (D12 + 2 * D66).
Proof.
  intros H1 H2 H6 Hdet.
  assert (Habs : Rabs D12 < sqrt (D11 * D22)).
  { rewrite <- sqrt_Rsqr_abs. apply sqrt_lt_1.
    - apply Rle_0_sqr.
    - apply Rlt_le, Rmult_lt_0_compat; assumption.
    - exact Hdet. }
  pose proof (Rle_abs (- D12)) as Hle. rewrite Rabs_Ropp in Hle. lra.
Qed.

(** C4: when every station has its section and an in-range sector index,
    [panelBucklingStrain] returns one value per station, and at station [i],
    with [L = chord[i] * (loc[idx+1] - loc[idx])], [D1 = D[0,0]],
    [D2 = D[1,1]], [D3 = D[0,1] + 2*D[2,2]], thickness [t] and modulus [E]
    of the sector, that value is
    [-(2*(PI/L)^2*(sqrt(D1*D2) + D3)) / (t*E)]; it is negative for a sector
    of non-zero length with [t > 0], [E > 0] and [sqrt(D1*D2) + D3 > 0], and
    multiplying the chord (hence [L]) by [k] divides it by [k^2]. *)
Theorem panel_buckling_critical_strain :
  forall (chord : list R) (CS_list : list (PreComp.CompositeSection R))
         (sector_idx_strain : list nat),
    length CS_list = length chord ->
    length sector_idx_strain = length chord ->
    (forall (i : nat) (cs : PreComp.CompositeSection R) (idx : nat),
        CS_list !! i = Some cs -> sector_idx_strain !! i = Some idx ->
        (idx + 1 < length (PreComp.loc cs))%nat) ->
    exists eps_crit : list R,
      panelBucklingStrain compositeMatrices effectiveEAxial
        chord CS_list sector_idx_strain = Some eps_crit /\
      length eps_crit = length chord /\
      forall (i : nat) (c : R) (cs : PreComp.CompositeSection R) (idx : nat)
             (lo hi : R),
        chord !! i = Some c -> CS_list !! i = Some cs ->
        sector_idx_strain !! i = Some idx ->
        PreComp.loc cs !! idx = Some lo ->
        PreComp.loc cs !! (idx + 1)%nat = Some hi ->
        let L := c * (hi - lo) in
        let '(_, _, D, t) := compositeMatrices cs idx in
        let E := effectiveEAxial cs idx in
        let D1 := D 0%nat 0%nat in
        let D2 := D 1%nat 1%nat in
        let D3 := D 0%nat 1%nat + 2 * D 2%nat 2%nat in
        eps_crit !! i =
          Some (- (2 * (PI / L) ^ 2 * (sqrt (D1 * D2) + D3)) / (t * E)) /\
        (L <> 0 -> 0 < t -> 0 < E -> 0 < sqrt (D1 * D2) + D3 ->
         - (2 * (PI / L) ^ 2 * (sqrt (D1 * D2) + D3)) / (t * E) < 0) /\
        (forall k : R, k <> 0 -> L <> 0 ->
           panelBucklingStrain_station compositeMatrices effectiveEAxial
             (k * c) cs idx =
           Some (- (2 * (PI / L) ^ 2 * (sqrt (D1 * D2) + D3)) / (t * E)
                 / k ^ 2)).
Proof.
  intros chord CS_list idxs HlenCS Hlenidx Hrange.
  unfold panelBucklingStrain.
  set (body := fun i : nat => _).
  assert (Hsome : is_Some (mapM body (seq 0 (length chord)))).
  { apply mapM_is_Some_2, Forall_lookup. intros j i Hseq.
    apply lookup_seq in Hseq as [-> Hlt]. simpl. unfold body.
    destruct (lookup_lt_is_Some_2 chord j Hlt) as [c Hc].
    destruct (lookup_lt_is_Some_2 CS_list j) as [cs Hcs]; [lia|].
    destruct (lookup_lt_is_Some_2 idxs j) as [idx Hidx]; [lia|].
    rewrite Hc, Hcs, Hidx. simpl.
    pose proof (Hrange j cs idx Hcs Hidx) as Hin.
    destruct (lookup_lt_is_Some_2 (PreComp.loc cs) idx) as [lo Hlo]; [lia|].
    destruct (lookup_lt_is_Some_2 (PreComp.loc cs) (idx + 1)) as [hi Hhi];
      [lia|].
    pose proof (panelBucklingStrain_station_eq c cs idx lo hi Hlo Hhi) as Heq.
    destruct (compositeMatrices cs idx) as [[[A B] D] t].
    rewrite Heq. eauto. }
  destruct Hsome as [eps Heps]. exists eps.
  split; [exact Heps|]. split.
  { apply length_mapM in Heps. rewrite length_seq in Heps. congruence. }
  intros i c cs idx lo hi Hc Hcs Hidx Hlo Hhi. cbv zeta.
  pose proof (panelBucklingStrain_station_eq c cs idx lo hi Hlo Hhi) as Hst.
  pose proof (fun k => panelBucklingStrain_station_eq (k * c) cs idx lo hi
                         Hlo Hhi) as Hstk.
  destruct (compositeMatrices cs idx) as [[[A B] D] t].
  fold (critical_strain (c * (hi - lo)) (D 0%nat 0%nat) (D 1%nat 1%nat)
          (D 0%nat 1%nat + 2 * D 2%nat 2%nat) t (effectiveEAxial cs idx)).
  split; [|split].
  - apply mapM_Some_1 in Heps.
    assert (Hi : seq 0 (length chord) !! i = Some i).
    { apply lookup_seq. split; [reflexivity|].
      apply lookup_lt_is_Some_1. eauto. }
    destruct (Forall2_lookup_l _ _ _ _ _ Heps Hi) as (e & He & Hbody).
    unfold body in Hbody. rewrite Hc, Hcs, Hidx in Hbody. simpl in Hbody.
    rewrite Hst in Hbody. congruence.
  - apply critical_strain_negative.
  - intros k Hk HL. rewrite Hstk. f_equal.
    replace (k * c * (hi - lo)) with (k * (c * (hi - lo))) by ring.
    apply critical_strain_inverse_square; assumption.
Qed.

End PanelBucklingFacts.

Lemma panel_buckling_critical_strain_witness :
  exists eps_crit : list R,
    PreCompSections.panelBucklingStrain
      PreCompSections.sample_compositeMatrices
      PreCompSections.sample_effectiveEAxial
      [2%R] [PreCompSections.sample_section] [0%nat] = Some eps_crit /\
    length eps_crit = 1%nat.
Proof.
  destruct (panel_buckling_critical_strain
              PreCompSections.sample_compositeMatrices
              PreCompSections.sample_effectiveEAxial
              [2%R] [PreCompSections.sample_section] [0%nat])
    as (eps & Heps & Hlen & _).
  - reflexivity.
  - reflexivity.
  - intros [|i] cs idx Hcs Hidx; [|discriminate].
    injection Hcs as <-. injection Hidx as <-. simpl. lia.
  - exists eps. split; assumption.
Defined.

(** *** TipDeflection *)

Section TipDeflectionFacts.
Import TipDeflection.
Local Open Scope R_scope.

Variables airfoilToBlade bladeToAzimuth azimuthToHub hubToYaw :
  R -> DirectionVector -> DirectionVector.

(** C5: whatever is on the [azimuth] input, the tip deflection is computed
    at the azimuth of 180 degrees: the airfoil-frame displacement
    [(dx, dy, dz)] goes airfoil -> blade (by twist + pitch) -> azimuth (by
    the total cone) -> hub (by 180) -> yaw (by the tilt), and the x component
    of the result times the dynamic amplification factor is the deflection;
    [gamma_m] times that deflection is added to the x position of the tip in
    the yaw frame (whose sign is flipped for downwind rotors). *)
Theorem tip_deflection_at_fixed_azimuth :
  forall inputs : Inputs,
    let run := compute airfoilToBlade bladeToAzimuth azimuthToHub hubToYaw in
    let delta :=
      hubToYaw (tilt inputs)
        (azimuthToHub 180
           (bladeToAzimuth (totalConeTip inputs)
              (airfoilToBlade (theta inputs + pitch inputs)
                 {| x := dx inputs; y := dy inputs; z := dz inputs |}))) in
    let blade_yaw :=
      hubToYaw (tilt inputs)
        (azimuthToHub 180
           (bladeToAzimuth (totalConeTip inputs)
              {| x := precurveTip inputs; y := presweepTip inputs;
                 z := Rtip inputs |})) in
    (forall a : R, run (with_azimuth a inputs) = run inputs) /\
    tip_deflection (run inputs) = dynamicFactor inputs * x delta /\
    fst (fst (tip_position (run inputs))) =
      (if downwind inputs then -1 else 1) * x blade_yaw
      + gamma_m inputs * tip_deflection (run inputs).
Proof.
  intros inputs run delta blade_yaw. subst run delta blade_yaw.
  assert (H180 : 180.0 = 180) by lra.
  unfold compute. rewrite H180. cbn.
  repeat split. destruct (downwind inputs); cbn; lra.
Qed.

End TipDeflectionFacts.

(** *** BladeCurvature *)

Section BladeCurvatureFacts.
Import BladeCurvature.
Local Open Scope R_scope.

Lemma stations_straight (r : list R) :
  stations r ((fun _ => 0) <$> r) ((fun _ => 0) <$> r)
  = (fun z => (0, 0, z)) <$> r.
Proof. unfold stations. induction r as [|z r IH]; cbn; congruence. Qed.

Lemma distance_straight (a b : R) : a <= b -> distance (0, 0, a) (0, 0, b) = b - a.
Proof.
  intros Hab. unfold distance.
  replace ((0 - 0) ^ 2 + (0 - 0) ^ 2 + (b - a) ^ 2) with (Rsqr (b - a))
    by (unfold Rsqr; ring).
  apply sqrt_Rsqr. lra.
Qed.

Lemma increasing_tail (a : R) (r : list R) : increasing (a :: r) -> increasing r.
Proof. intros Hinc i x y Hx Hy. exact (Hinc (S i) x y Hx Hy). Qed.

(** Along a straight blade the accumulated length is the radius gained. *)
Lemma path_length_straight (r0 s_prev prev : R) (rest : list R) :
  increasing (prev :: rest) ->
  s_prev = prev - r0 ->
  path_length s_prev (0, 0, prev) ((fun z => (0, 0, z)) <$> rest)
  = (fun z => z - r0) <$> rest.
Proof.
  revert s_prev prev. induction rest as [|z rest IH]; intros s_prev prev Hinc Hs.
  - reflexivity.
  - cbn [fmap list_fmap path_length].
    assert (Hlt : prev < z) by (apply (Hinc 0%nat); reflexivity).
    rewrite distance_straight by lra.
    assert (Hz : s_prev + (z - prev) = z - r0) by lra.
    rewrite Hz. f_equal. apply IH; [eapply increasing_tail, Hinc|reflexivity].
Qed.

Lemma definecurvature_s_straight (r0 : R) (r : list R) :
  increasing r -> r !! 0%nat = Some r0 ->
  definecurvature_s r ((fun _ => 0) <$> r) ((fun _ => 0) <$> r)
  = (fun z => z - r0) <$> r.
Proof.
  intros Hinc H0. unfold definecurvature_s. rewrite stations_straight.
  destruct r as [|z r]; [discriminate|]. injection H0 as ->.
  cbn [fmap list_fmap]. f_equal; [ring|].
  apply path_length_straight; [exact Hinc|ring].
Qed.

(** The output [s] of a straight blade is the list of radii itself. *)
Lemma compute_straight
    (frame : list R -> list R -> list R -> R -> list R * list R * list R * list R)
    (inputs : Inputs) (r0 : R) :
  increasing (r inputs) -> r inputs !! 0%nat = Some r0 ->
  precurve inputs = (fun _ => 0) <$> r inputs ->
  presweep inputs = (fun _ => 0) <$> r inputs ->
  exists out : Outputs,
    compute frame inputs = Some out /\
    s out = r inputs /\
    totalCone out =
      (fun c => precone inputs + c * 180 / PI)
        <$> snd (frame (r inputs) (precurve inputs) (presweep inputs) 0).
Proof.
  intros Hinc H0 Hpc Hps. unfold compute.
  assert (H00 : 0.0 = 0) by lra. rewrite H00.
  destruct (frame _ _ _ _) as [[[xa ya] za] cone].
  rewrite H0. cbn [mbind option_bind].
  eexists. split; [reflexivity|]. cbn [s totalCone snd]. split; [|reflexivity].
  rewrite Hpc, Hps, (definecurvature_s_straight r0) by assumption.
  rewrite <- list_fmap_compose. rewrite <- (list_fmap_id (r inputs)) at 2.
  apply list_fmap_ext. intros _ z _. cbn. lra.
Qed.

Lemma sample_inputs_increasing : increasing (r sample_inputs).
Proof.
  intros [|[|[|i]]] a b Ha Hb; cbn in Ha, Hb; try discriminate;
    injection Ha as <-; injection Hb as <-; lra.
Qed.

(** C6, as stated, fails on the code: the arc length of the routine is
    shifted by [r[0]] before it is output, so for the straight blade with
    radii 1, 3, 6 the output [s] at station 1 is [3], not [3 - 1]. *)
Lemma arc_length_output_is_not_relative_to_root :
  ~ (exists out : Outputs,
       compute straight_frame sample_inputs = Some out /\
       s out !! 1%nat = Some (3 - 1)).
Proof.
  intros (out & Hout & Hs).
  destruct (compute_straight straight_frame sample_inputs 1
              sample_inputs_increasing eq_refl eq_refl eq_refl)
    as (out' & Hout' & Hs' & _).
  rewrite Hout in Hout'. injection Hout' as <-.
  rewrite Hs' in Hs. cbn in Hs. injection Hs as Hs. lra.
Qed.

(** C6, amended: for strictly increasing radii and zero precurve and
    presweep, the component returns, and its output [s] at station [i] is
    [r[0] + (r[i] - r[0])], that is [r[i]]: the arc length measured from the
    root, started at [r[0]]; the total cone output is the precone plus the
    curvature-induced cone angle of the routine, converted to degrees. *)
Theorem arc_length_starts_at_root_radius :
  forall (frame : list R -> list R -> list R -> R ->
                  list R * list R * list R * list R)
         (inputs : Inputs) (r0 : R),
    increasing (r inputs) ->
    r inputs !! 0%nat = Some r0 ->
    precurve inputs = (fun _ => 0) <$> r inputs ->
    presweep inputs = (fun _ => 0) <$> r inputs ->
    exists out : Outputs,
      compute frame inputs = Some out /\
      (forall (i : nat) (ri : R),
          r inputs !! i = Some ri ->
          s out !! i = Some (r0 + (ri - r0)) /\ s out !! i = Some ri) /\
      totalCone out =
        (fun c => precone inputs + c * 180 / PI)
          <$> snd (frame (r inputs) (precurve inputs) (presweep inputs) 0).
Proof.
  intros frame inputs r0 Hinc H0 Hpc Hps.
  destruct (compute_straight frame inputs r0 Hinc H0 Hpc Hps)
    as (out & Hout & Hs & Hcone).
  exists out. split; [exact Hout|]. split; [|exact Hcone].
  intros i ri Hri. rewrite Hs, Hri. split; [f_equal; lra|reflexivity].
Qed.

End BladeCurvatureFacts.

Lemma arc_length_starts_at_root_radius_witness :
  exists out : BladeCurvature.Outputs,
    BladeCurvature.compute BladeCurvature.straight_frame
      BladeCurvature.sample_inputs = Some out.
Proof.
  destruct (arc_length_starts_at_root_radius BladeCurvature.straight_frame
              BladeCurvature.sample_inputs 1%R)
    as (out & Hout & _).
  - intros [|[|[|i]]] a b Ha Hb; cbn in Ha, Hb; try discriminate;
      injection Ha as <-; injection Hb as <-; lra.
  - reflexivity.
  - reflexivity.
  - reflexivity.
  - exists out. exact Hout.
Defined.

(** *** ResizeCompositeSection *)

Section ResizeFacts.
Import ResizeCompositeSection.
Context {A : Type} `{Numeric A}.

Lemma shape_lookup (h : store A) (r : nat) (n : nat) :
  shape h !! r = Some n <->
  exists cs, h !! r = Some cs /\ n = length (PreComp.t cs).
Proof.
  unfold shape. rewrite lookup_fmap. destruct (h !! r) as [cs|]; simpl.
  - split.
    + intros [= <-]. eauto.
    + intros (cs' & [= <-] & ->). reflexivity.
  - split; [discriminate|]. intros (cs' & Hcs & _). discriminate.
Qed.

Lemma shape_insert_same (h : store A) (r : nat)
    (cs : PreComp.CompositeSection A) (t' : list (list A)) :
  h !! r = Some cs -> length t' = length (PreComp.t cs) ->
  shape (<[r := set_t cs t']> h) = shape h.
Proof.
  intros Hcs Hlen. unfold shape. rewrite fmap_insert. simpl. rewrite Hlen.
  apply insert_id. rewrite lookup_fmap, Hcs. reflexivity.
Qed.

(** The three store operations keep the number of sectors of every object
    and succeed as soon as the reference and the index are in range. *)
Lemma scale_all_shape (r : nat) (f : A) (h : store A) (n : nat) :
  shape h !! r = Some n ->
  exists h', scale_all r f h = Some h' /\ shape h' = shape h.
Proof.
  intros (cs & Hcs & _)%shape_lookup. unfold scale_all. rewrite Hcs. simpl.
  eexists. split; [reflexivity|].
  apply shape_insert_same; [exact Hcs|apply length_fmap].
Qed.

Lemma scale_sector_shape (r idx : nat) (k : A) (h : store A) (n : nat) :
  shape h !! r = Some n -> idx < n ->
  exists h', scale_sector r idx k h = Some h' /\ shape h' = shape h.
Proof.
  intros (cs & Hcs & ->)%shape_lookup Hidx. unfold scale_sector.
  rewrite Hcs. simpl.
  destruct (lookup_lt_is_Some_2 (PreComp.t cs) idx Hidx) as [plies Hp].
  rewrite Hp. simpl. eexists. split; [reflexivity|].
  apply shape_insert_same; [exact Hcs|apply length_insert].
Qed.

Lemma sector_sum_in_range (r idx : nat) (h : store A) (n : nat) :
  shape h !! r = Some n -> idx < n ->
  exists plies, sector_sum r idx h = Some (np_sum plies).
Proof.
  intros (cs & Hcs & ->)%shape_lookup Hidx. unfold sector_sum.
  rewrite Hcs. simpl.
  destruct (lookup_lt_is_Some_2 (PreComp.t cs) idx Hidx) as [plies Hp].
  rewrite Hp. simpl. eauto.
Qed.

Lemma resize_station_total (inputs : Inputs A) (factor : list A) (i : nat)
    (h : store A) :
  length factor = length (chord inputs) ->
  well_formed inputs (shape h) ->
  i < length (chord inputs) ->
  exists h', resize_station inputs factor i h = Some h' /\ shape h' = shape h.
Proof.
  intros Hfac [_ Hwf] Hi.
  destruct (Hwf i Hi)
    as (u & l & w & ks & kt & nu & nl & Hu & Hl & Hw & Hnu & Hnl & [nw Hnw]
        & His & Hit & Hsu & Htu & Hsl & Htl & [sT HsT] & [tT HtT]).
  destruct (lookup_lt_is_Some_2 factor i) as [f Hf]; [lia|].
  unfold resize_station. rewrite Hf, Hu. simpl.
  destruct (scale_all_shape u f h nu Hnu) as (h1 & -> & E1). simpl.
  rewrite Hl. simpl. rewrite <- E1 in Hnu, Hnl, Hnw.
  destruct (scale_all_shape l f h1 nl Hnl) as (h2 & -> & E2). simpl.
  rewrite Hw. simpl. rewrite <- E2 in Hnu, Hnl, Hnw.
  destruct (scale_all_shape w f h2 nw Hnw) as (h3 & -> & E3). simpl.
  rewrite His, Hit. simpl. rewrite <- E3 in Hnu, Hnl.
  destruct (sector_sum_in_range u ks h3 nu Hnu Hsu) as (ps & ->). simpl.
  destruct (sector_sum_in_range u kt h3 nu Hnu Htu) as (pt & ->). simpl.
  rewrite HsT. simpl.
  destruct (scale_sector_shape u ks (ndiv sT (np_sum ps)) h3 nu Hnu Hsu)
    as (h4 & -> & E4). simpl. rewrite <- E4 in Hnu, Hnl.
  destruct (scale_sector_shape l ks (ndiv sT (np_sum ps)) h4 nl Hnl Hsl)
    as (h5 & -> & E5). simpl. rewrite <- E5 in Hnu, Hnl.
  rewrite HtT. simpl.
  destruct (scale_sector_shape u kt (ndiv tT (np_sum pt)) h5 nu Hnu Htu)
    as (h6 & -> & E6). simpl. rewrite <- E6 in Hnl.
  destruct (scale_sector_shape l kt (ndiv tT (np_sum pt)) h6 nl Hnl Htl)
    as (h7 & -> & E7). simpl.
  exists h7. split; [reflexivity|]. congruence.
Qed.

Lemma resize_loop_total (inputs : Inputs A) (factor : list A)
    (stations : list nat) (h : store A) :
  length factor = length (chord inputs) ->
  well_formed inputs (shape h) ->
  Forall (fun i => i < length (chord inputs)) stations ->
  exists h', resize_loop inputs factor stations h = Some h'
             /\ shape h' = shape h.
Proof.
  intros Hfac Hwf Hall. revert h Hwf.
  induction Hall as [|i stations Hi _ IH]; intros h Hwf.
  - exists h. split; reflexivity.
  - destruct (resize_station_total inputs factor i h Hfac Hwf Hi)
      as (h1 & Hst & E1).
    unfold resize_loop. simpl. rewrite Hst.
    rewrite <- E1 in Hwf. destruct (IH h1 Hwf) as (h' & Hloop & E').
    exists h'. split; [exact Hloop|congruence].
Qed.

Lemma compute_total (inputs : Inputs A) (h : store A) :
  well_formed inputs (shape h) ->
  exists h',
    compute inputs h = Some ({| upperCS := upperCS_in inputs;
                                lowerCS := lowerCS_in inputs;
                                websCS := websCS_in inputs |}, h')
    /\ shape h' = shape h.
Proof.
  intros Hwf. pose proof Hwf as [Hlen _]. unfold compute.
  destruct (decide _) as [_|Hne]; [|contradiction].
  destruct (resize_loop_total inputs
              (zip_with ndiv (chord inputs) (chord_ref inputs))
              (seq 0 (length (chord inputs))) h) as (h' & Hloop & E).
  - rewrite length_zip_with. lia.
  - exact Hwf.
  - apply Forall_forall. intros i Hin. apply elem_of_seq in Hin. lia.
  - rewrite Hloop. simpl. eauto.
Qed.

End ResizeFacts.

Section ResizeRuns.
Import ResizeCompositeSection.

Lemma float_neq (a b : float) :
  PrimFloat.eqb a a = true -> PrimFloat.eqb a b = false -> a <> b.
Proof. intros Haa Hab ->. congruence. Qed.

Lemma sample_well_formed (sparT teT : float) (spar : list float) :
  well_formed (sample_inputs sparT teT) (shape (sample_store spar)).
Proof.
  split; [reflexivity|]. intros [|i] Hi; [|simpl in Hi; lia].
  exists 0, 1, 2, 0, 1, 3, 3.
  repeat split; try reflexivity; try lia; eexists; reflexivity.
Qed.





(** C9 fails on the code: [compute] writes the scaled thicknesses into the
    objects of its input lists.  On a station whose chord is twice the
    reference chord, a first call turns the ply thicknesses 1, 1, 1 of the
    upper and lower objects into 4, 8, 2 and the web ply 1 into 2; a second
    call with the same arguments turns them into 4, 8, 4 and 4. *)
Theorem resize_twice_differs_from_once :
  exists (out : Outputs) (h1 h2 : store float),
    compute (sample_inputs 4 8) (sample_store [1]%float) = Some (out, h1) /\
    compute (sample_inputs 4 8) h1 = Some (out, h2) /\
    thicknesses (sample_store [1]%float) [0; 1; 2]
    = [Some [[1]; [1]; [1]]; Some [[1]; [1]; [1]]; Some [[1]]]%float /\
    thicknesses h1 [0; 1; 2]
    = [Some [[4]; [8]; [2]]; Some [[4]; [8]; [2]]; Some [[2]]]%float /\
    thicknesses h2 [0; 1; 2]
    = [Some [[4]; [8]; [4]]; Some [[4]; [8]; [4]]; Some [[4]]]%float /\
    h1 <> sample_store [1]%float /\
    h2 <> h1.
Proof.
  destruct (compute_total (sample_inputs 4 8) (sample_store [1]%float)
              (sample_well_formed _ _ _)) as (h1 & Hrun1 & Hshape).
  assert (Hwf1 : well_formed (sample_inputs 4 8) (shape h1)).
  { rewrite Hshape. apply sample_well_formed. }
  destruct (compute_total (sample_inputs 4 8) h1 Hwf1) as (h2 & Hrun2 & _).
  assert (Ht1 : Some (thicknesses h1 [0; 1; 2]) =
                (fun p => thicknesses (snd p) [0; 1; 2]) <$>
                  compute (sample_inputs 4 8) (sample_store [1]%float))
    by (rewrite Hrun1; reflexivity).
  assert (Ht2 : Some (thicknesses h2 [0; 1; 2]) =
                (fun p => thicknesses (snd p) [0; 1; 2]) <$>
                  (compute (sample_inputs 4 8) (sample_store [1]%float)
                   ≫= fun p => compute (sample_inputs 4 8) (snd p)))
    by (rewrite Hrun1; simpl; rewrite Hrun2; reflexivity).
  remember (thicknesses h1 [0; 1; 2]) as th1 eqn:Hth1.
  remember (thicknesses h2 [0; 1; 2]) as th2 eqn:Hth2.
  vm_compute in Ht1. vm_compute in Ht2.
  injection Ht1 as Ht1. injection Ht2 as Ht2.
  assert (Ht0 : thicknesses (sample_store [1]%float) [0; 1; 2]
                = [Some [[1]; [1]; [1]]; Some [[1]; [1]; [1]];
                   Some [[1]]]%float) by (vm_compute; reflexivity).
  eexists _, h1, h2. split; [exact Hrun1|]. split; [exact Hrun2|].
  split; [exact Ht0|].
  split; [congruence|]. split; [congruence|].
  split.
  - intros Heq. rewrite Heq, Ht0 in Hth1. rewrite Hth1 in Ht1.
    apply (f_equal (fun l => match l with
                             | Some (_ :: _ :: (v :: _) :: _) :: _ => v
                             | _ => 0%float
                             end)) in Ht1.
    revert Ht1. apply float_neq; reflexivity.
  - intros Heq. rewrite Heq, <- Hth1, Ht1 in Hth2. rewrite Hth2 in Ht2.
    apply (f_equal (fun l => match l with
                             | Some (_ :: _ :: (v :: _) :: _) :: _ => v
                             | _ => 0%float
                             end)) in Ht2.
    revert Ht2. apply float_neq; reflexivity.
Qed.

End ResizeRuns.

(** *** ResizeCompositeSection: when the call raises *)

Section ResizeFailure.
Import ResizeCompositeSection.
Context {A : Type} `{Numeric A}.





Lemma resize_loop_None (inputs : Inputs A) (factor : list A)
    (stations : list nat) :
  foldl (fun acc i => h' ← acc; resize_station inputs factor i h')
        None stations = None.
Proof. induction stations as [|i stations IH]; [reflexivity|exact IH]. Qed.



End ResizeFailure.

(** *** Derivatives of the closed-form components *)

Section Derivatives.
Local Open Scope R_scope.

(** A function with exact increments [l * h] has derivative [l]. *)
Lemma derivable_pt_lim_affine (f : R -> R) (x l : R) :
  (forall h : R, f (x + h) = f x + l * h) -> derivable_pt_lim f x l.
Proof.
  intros Hinc eps Heps. exists (mkposreal 1 Rlt_0_1). intros h Hh _.
  rewrite Hinc.
  replace ((f x + l * h - f x) / h - l) with 0 by (field; exact Hh).
  rewrite Rabs_R0. exact Heps.
Qed.

Lemma derivable_pt_lim_ext (f g : R -> R) (x l : R) :
  (forall y : R, f y = g y) -> derivable_pt_lim f x l -> derivable_pt_lim g x l.
Proof.
  intros Hext Hf eps Heps. destruct (Hf eps Heps) as [d Hd].
  exists d. intros h Hh Hlt. rewrite <- !Hext. apply Hd; assumption.
Qed.

(** [a / x * b] has derivative [- a / x^2 * b] away from 0. *)
Lemma derivable_pt_lim_over (a b x : R) :
  x <> 0 ->
  derivable_pt_lim (fun y => a / y * b) x (- a / x ^ 2 * b).
Proof.
  intros Hx.
  pose proof (derivable_pt_lim_div (fct_cte a) id x 0 1
                (derivable_pt_lim_const a x) (derivable_pt_lim_id x) Hx) as Hd.
  apply (derivable_pt_lim_scal_right _ _ _ b) in Hd.
  replace (- a / x ^ 2 * b) with ((0 * id x - 1 * fct_cte a x) / (id x)² * b)
    by (unfold id, fct_cte, Rsqr; field; exact Hx).
  eapply derivable_pt_lim_ext; [|exact Hd].
  intros y. reflexivity.
Qed.

End Derivatives.

(** *** GustETM *)

Section GustFacts.
Import GustETM.
Local Open Scope R_scope.

(** The gust component accepts the turbulence classes A, B and C and raises
    on every other class. *)
Theorem gust_defined_only_for_classes_A_B_C (inputs : Inputs) :
  is_Some (compute inputs) <->
  turbulence_class inputs = "A" \/ turbulence_class inputs = "B"
  \/ turbulence_class inputs = "C".
Proof.
  unfold compute, Iref_of.
  destruct (decide (turbulence_class inputs = "A")) as [HA|HA];
    [simpl; split; eauto|].
  destruct (decide (turbulence_class inputs = "B")) as [HB|HB];
    [simpl; split; eauto|].
  destruct (decide (turbulence_class inputs = "C")) as [HC|HC];
    [simpl; split; eauto|].
  simpl. split.
  - intros [out Hout]. discriminate.
  - intros [?|[?|?]]; contradiction.
Qed.

Lemma gust_value (vm vh : R) (cls : string) (n : Z) (Iref : R) :
  Iref_of cls = Some Iref ->
  V_gust <$> compute {| V_mean := vm; V_hub := vh;
                        turbulence_class := cls; std := n |}
  = Some (vh + IZR n * (2 * Iref * (0.072 * (vm / 2 + 3) * (vh / 2 - 4) + 10))).
Proof.
  intros HI. unfold compute. cbn [turbulence_class V_mean V_hub std].
  rewrite HI. cbn. f_equal. lra.
Qed.

(** For wind speeds of the IEC range (mean speed between 0 and 60 m/s, hub
    speed not negative) and a non-negative number of standard deviations,
    the gust speed is at least the hub speed and grows with the turbulence
    class: class C gives the smallest gust and class A the largest. *)
Theorem gust_ordered_by_class :
  forall (vm vh : R) (n : Z),
    0 <= vm <= 60 -> 0 <= vh -> (0 <= n)%Z ->
    exists gA gB gC : R,
      V_gust <$> compute {| V_mean := vm; V_hub := vh;
                            turbulence_class := "A"; std := n |} = Some gA /\
      V_gust <$> compute {| V_mean := vm; V_hub := vh;
                            turbulence_class := "B"; std := n |} = Some gB /\
      V_gust <$> compute {| V_mean := vm; V_hub := vh;
                            turbulence_class := "C"; std := n |} = Some gC /\
      vh <= gC /\ gC <= gB /\ gB <= gA.
Proof.
  intros vm vh n [Hvm0 Hvm1] Hvh Hn.
  do 3 eexists.
  split; [apply gust_value; reflexivity|].
  split; [apply gust_value; reflexivity|].
  split; [apply gust_value; reflexivity|].
  assert (Hstd : 0 <= IZR n) by (apply IZR_le in Hn; exact Hn).
  assert (Hprod : 0 <= (vm / 2 + 3) * (vh / 2 - 4 + 4))
    by (apply Rmult_le_pos; lra).
  set (B := 0.072 * (vm / 2 + 3) * (vh / 2 - 4) + 10).
  assert (HB : 0 <= B) by (unfold B; lra).
  assert (HsB : 0 <= IZR n * B) by (apply Rmult_le_pos; assumption).
  repeat split; lra.
Qed.

Lemma gust_ordered_by_class_witness :
  exists gA gB gC : R,
    V_gust <$> compute {| V_mean := 10; V_hub := 25;
                          turbulence_class := "A"; std := 3 |} = Some gA /\
    V_gust <$> compute {| V_mean := 10; V_hub := 25;
                          turbulence_class := "B"; std := 3 |} = Some gB /\
    V_gust <$> compute {| V_mean := 10; V_hub := 25;
                          turbulence_class := "C"; std := 3 |} = Some gC /\
    25 <= gC /\ gC <= gB /\ gB <= gA.
Proof. apply (gust_ordered_by_class 10 25 3); [lra|lra|lia]. Defined.

(** The two entries of the Jacobian are the partial derivatives of the gust
    speed with respect to the mean and the hub wind speed. *)
Theorem gust_partials_are_derivatives :
  forall (inputs : Inputs) (out : Outputs),
    compute inputs = Some out ->
    derivable_pt_lim
      (fun v => default 0 (V_gust <$> compute
                  {| V_mean := v; V_hub := V_hub inputs;
                     turbulence_class := turbulence_class inputs;
                     std := std inputs |}))
      (V_mean inputs) (dV_gust_dV_mean out) /\
    derivable_pt_lim
      (fun v => default 0 (V_gust <$> compute
                  {| V_mean := V_mean inputs; V_hub := v;
                     turbulence_class := turbulence_class inputs;
                     std := std inputs |}))
      (V_hub inputs) (dV_gust_dV_hub out).
Proof.
  intros [vm vh cls n] out Hout. unfold compute in Hout.
  cbn [turbulence_class V_mean V_hub std] in *.
  destruct (Iref_of cls) as [Iref|] eqn:HI; [|discriminate].
  cbn in Hout. injection Hout as <-.
  cbn [dV_gust_dV_mean dV_gust_dV_hub].
  assert (H2 : 2.0 = 2) by lra. assert (H1 : 1.0 = 1) by lra.
  rewrite H2, H1.
  split; apply derivable_pt_lim_affine; intros h;
    rewrite !(gust_value _ _ cls n Iref HI); cbn;
    generalize 0.072; intros k; field.
Qed.

Lemma gust_partials_are_derivatives_witness :
  exists out : Outputs,
    compute {| V_mean := 10; V_hub := 25; turbulence_class := "B";
               std := 3 |} = Some out /\
    derivable_pt_lim
      (fun v => default 0 (V_gust <$> compute
                  {| V_mean := v; V_hub := 25; turbulence_class := "B";
                     std := 3 |}))
      10 (dV_gust_dV_mean out).
Proof.
  eexists. split; [reflexivity|].
  eapply (proj1 (gust_partials_are_derivatives
                   {| V_mean := 10; V_hub := 25; turbulence_class := "B";
                      std := 3 |} _ eq_refl)).
Defined.

End GustFacts.

(** *** SetupPCModVarSpeed *)

Section SetupPCFacts.
Import SetupPCModVarSpeed.
Local Open Scope R_scope.

Variable RS2RPM : R.

(** The rotor speed that the component sets realises the requested tip-speed
    ratio: back in rad/s, times the radius, over the wind speed, it gives
    [control_tsr]. *)
Theorem operating_point_keeps_tip_speed_ratio :
  forall inputs : Inputs,
    RS2RPM <> 0 -> R_rotor inputs <> 0 ->
    Vfactor inputs * Vrated inputs <> 0 ->
    let out := compute RS2RPM inputs in
    Uhub out = Vfactor inputs * Vrated inputs /\
    Omega out / RS2RPM * R_rotor inputs / Uhub out = control_tsr inputs.
Proof.
  intros inputs Hk HR HU out. subst out. unfold compute.
  cbn [Uhub Omega]. split; [reflexivity|].
  assert (Hvf : Vfactor inputs <> 0) by (intros E; apply HU; rewrite E; ring).
  assert (Hvr : Vrated inputs <> 0) by (intros E; apply HU; rewrite E; ring).
  field. repeat split; assumption.
Qed.

(** The entries of the Jacobian for the rotor speed are its partial
    derivatives with respect to the tip-speed ratio, the rated wind speed
    and, away from zero, the rotor radius. *)
Theorem operating_point_partials_are_derivatives :
  forall inputs : Inputs,
    R_rotor inputs <> 0 ->
    let out := compute RS2RPM inputs in
    exists d_tsr d_Vrated d_R : R,
      J out !! ("Omega", "control_tsr") = Some d_tsr /\
      J out !! ("Omega", "Vrated") = Some d_Vrated /\
      J out !! ("Omega", "R") = Some d_R /\
      derivable_pt_lim
        (fun v => Omega (compute RS2RPM
                   {| control_tsr := v; control_pitch := control_pitch inputs;
                      Vrated := Vrated inputs; R_rotor := R_rotor inputs;
                      Vfactor := Vfactor inputs |}))
        (control_tsr inputs) d_tsr /\
      derivable_pt_lim
        (fun v => Omega (compute RS2RPM
                   {| control_tsr := control_tsr inputs;
                      control_pitch := control_pitch inputs;
                      Vrated := v; R_rotor := R_rotor inputs;
                      Vfactor := Vfactor inputs |}))
        (Vrated inputs) d_Vrated /\
      derivable_pt_lim
        (fun v => Omega (compute RS2RPM
                   {| control_tsr := control_tsr inputs;
                      control_pitch := control_pitch inputs;
                      Vrated := Vrated inputs; R_rotor := v;
                      Vfactor := Vfactor inputs |}))
        (R_rotor inputs) d_R.
Proof.
  intros [tsr cp Vr Rr Vf] HR out. subst out. cbn [R_rotor] in HR.
  unfold compute.
  cbn [J Omega control_tsr control_pitch Vrated R_rotor Vfactor].
  do 3 eexists.
  split; [reflexivity|]. split; [reflexivity|]. split; [reflexivity|].
  split; [|split].
  - apply derivable_pt_lim_affine. intros h. field. exact HR.
  - apply derivable_pt_lim_affine. intros h. field. exact HR.
  - replace (- tsr * (Vf * Vr) / Rr ^ 2 * RS2RPM)
      with (- (tsr * (Vf * Vr)) / Rr ^ 2 * RS2RPM) by (field; exact HR).
    eapply derivable_pt_lim_ext;
      [|exact (derivable_pt_lim_over (tsr * (Vf * Vr)) RS2RPM Rr HR)].
    intros y. reflexivity.
Qed.

End SetupPCFacts.

Section SetupPCRuns.
Import SetupPCModVarSpeed.
Local Open Scope R_scope.

Lemma operating_point_keeps_tip_speed_ratio_witness :
  Omega (compute 10 sample_inputs) / 10 * 63 / Uhub (compute 10 sample_inputs)
  = 8.
Proof.
  apply (operating_point_keeps_tip_speed_ratio 10 sample_inputs); cbn; lra.
Defined.

Lemma operating_point_partials_are_derivatives_witness :
  exists d_R : R, J (compute 10 sample_inputs) !! ("Omega", "R") = Some d_R.
Proof.
  destruct (operating_point_partials_are_derivatives 10 sample_inputs)
    as (d1 & d2 & d3 & _ & _ & H3 & _).
  - cbn. lra.
  - exists d3. exact H3.
Defined.

End SetupPCRuns.

(** *** ExtremeLoads: the weighted average *)

Section ExtremeLoadsFacts.
Local Open Scope R_scope.

(** With at least one blade the extreme thrust is a weighted average of the
    worst-case and the feathered thrust, so it lies between the two; with a
    single blade it is the worst-case thrust. *)
Theorem extreme_thrust_between_its_two_cases :
  forall (T Q : R * R) (n : Z),
    (1 <= n)%Z ->
    let out := ExtremeLoads.compute
                 {| ExtremeLoads.T := T; ExtremeLoads.Q := Q;
                    ExtremeLoads.nBlades := n |} in
    Rmin (fst T) (snd T) <= ExtremeLoads.T_extreme out <= Rmax (fst T) (snd T)
    /\ (n = 1%Z -> ExtremeLoads.T_extreme out = fst T).
Proof.
  intros [T0 T1] Q n Hn out. subst out. unfold ExtremeLoads.compute.
  cbn [ExtremeLoads.T_extreme ExtremeLoads.T ExtremeLoads.Q
       ExtremeLoads.nBlades fst snd].
  unfold_numeric.
  assert (Hn1 : 1 <= IZR n) by (apply IZR_le in Hn; exact Hn).
  set (q := / IZR n).
  assert (Hq : 0 < q) by (apply Rinv_0_lt_compat; lra).
  assert (Hqn : q * IZR n = 1) by (unfold q; field; lra).
  unfold Rdiv. fold q.
  assert (Hlo : (T0 + T1 * (IZR n - 1)) * q - T0
                = (T1 - T0) * ((IZR n - 1) * q)).
  { transitivity ((T0 + T1 * (IZR n - 1)) * q - T0 * (q * IZR n));
      [rewrite Hqn|]; ring. }
  assert (Hhi : (T0 + T1 * (IZR n - 1)) * q - T1 = (T0 - T1) * q).
  { transitivity ((T0 + T1 * (IZR n - 1)) * q - T1 * (q * IZR n));
      [rewrite Hqn|]; ring. }
  assert (Hw : 0 <= (IZR n - 1) * q) by (apply Rmult_le_pos; lra).
  split.
  - unfold Rmin, Rmax. destruct (Rle_dec T0 T1) as [Hle|Hgt].
    + assert (0 <= (T1 - T0) * ((IZR n - 1) * q))
        by (apply Rmult_le_pos; lra).
      assert ((T0 - T1) * q <= 0)
        by (rewrite <- (Rmult_0_l q); apply Rmult_le_compat_r; lra).
      lra.
    + assert ((T1 - T0) * ((IZR n - 1) * q) <= 0).
      { rewrite <- (Rmult_0_l ((IZR n - 1) * q)).
        apply Rmult_le_compat_r; lra. }
      assert (0 <= (T0 - T1) * q) by (apply Rmult_le_pos; lra).
      lra.
  - intros ->. unfold q. change (IZR 1) with 1. field.
Qed.

Lemma extreme_thrust_between_its_two_cases_witness :
  Rmin 900 300
  <= ExtremeLoads.T_extreme
       (ExtremeLoads.compute
          {| ExtremeLoads.T := (900, 300); ExtremeLoads.Q := (50, 10);
             ExtremeLoads.nBlades := 3 |})
  <= Rmax 900 300.
Proof.
  apply (extreme_thrust_between_its_two_cases (900, 300) (50, 10) 3). lia.
Defined.

End ExtremeLoadsFacts.

(** *** TipDeflection: what the clearance looks at *)

Section TipClearanceFacts.
Import TipDeflection.
Local Open Scope R_scope.

Variables airfoilToBlade bladeToAzimuth azimuthToHub hubToYaw :
  R -> DirectionVector -> DirectionVector.

(** The ground clearance is the hub height plus the yaw-frame height of the
    undeflected tip: two runs that share the tip geometry, the cone, the
    tilt and the hub height give the same clearance, whatever the tip
    displacement, twist, pitch and safety factors are.  The clearance is
    also the z entry of the tip position, whose y entry is 0. *)
Theorem ground_clearance_ignores_the_deflection :
  forall a b : Inputs,
    tilt a = tilt b -> totalConeTip a = totalConeTip b ->
    hubHt a = hubHt b -> Rtip a = Rtip b ->
    precurveTip a = precurveTip b -> presweepTip a = presweepTip b ->
    let run := compute airfoilToBlade bladeToAzimuth azimuthToHub hubToYaw in
    ground_clearance (run a) = ground_clearance (run b) /\
    snd (tip_position (run a)) = ground_clearance (run a) /\
    snd (fst (tip_position (run a))) = 0.
Proof.
  intros a b Ht Hc Hh Hr Hp Hs run. subst run. unfold compute.
  cbn [ground_clearance tip_position fst snd].
  rewrite Ht, Hc, Hh, Hr, Hp, Hs. repeat split; lra.
Qed.

End TipClearanceFacts.

Lemma ground_clearance_ignores_the_deflection_witness :
  TipDeflection.ground_clearance
    (TipDeflection.compute TipDeflection.no_rotation TipDeflection.no_rotation
       TipDeflection.no_rotation TipDeflection.no_rotation
       (TipDeflection.sample_inputs 5))
  = TipDeflection.ground_clearance
      (TipDeflection.compute TipDeflection.no_rotation
         TipDeflection.no_rotation TipDeflection.no_rotation
         TipDeflection.no_rotation (TipDeflection.sample_inputs 0)).
Proof.
  apply (ground_clearance_ignores_the_deflection
           TipDeflection.no_rotation TipDeflection.no_rotation
           TipDeflection.no_rotation TipDeflection.no_rotation
           (TipDeflection.sample_inputs 5) (TipDeflection.sample_inputs 0));
    reflexivity.
Defined.

(** *** ConstraintsStructures: what the margins compare *)

Section MarginFacts.
Import ConstraintsStructures.
Local Open Scope R_scope.

(** The blade-passing margins are the rotor-passing margins times the blade
    count, mode by mode, for both sets of frequencies. *)
Theorem blade_passing_margin_is_blade_count_times_rotor_passing :
  forall inputs : Inputs R,
    let out := compute inputs in
    Pn_margin out = (fun p => IZR (nBlades inputs) * p) <$> P1_margin out /\
    Pn_margin_cfem out
    = (fun p => IZR (nBlades inputs) * p) <$> P1_margin_cfem out.
Proof.
  intros inputs out. subst out. unfold compute, div_into.
  cbn [Pn_margin P1_margin Pn_margin_cfem P1_margin_cfem].
  rewrite <- !list_fmap_compose.
  split; apply list_fmap_ext; intros _ f _; cbn; unfold Rdiv; ring.
Qed.

(** For a positive natural frequency, a frequency margin is below 1 exactly
    when the factored excitation frequency (rotor speed in Hz, times the
    blade count for the blade-passing margin, times [gamma_freq]) is below
    that natural frequency. *)
Theorem frequency_margin_below_one :
  forall (inputs : Inputs R) (i : nat) (f : R),
    freq inputs !! i = Some f -> 0 < f ->
    exists p1 pn : R,
      P1_margin (compute inputs) !! i = Some p1 /\
      Pn_margin (compute inputs) !! i = Some pn /\
      (p1 < 1 <-> Omega inputs / 60 * gamma_freq inputs < f) /\
      (pn < 1 <->
       IZR (nBlades inputs) * (Omega inputs / 60) * gamma_freq inputs < f).
Proof.
  intros inputs i f Hf Hpos. unfold compute, div_into.
  cbn [Pn_margin P1_margin]. rewrite !list_lookup_fmap, Hf. cbn.
  do 2 eexists. split; [reflexivity|]. split; [reflexivity|].
  assert (Hinv : 0 < / f) by (apply Rinv_0_lt_compat, Hpos).
  unfold Rdiv. split; split; intros Hlt.
  - apply (Rmult_lt_compat_r f) in Hlt; [|exact Hpos].
    rewrite Rmult_assoc, Rinv_l in Hlt by lra. lra.
  - apply (Rmult_lt_reg_r f); [exact Hpos|].
    rewrite Rmult_assoc, Rinv_l by lra. lra.
  - apply (Rmult_lt_compat_r f) in Hlt; [|exact Hpos].
    rewrite Rmult_assoc, Rinv_l in Hlt by lra. lra.
  - apply (Rmult_lt_reg_r f); [exact Hpos|].
    rewrite Rmult_assoc, Rinv_l by lra. lra.
Qed.

Lemma frequency_margin_below_one_witness :
  exists p1 pn : R,
    P1_margin (compute {| nBlades := 3; freq := [1]; freq_curvefem := [1];
                          Omega := 12; strainU_spar := []; strainL_spar := [];
                          strainU_te := []; strainL_te := [];
                          strain_ult_spar := 1; strain_ult_te := 1;
                          eps_crit_spar := []; eps_crit_te := [];
                          damageU_spar := []; damageL_spar := [];
                          damageU_te := []; damageL_te := [];
                          gamma_f := 1; gamma_m := 1; gamma_freq := 1.1 |})
      !! 0%nat = Some p1 /\
    Pn_margin (compute {| nBlades := 3; freq := [1]; freq_curvefem := [1];
                          Omega := 12; strainU_spar := []; strainL_spar := [];
                          strainU_te := []; strainL_te := [];
                          strain_ult_spar := 1; strain_ult_te := 1;
                          eps_crit_spar := []; eps_crit_te := [];
                          damageU_spar := []; damageL_spar := [];
                          damageU_te := []; damageL_te := [];
                          gamma_f := 1; gamma_m := 1; gamma_freq := 1.1 |})
      !! 0%nat = Some pn.
Proof.
  destruct (frequency_margin_below_one
              {| nBlades := 3; freq := [1]; freq_curvefem := [1];
                 Omega := 12; strainU_spar := []; strainL_spar := [];
                 strainU_te := []; strainL_te := [];
                 strain_ult_spar := 1; strain_ult_te := 1;
                 eps_crit_spar := []; eps_crit_te := [];
                 damageU_spar := []; damageL_spar := [];
                 damageU_te := []; damageL_te := [];
                 gamma_f := 1; gamma_m := 1; gamma_freq := 1.1 |} 0 1)
    as (p1 & pn & H1 & Hn & _).
  - reflexivity.
  - lra.
  - exists p1, pn. split; assumption.
Defined.

(** The strain margin is signed.  For a positive ultimate strain and
    positive safety factors it is below 1 exactly when the factored strain
    is below the ultimate strain, so a compressive (negative) strain gives a
    negative margin whatever its size. *)
Theorem strain_margin_is_signed :
  forall (loc : Location) (inputs : Inputs R) (i : nat) (e : R),
    strain_in loc inputs !! i = Some e ->
    0 < strain_ult_in loc inputs -> 0 < gamma_f inputs -> 0 < gamma_m inputs ->
    exists m : R,
      rotor_strain loc (compute inputs) !! i = Some m /\
      (m < 1 <-> e * gamma_f inputs * gamma_m inputs < strain_ult_in loc inputs)
      /\ (e < 0 -> m < 0).
Proof.
  intros loc inputs i e He Hult Hgf Hgm.
  rewrite rotor_strain_real, list_lookup_fmap, He. cbn.
  eexists. split; [reflexivity|].
  set (u := strain_ult_in loc inputs) in *.
  set (x := e * gamma_f inputs * gamma_m inputs).
  assert (Hinv : 0 < / u) by (apply Rinv_0_lt_compat, Hult).
  unfold Rdiv. split; [split; intros Hlt|intros Hneg].
  - apply (Rmult_lt_compat_r u) in Hlt; [|exact Hult].
    rewrite Rmult_assoc, Rinv_l in Hlt by lra. lra.
  - apply (Rmult_lt_reg_r u); [exact Hult|].
    rewrite Rmult_assoc, Rinv_l by lra. lra.
  - assert (Hx : x < 0).
    { unfold x. assert (0 < gamma_f inputs * gamma_m inputs)
        by (apply Rmult_lt_0_compat; assumption).
      rewrite Rmult_assoc.
      replace 0 with (0 * (gamma_f inputs * gamma_m inputs)) by ring.
      apply Rmult_lt_compat_r; assumption. }
    replace 0 with (0 * / u) by ring. apply Rmult_lt_compat_r; assumption.
Qed.

Lemma strain_margin_is_signed_witness :
  exists m : R,
    rotor_strain SparL (compute (sample_inputs (-0.02) 1.35 1.1 0.01 0.25))
      !! 0%nat = Some m.
Proof.
  destruct (strain_margin_is_signed SparL
              (sample_inputs (-0.02) 1.35 1.1 0.01 0.25) 0 (-0.02))
    as (m & Hm & _).
  - reflexivity.
  - cbn. lra.
  - cbn. lra.
  - cbn. lra.
  - exists m. exact Hm.
Defined.

Lemma rotor_buckling_station (loc : Location) (inputs : Inputs R) (i : nat)
    (e c : R) :
  strain_in loc inputs !! i = Some e ->
  eps_crit_in loc inputs !! i = Some c ->
  rotor_buckling loc (compute inputs) !! i = Some (e * gamma_f inputs / c).
Proof.
  intros He Hc. unfold compute, scale_div_arr.
  destruct loc; cbn in He, Hc |- *;
    rewrite lookup_zip_with, He, Hc; reflexivity.
Qed.

(** The buckling margin compares the factored strain with the (negative)
    critical strain: for a negative critical strain and a positive load
    factor it is below 1 exactly when the factored strain stays above the
    critical strain, and it is positive exactly for a compressive strain. *)
Theorem buckling_margin_compares_with_critical_strain :
  forall (loc : Location) (inputs : Inputs R) (i : nat) (e c : R),
    strain_in loc inputs !! i = Some e ->
    eps_crit_in loc inputs !! i = Some c ->
    c < 0 -> 0 < gamma_f inputs ->
    exists m : R,
      rotor_buckling loc (compute inputs) !! i = Some m /\
      (m < 1 <-> c < e * gamma_f inputs) /\
      (0 < m <-> e < 0).
Proof.
  intros loc inputs i e c He Hc Hneg Hgf.
  rewrite (rotor_buckling_station loc inputs i e c He Hc).
  eexists. split; [reflexivity|].
  set (g := gamma_f inputs) in *.
  assert (Hinv : / c < 0) by (apply Rinv_lt_0_compat, Hneg).
  assert (Hcc : c * / c = 1) by (apply Rinv_r; lra).
  unfold Rdiv.
  assert (Hid : forall y : R, y = y * / c * c)
    by (intros y; rewrite Rmult_assoc, (Rmult_comm (/ c)), Hcc; ring).
  split; split; intros Hlt.
  - rewrite (Hid (e * g)). nra.
  - assert (Hx : e * g = e * g * / c * c) by apply Hid. nra.
  - assert (Hx : e * g = e * g * / c * c) by apply Hid. nra.
  - assert (e * g < 0) by nra. nra.
Qed.

Lemma buckling_margin_compares_with_critical_strain_witness :
  exists m : R,
    rotor_buckling TeU
      (compute {| nBlades := 3; freq := []; freq_curvefem := [];
                  Omega := 12; strainU_spar := [-0.001];
                  strainL_spar := [0.001];
                  strainU_te := [-0.002]; strainL_te := [0.002];
                  strain_ult_spar := 0.01; strain_ult_te := 0.01;
                  eps_crit_spar := [-0.005]; eps_crit_te := [-0.004];
                  damageU_spar := []; damageL_spar := [];
                  damageU_te := []; damageL_te := [];
                  gamma_f := 1.35; gamma_m := 1.1; gamma_freq := 1.1 |})
      !! 0%nat = Some m.
Proof.
  destruct (buckling_margin_compares_with_critical_strain TeU
              {| nBlades := 3; freq := []; freq_curvefem := [];
                 Omega := 12; strainU_spar := [-0.001];
                 strainL_spar := [0.001];
                 strainU_te := [-0.002]; strainL_te := [0.002];
                 strain_ult_spar := 0.01; strain_ult_te := 0.01;
                 eps_crit_spar := [-0.005]; eps_crit_te := [-0.004];
                 damageU_spar := []; damageL_spar := [];
                 damageU_te := []; damageL_te := [];
                 gamma_f := 1.35; gamma_m := 1.1; gamma_freq := 1.1 |}
              0 (-0.002) (-0.004))
    as (m & Hm & _).
  - reflexivity.
  - reflexivity.
  - lra.
  - cbn. lra.
  - exists m. exact Hm.
Defined.

End MarginFacts.

(** *** OutputsStructures: the sum over the blades *)

Section HubLoadFacts.
Import OutputsStructures.
Local Open Scope R_scope.
Variable azimuthToHub : R -> R * R * R -> R * R * R.



Lemma blade_loop_agrees (F M F' M' : list (R * R * R)) (angles : list R)
    (rows : list nat) (acc : option ((R * R * R) * (R * R * R))) :
  Forall (fun row => F !! row = F' !! row /\ M !! row = M' !! row) rows ->
  foldl (blade_step azimuthToHub F M angles) acc rows
  = foldl (blade_step azimuthToHub F' M' angles) acc rows.
Proof.
  intros Hrows. revert acc.
  induction Hrows as [|row rows [HF HM] _ IH]; intros acc; [reflexivity|].
  cbn [foldl]. rewrite IH. f_equal.
  unfold blade_step. rewrite HF, HM. reflexivity.
Qed.



(** The totals are sums over the first [nBlades] slots only: two runs with
    the same blade count whose loads agree on those slots return the same
    [Fxyz_total] and [Mxyz_total], whatever the remaining slots hold; with
    no blade both totals are zero. *)
Theorem hub_totals_ignore_unused_slots :
  forall inputs inputs' : Inputs,
    nBlades inputs = nBlades inputs' ->
    (forall row : nat, (row < nBlades inputs)%nat ->
       F_hub inputs !! row = F_hub inputs' !! row /\
       M_hub inputs !! row = M_hub inputs' !! row) ->
    Fxyz_total <$> compute azimuthToHub inputs
    = Fxyz_total <$> compute azimuthToHub inputs' /\
    Mxyz_total <$> compute azimuthToHub inputs
    = Mxyz_total <$> compute azimuthToHub inputs' /\
    (nBlades inputs = 0%nat ->
     Fxyz_total <$> compute azimuthToHub inputs = Some (0, 0, 0) /\
     Mxyz_total <$> compute azimuthToHub inputs = Some (0, 0, 0)).
Proof.
  intros inputs inputs' Hn Hrows. unfold compute, sum_over_blades.
  rewrite <- Hn.
  rewrite (blade_loop_agrees (F_hub inputs) (M_hub inputs)
             (F_hub inputs') (M_hub inputs')).
  2: { apply Forall_forall. intros row Hrow. apply Hrows.
       rewrite elem_of_seq in Hrow. lia. }
  split; [|split].
  - destruct (foldl _ _ _) as [[Ft Mt]|]; reflexivity.
  - destruct (foldl _ _ _) as [[Ft Mt]|]; reflexivity.
  - intros H0. rewrite H0. cbn. split; reflexivity.
Qed.

End HubLoadFacts.

Lemma hub_totals_ignore_unused_slots_witness :
  OutputsStructures.Fxyz_total
    <$> OutputsStructures.compute (fun _ v => v)
          {| OutputsStructures.Fxyz_1_in := (1, 0, 0)%R;
             OutputsStructures.Fxyz_2_in := (0, 1, 0)%R;
             OutputsStructures.Fxyz_3_in := (0, 0, 1)%R;
             OutputsStructures.Fxyz_4_in := (5, 5, 5)%R;
             OutputsStructures.Fxyz_5_in := (0, 0, 0)%R;
             OutputsStructures.Fxyz_6_in := (0, 0, 0)%R;
             OutputsStructures.Mxyz_1_in := (0, 0, 0)%R;
             OutputsStructures.Mxyz_2_in := (0, 0, 0)%R;
             OutputsStructures.Mxyz_3_in := (0, 0, 0)%R;
             OutputsStructures.Mxyz_4_in := (7, 7, 7)%R;
             OutputsStructures.Mxyz_5_in := (0, 0, 0)%R;
             OutputsStructures.Mxyz_6_in := (0, 0, 0)%R;
             OutputsStructures.nBlades := 3 |}
  = OutputsStructures.Fxyz_total
    <$> OutputsStructures.compute (fun _ v => v)
          {| OutputsStructures.Fxyz_1_in := (1, 0, 0)%R;
             OutputsStructures.Fxyz_2_in := (0, 1, 0)%R;
             OutputsStructures.Fxyz_3_in := (0, 0, 1)%R;
             OutputsStructures.Fxyz_4_in := (0, 0, 0)%R;
             OutputsStructures.Fxyz_5_in := (0, 0, 0)%R;
             OutputsStructures.Fxyz_6_in := (0, 0, 0)%R;
             OutputsStructures.Mxyz_1_in := (0, 0, 0)%R;
             OutputsStructures.Mxyz_2_in := (0, 0, 0)%R;
             OutputsStructures.Mxyz_3_in := (0, 0, 0)%R;
             OutputsStructures.Mxyz_4_in := (0, 0, 0)%R;
             OutputsStructures.Mxyz_5_in := (0, 0, 0)%R;
             OutputsStructures.Mxyz_6_in := (0, 0, 0)%R;
             OutputsStructures.nBlades := 3 |}.
Proof.
  apply hub_totals_ignore_unused_slots.
  - reflexivity.
  - intros row Hrow. cbn in Hrow.
    destruct row as [|[|[|row]]]; [split; reflexivity..|lia].
Defined.

(** *** BladeDeflection: the change of blade length *)

Section NpFacts.
Local Open Scope R_scope.

Lemma sum_from (a : list R) (acc : R) :
  foldl Rplus acc a = acc + Np.sum a.
Proof.
  unfold Np.sum. revert acc.
  induction a as [|x a IH]; intros acc; cbn [foldl]; [ring|].
  rewrite (IH (acc + x)), (IH (0 + x)). ring.
Qed.

Lemma sum_cons (x : R) (a : list R) : Np.sum (x :: a) = x + Np.sum a.
Proof. unfold Np.sum at 1. cbn [foldl]. rewrite sum_from. ring. Qed.

Lemma sum_le (a b : list R) : Forall2 Rle a b -> Np.sum a <= Np.sum b.
Proof.
  induction 1 as [|x y a b Hxy _ IH]; [lra|]. rewrite !sum_cons. lra.
Qed.

Lemma sum_nonneg (a : list R) : Forall (Rle 0) a -> 0 <= Np.sum a.
Proof.
  induction 1 as [|x a Hx _ IH]; [unfold Np.sum; cbn; lra|].
  rewrite sum_cons. lra.
Qed.

Lemma diff_length (a : list R) : length (Np.diff a) = pred (length a).
Proof.
  unfold Np.diff. rewrite length_zip_with, length_drop. lia.
Qed.

Lemma diff_lookup (a : list R) (i : nat) (d : R) :
  Np.diff a !! i = Some d <->
  exists x y : R, a !! i = Some x /\ a !! S i = Some y /\ d = y - x.
Proof.
  unfold Np.diff. rewrite lookup_zip_with_Some, !lookup_drop. cbn.
  split.
  - intros (y & x & -> & Hy & Hx). exists x, y. auto.
  - intros (x & y & Hx & Hy & ->). exists y, x. auto.
Qed.

Lemma add_uniform (a : list R) (c : R) :
  Np.add a (replicate (length a) c) = (fun x => x + c) <$> a.
Proof.
  unfold Np.add. induction a as [|x a IH]; [reflexivity|].
  cbn. rewrite IH. reflexivity.
Qed.

Lemma diff_shift (a : list R) (c : R) :
  Np.diff ((fun x => x + c) <$> a) = Np.diff a.
Proof.
  unfold Np.diff. rewrite <- fmap_drop, zip_with_fmap_l, zip_with_fmap_r.
  apply zip_with_ext; [|reflexivity..]. intros x y. ring.
Qed.

End NpFacts.

Section BladeLengthFacts.
Import BladeDeflection.
Local Open Scope R_scope.
Variable airfoilToBlade :
  list R -> list R * list R * list R -> list R * list R * list R.
Variable interp_with_deriv : list R -> list R -> list R -> list R.

Lemma length_of_ge_Rhub (Rhub0 : R) (precurve0 r_pts0 : list R) :
  Rhub0 <= length_of Rhub0 precurve0 r_pts0.
Proof.
  unfold length_of.
  assert (0 <= Np.sum (sqrt <$> Np.add (Np.square (Np.diff precurve0))
                                      (Np.square (Np.diff r_pts0)))); [|lra].
  apply sum_nonneg, Forall_fmap, Forall_forall. intros x _. apply sqrt_pos.
Qed.

Lemma delta_bladeLength_eq (inputs : Inputs) :
  delta_bladeLength (compute airfoilToBlade interp_with_deriv inputs)
  = bladeLength inputs
    * (length_of (Rhub inputs) (precurve inputs) (r_pts inputs)
       / length_of (Rhub inputs) (Np.add (precurve inputs) (delta_x airfoilToBlade inputs))
           (r_pts inputs) - 1).
Proof. reflexivity. Qed.

(** A deflection whose flapwise component [delta.x] is the same at every
    station (in particular no deflection at all) moves the blade without
    bending it: for arrays with one entry per station and a positive
    undeflected length, the blade length does not change. *)
Theorem uniform_deflection_keeps_the_blade_length :
  forall (inputs : Inputs) (c : R),
    length (r_pts inputs) = length (precurve inputs) ->
    delta_x airfoilToBlade inputs = replicate (length (precurve inputs)) c ->
    0 < length_of (Rhub inputs) (precurve inputs) (r_pts inputs) ->
    delta_bladeLength (compute airfoilToBlade interp_with_deriv inputs) = 0.
Proof.
  intros inputs c _ Hshift Hlen. rewrite delta_bladeLength_eq, Hshift.
  rewrite add_uniform. unfold length_of at 2. rewrite diff_shift.
  fold (length_of (Rhub inputs) (precurve inputs) (r_pts inputs)).
  unfold Rdiv. rewrite Rinv_r by lra. ring.
Qed.

(** A blade without precurve never gets longer: when the precurve is the
    same at every station, the arrays have one entry per station, the blade
    length is non-negative and the undeflected length is positive, the
    returned change of blade length is at most 0, whatever the
    deflection. *)
Theorem straight_blade_never_lengthens :
  forall (inputs : Inputs) (p0 : R),
    length (r_pts inputs) = length (precurve inputs) ->
    precurve inputs = replicate (length (delta_x airfoilToBlade inputs)) p0 ->
    0 <= bladeLength inputs ->
    0 < length_of (Rhub inputs) (precurve inputs) (r_pts inputs) ->
    delta_bladeLength (compute airfoilToBlade interp_with_deriv inputs) <= 0.
Proof.
  intros inputs p0 _ Hstraight Hblade Hlen. rewrite delta_bladeLength_eq.
  set (l0 := length_of _ (precurve inputs) _) in *.
  set (l1 := length_of _ (Np.add _ _) _).
  assert (Hle : l0 <= l1).
  { subst l0 l1. unfold length_of. apply Rplus_le_compat_l, sum_le.
    apply Forall2_fmap, Forall2_same_length_lookup_2.
    - unfold Np.add, Np.square.
      rewrite !length_zip_with, !length_fmap, !diff_length, length_zip_with.
      rewrite Hstraight, length_replicate. lia.
    - intros i u v Hu Hv. unfold Np.add at 1 in Hu. unfold Np.add at 1 in Hv.
      apply lookup_zip_with_Some in Hu as (a & b & -> & Ha & Hb).
      apply lookup_zip_with_Some in Hv as (a' & b' & -> & Ha' & Hb').
      rewrite Hb in Hb'. injection Hb' as <-.
      unfold Np.square in Ha, Ha', Hb.
      rewrite list_lookup_fmap in Ha, Ha', Hb.
      destruct (Np.diff (precurve inputs) !! i) as [d|] eqn:Hd;
        [|discriminate]. injection Ha as <-.
      destruct (Np.diff (Np.add (precurve inputs) (delta_x airfoilToBlade inputs)) !! i)
        as [d'|]; [|discriminate]. injection Ha' as <-.
      destruct (Np.diff (r_pts inputs) !! i) as [e|]; [|discriminate].
      injection Hb as <-.
      apply diff_lookup in Hd as (x & y & Hx & Hy & ->).
      rewrite Hstraight in Hx, Hy.
      apply lookup_replicate in Hx as [-> _].
      apply lookup_replicate in Hy as [-> _].
      apply sqrt_le_1_alt. nra. }
  assert (Hs : l0 / l1 <= 1).
  { apply (Rmult_le_reg_r l1); [lra|].
    unfold Rdiv. rewrite Rmult_assoc, Rinv_l by lra. lra. }
  nra.
Qed.

End BladeLengthFacts.

Section BladeLengthRuns.
Import BladeDeflection.
Local Open Scope R_scope.

Lemma uniform_deflection_keeps_the_blade_length_witness :
  delta_bladeLength
    (compute (fun _ dr => dr) (fun _ _ y => y)
       {| dx := [0.5; 0.5; 0.5]; dy := [0; 0; 0]; dz := [0; 0; 0];
          pitch := 0; theta := [0; 0; 0]; r_in := [1.5; 31.5; 61.5];
          Rhub := 1.5; r_pts := [1.5; 31.5; 61.5];
          precurve := [0; 1; 3]; bladeLength := 60 |}) = 0.
Proof.
  apply (uniform_deflection_keeps_the_blade_length _ _ _ 0.5).
  - reflexivity.
  - reflexivity.
  - eapply Rlt_le_trans; [|apply length_of_ge_Rhub]. cbn. lra.
Defined.

Lemma straight_blade_never_lengthens_witness :
  delta_bladeLength
    (compute (fun _ dr => dr) (fun _ _ y => y)
       {| dx := [0; 1; 4]; dy := [0; 0; 0]; dz := [0; 0; 0];
          pitch := 0; theta := [0; 0; 0]; r_in := [1.5; 31.5; 61.5];
          Rhub := 1.5; r_pts := [1.5; 31.5; 61.5];
          precurve := [0; 0; 0]; bladeLength := 60 |}) <= 0.
Proof.
  apply (straight_blade_never_lengthens _ _ _ 0).
  - reflexivity.
  - reflexivity.
  - cbn. lra.
  - eapply Rlt_le_trans; [|apply length_of_ge_Rhub]. cbn. lra.
Defined.

End BladeLengthRuns.

(** *** RootMoment: integrated root loads *)

Section TrapzFacts.
Local Open Scope R_scope.

Lemma diff_cons (x y : R) (a : list R) :
  Np.diff (x :: y :: a) = (y - x) :: Np.diff (y :: a).
Proof. reflexivity. Qed.

(** The steps of an array sum to its last entry minus its first. *)
Lemma sum_diff_telescopes (x : R) (a : list R) (z : R) :
  last (x :: a) = Some z -> Np.sum (Np.diff (x :: a)) = z - x.
Proof.
  revert x. induction a as [|y a IH]; intros x Hlast.
  - injection Hlast as <-. unfold Np.diff, Np.sum. cbn. ring.
  - rewrite diff_cons, sum_cons. rewrite (IH y) by exact Hlast. ring.
Qed.

Lemma sum_scaled (k : R) (a : list R) :
  Np.sum ((fun d => d * k) <$> a) = k * Np.sum a.
Proof.
  induction a as [|x a IH]; [unfold Np.sum; cbn; ring|].
  rewrite fmap_cons, !sum_cons, IH. ring.
Qed.

(** The trapezoidal rule on a constant integrand. *)
Lemma trapz_uniform (p : R) (x : list R) (x0 x1 : R) :
  x !! 0%nat = Some x0 -> last x = Some x1 ->
  Np.trapz (replicate (length x) p) x = p * (x1 - x0).
Proof.
  intros H0 H1. destruct x as [|x0' x]; [discriminate|].
  injection H0 as ->. unfold Np.trapz.
  assert (Hpairs : zip_with (fun d v : R => d * v / 2.0)
                     (Np.diff (x0 :: x))
                     (zip_with Rplus (drop 1 (replicate (length (x0 :: x)) p))
                        (replicate (length (x0 :: x)) p))
                   = (fun d => d * p) <$> Np.diff (x0 :: x)).
  { apply list_eq. intros i.
    rewrite lookup_zip_with, list_lookup_fmap, lookup_zip_with, lookup_drop.
    destruct (Np.diff (x0 :: x) !! i) as [d|] eqn:Hd; [|reflexivity].
    apply lookup_lt_Some in Hd as Hi. rewrite diff_length in Hi.
    cbn [length pred] in Hi.
    rewrite (lookup_replicate_2 _ _ (1 + i)) by (cbn [length]; lia).
    rewrite (lookup_replicate_2 _ _ i) by (cbn [length]; lia).
    cbn. f_equal. lra. }
  rewrite Hpairs, sum_scaled, (sum_diff_telescopes x0 x x1 H1). reflexivity.
Qed.

End TrapzFacts.

Section RootMomentFacts.
Import RootMoment.
Local Open Scope R_scope.
Variable interp_with_deriv : list R -> list R -> list R -> list R.
Variable bladeToAzimuth :
  list R -> list R * list R * list R -> list R * list R * list R.
Variable cross :
  list R * list R * list R -> list R * list R * list R
  -> list R * list R * list R.

(** A load that is uniform over the stations integrates to the load times
    the span of the path coordinate: when the interpolated [Px], [Py] and
    [Pz] are the constants [px], [py], [pz] at every station of [s], the
    root force is [(px, py, pz) * (s[-1] - s[0])]. *)
Theorem uniform_load_gives_load_times_span :
  forall (inputs : Inputs) (px py pz s0 s1 : R),
    let n := length (s inputs) in
    interp_with_deriv (r_pts inputs) (aeroloads_r inputs) (aeroloads_Px inputs)
    = replicate n px ->
    interp_with_deriv (r_pts inputs) (aeroloads_r inputs) (aeroloads_Py inputs)
    = replicate n py ->
    interp_with_deriv (r_pts inputs) (aeroloads_r inputs) (aeroloads_Pz inputs)
    = replicate n pz ->
    s inputs !! 0%nat = Some s0 -> last (s inputs) = Some s1 ->
    Fxyz (compute interp_with_deriv bladeToAzimuth cross inputs)
    = (px * (s1 - s0), py * (s1 - s0), pz * (s1 - s0)).
Proof.
  intros inputs px py pz s0 s1 n Hx Hy Hz H0 H1.
  unfold compute. cbn [Fxyz]. rewrite Hx, Hy, Hz. subst n.
  rewrite !(trapz_uniform _ (s inputs) s0 s1) by assumption. reflexivity.
Qed.

(** [root_bending_moment] is the Euclidean norm of the returned [Mxyz]: it
    is non-negative, bounds the magnitude of each component, and is zero
    exactly when the three components are zero. *)
Theorem root_bending_moment_is_norm_of_Mxyz :
  forall inputs : Inputs,
    let out := compute interp_with_deriv bladeToAzimuth cross inputs in
    let '(Mx, My, Mz) := Mxyz out in
    (root_bending_moment out) ^ 2 = Mx ^ 2 + My ^ 2 + Mz ^ 2 /\
    Rabs Mx <= root_bending_moment out /\
    Rabs My <= root_bending_moment out /\
    Rabs Mz <= root_bending_moment out /\
    (root_bending_moment out = 0 <-> Mxyz out = (0, 0, 0)).
Proof.
  intros inputs out. subst out. unfold compute. cbn [Mxyz root_bending_moment].
  set (Mx := Np.trapz _ _). set (My := Np.trapz _ _). set (Mz := Np.trapz _ _).
  clearbody Mx My Mz.
  assert (Hsq : 0 <= Mx ^ 2 + My ^ 2 + Mz ^ 2) by nra.
  assert (Hnorm : sqrt (Mx ^ 2 + My ^ 2 + Mz ^ 2) ^ 2
                  = Mx ^ 2 + My ^ 2 + Mz ^ 2).
  { replace (sqrt (Mx ^ 2 + My ^ 2 + Mz ^ 2) ^ 2)
      with (sqrt (Mx ^ 2 + My ^ 2 + Mz ^ 2) * sqrt (Mx ^ 2 + My ^ 2 + Mz ^ 2))
      by ring.
    apply sqrt_sqrt, Hsq. }
  assert (Hpos : 0 <= sqrt (Mx ^ 2 + My ^ 2 + Mz ^ 2)) by apply sqrt_pos.
  assert (Hbound : forall v : R,
             v ^ 2 <= Mx ^ 2 + My ^ 2 + Mz ^ 2 ->
             Rabs v <= sqrt (Mx ^ 2 + My ^ 2 + Mz ^ 2)).
  { intros v Hv. rewrite <- sqrt_Rsqr_abs. apply sqrt_le_1_alt.
    unfold Rsqr. nra. }
  split; [exact Hnorm|]. split; [apply Hbound; nra|].
  split; [apply Hbound; nra|]. split; [apply Hbound; nra|].
  split.
  - intros Hz. rewrite Hz in Hnorm.
    assert (Mx = 0) by nra. assert (My = 0) by nra. assert (Mz = 0) by nra.
    congruence.
  - intros Heq. injection Heq as -> -> ->.
    replace (0 ^ 2 + 0 ^ 2 + 0 ^ 2) with 0 by ring. apply sqrt_0.
Qed.

End RootMomentFacts.

Section RootMomentRuns.
Import RootMoment.
Local Open Scope R_scope.

Lemma uniform_load_gives_load_times_span_witness :
  Fxyz (compute (fun _ _ y => y) (fun _ P => P) (fun _ P => P)
          {| aeroloads_r := [0; 30; 60];
             aeroloads_Px := [100; 100; 100];
             aeroloads_Py := [-20; -20; -20];
             aeroloads_Pz := [0; 0; 0];
             r_pts := [0; 30; 60]; totalCone := [0; 0; 0];
             x_az := [0; 0; 0]; y_az := [0; 0; 0]; z_az := [0; 30; 60];
             s := [0; 30; 60] |})
  = (100 * (60 - 0), -20 * (60 - 0), 0 * (60 - 0)).
Proof.
  apply uniform_load_gives_load_times_span; reflexivity.
Defined.

End RootMomentRuns.

(** *** DamageLoads: the normalized span *)

Section DamageLoadsFacts.
Import DamageLoads.
Local Open Scope R_scope.
Variable Akima : list R -> list R -> list R -> list R.
Variable bladeToAirfoil :
  list R -> list R * list R * list R -> list R * list R * list R.

Lemma increasing_lt (r : list R) (i j : nat) (a b : R) :
  BladeCurvature.increasing r -> (i < j)%nat ->
  r !! i = Some a -> r !! j = Some b -> a < b.
Proof.
  intros Hinc Hij Ha. revert b. induction Hij as [|j Hij IH]; intros b Hb.
  - exact (Hinc i a b Ha Hb).
  - destruct (lookup_lt_is_Some_2 r j) as [c Hc];
      [apply lookup_lt_Some in Hb; lia|].
    specialize (IH c Hc). pose proof (Hinc j c b Hc Hb). lra.
Qed.

(** [DamageLoads.compute] subscripts [r[0]] and [r[-1]] before anything
    else: it raises on an empty radius array; on any other array the two
    subscripts succeed and the call returns what the spline and the
    rotation give. *)
Theorem damage_loads_return_iff_some_station :
  forall inputs : Inputs,
    is_Some (compute Akima bladeToAirfoil inputs) <-> r inputs <> [].
Proof.
  intros inputs. unfold compute, normalized_span.
  destruct (r inputs) as [|r0 rs] eqn:Hr; cbn.
  - split; [intros [? ?]; discriminate | congruence].
  - destruct (last (r0 :: rs)) as [r_last|] eqn:Hlast; cbn.
    + split; [discriminate | intros _; eexists; reflexivity].
    + apply last_None in Hlast. discriminate.
Qed.

(** For strictly increasing radii at two or more stations the moments are
    interpolated at a normalized span that has one entry per station, starts
    at 0, ends at 1, is strictly increasing and stays inside [[0, 1]]. *)
Theorem damage_loads_interpolate_on_unit_span :
  forall inputs : Inputs,
    BladeCurvature.increasing (r inputs) -> (2 <= length (r inputs))%nat ->
    exists span : list R,
      normalized_span (r inputs) = Some span /\
      length span = length (r inputs) /\
      span !! 0%nat = Some 0 /\ last span = Some 1 /\
      BladeCurvature.increasing span /\
      Forall (fun v => 0 <= v <= 1) span /\
      compute Akima bladeToAirfoil inputs
      = Some {| Mxa := fst (fst (bladeToAirfoil (theta inputs)
                  (Akima (rstar inputs) (Mxb inputs) span,
                   Akima (rstar inputs) (Myb inputs) span,
                   (fun _ => 0.0)
                     <$> Akima (rstar inputs) (Mxb inputs) span)));
                Mya := snd (fst (bladeToAirfoil (theta inputs)
                  (Akima (rstar inputs) (Mxb inputs) span,
                   Akima (rstar inputs) (Myb inputs) span,
                   (fun _ => 0.0)
                     <$> Akima (rstar inputs) (Mxb inputs) span))) |}.
Proof.
  intros inputs Hinc Hlen. unfold compute, normalized_span.
  destruct (r inputs !! 0%nat) as [r0|] eqn:H0.
  2: { apply lookup_ge_None in H0. lia. }
  destruct (last (r inputs)) as [r1|] eqn:H1.
  2: { apply last_None in H1. rewrite H1 in Hlen. cbn in Hlen. lia. }
  cbn. rewrite last_lookup in H1.
  assert (Hspan : r0 < r1).
  { apply (increasing_lt (r inputs) 0 (pred (length (r inputs)))); auto. lia. }
  assert (Hdiv : forall a b : R, a < b ->
            (a - r0) / (r1 - r0) < (b - r0) / (r1 - r0)).
  { intros a b Hab. unfold Rdiv. apply Rmult_lt_compat_r; [|lra].
    apply Rinv_0_lt_compat. lra. }
  eexists. split; [reflexivity|].
  split; [apply length_fmap|].
  split; [rewrite list_lookup_fmap, H0; cbn; f_equal; unfold Rdiv; ring|].
  split.
  { rewrite last_lookup, length_fmap, list_lookup_fmap, H1. cbn. f_equal.
    unfold Rdiv. apply Rinv_r. lra. }
  split.
  { intros i a b Ha Hb. rewrite list_lookup_fmap in Ha, Hb.
    destruct (r inputs !! i) as [x|] eqn:Hx; [|discriminate].
    destruct (r inputs !! S i) as [y|] eqn:Hy; [|discriminate].
    injection Ha as <-. injection Hb as <-.
    apply Hdiv, (Hinc i x y Hx Hy). }
  split; [|reflexivity].
  apply Forall_fmap, Forall_lookup. intros i x Hx. cbn.
  assert (H00 : (r0 - r0) / (r1 - r0) = 0) by (unfold Rdiv; ring).
  assert (H11 : (r1 - r0) / (r1 - r0) = 1) by (unfold Rdiv; apply Rinv_r; lra).
  assert (Hi : (i < length (r inputs))%nat) by (eapply lookup_lt_Some, Hx).
  split.
  - destruct i as [|i].
    + rewrite H0 in Hx. injection Hx as <-. lra.
    + rewrite <- H00. left.
      apply Hdiv, (increasing_lt (r inputs) 0 (S i)); auto. lia.
  - destruct (decide (i = pred (length (r inputs)))) as [->|Hne].
    + rewrite H1 in Hx. injection Hx as <-. lra.
    + rewrite <- H11. left.
      apply Hdiv, (increasing_lt (r inputs) i (pred (length (r inputs))));
        auto. lia.
Qed.

End DamageLoadsFacts.

Section DamageLoadsRuns.
Import DamageLoads.
Local Open Scope R_scope.

Lemma damage_loads_interpolate_on_unit_span_witness :
  exists span : list R,
    normalized_span [1.5; 31.5; 61.5] = Some span /\
    span !! 0%nat = Some 0 /\ last span = Some 1.
Proof.
  destruct (damage_loads_interpolate_on_unit_span
              (fun _ y _ => y) (fun _ M => M)
              {| rstar := [0; 0.5; 1]; Mxb := [3; 2; 1]; Myb := [6; 4; 2];
                 theta := [10; 5; 0]; r := [1.5; 31.5; 61.5] |})
    as (span & Hspan & _ & H0 & H1 & _).
  - intros [|[|[|i]]] a b Ha Hb; cbn in Ha, Hb; try discriminate;
      injection Ha as <-; injection Hb as <-; lra.
  - cbn. lia.
  - exists span. auto.
Defined.

End DamageLoadsRuns.

(** *** CurveFEM: normalized mode shapes *)

Section CurveFEMFacts.
Import CurveFEM.
Local Open Scope R_scope.
Variable NFREQ : nat.
Variable frequencies : Inputs -> option (list R * list (list R)).
Variable curve_fit :
  (R -> R -> R -> R -> R -> R -> R) -> list R -> list R -> option (list R).

(** The polynomial of a normalized row: 0 at the root, 1 at the tip. *)
Lemma coef_norm_row (coef row : list R) :
  length coef = 5%nat -> Np.sum coef <> 0 ->
  assign 5 (coef_norm coef) = Some row ->
  exists a b c d e : R,
    row = [a; b; c; d; e] /\
    mode_fit 1 a b c d e = 1 /\ mode_fit 0 a b c d e = 0.
Proof.
  intros Hlen Hsum Hrow. unfold assign in Hrow.
  destruct (decide _) as [_|Hne];
    [|exfalso; apply Hne; unfold coef_norm; rewrite length_fmap; exact Hlen].
  injection Hrow as <-.
  destruct coef as [|a [|b [|c [|d [|e [|? ?]]]]]]; try discriminate.
  set (t := Np.sum [a; b; c; d; e]) in *.
  exists (a / t), (b / t), (c / t), (d / t), (e / t).
  split; [reflexivity|]. unfold mode_fit. split; [|ring].
  assert (Ht : t = a + b + c + d + e) by (unfold t, Np.sum; cbn; ring).
  clearbody t. field_simplify_eq; [lra | exact Hsum].
Qed.

(** When the fit returns five coefficients with a non-zero sum, every run of
    [CurveFEM.compute] that returns gives three rows of [modes_coef], and
    the polynomial [mode_fit] of each row is 0 at the blade root ([x = 0])
    and 1 at the tip ([x = 1]): the mode shapes are normalized to a unit tip
    displacement. *)
Theorem mode_shapes_are_normalized_at_the_tip :
  forall (inputs : Inputs) (out : Outputs),
    (forall (x y coef : list R),
       curve_fit mode_fit x y = Some coef ->
       length coef = 5%nat /\ Np.sum coef <> 0) ->
    compute NFREQ frequencies curve_fit inputs = Some out ->
    length (modes_coef out) = 3%nat /\
    Forall (fun row =>
              exists a b c d e : R,
                row = [a; b; c; d; e] /\
                mode_fit 1 a b c d e = 1 /\ mode_fit 0 a b c d e = 0)
           (modes_coef out).
Proof.
  intros inputs out Hfit Hout. unfold compute in Hout.
  destruct (frequencies inputs) as [[fr eig_vec]|]; [|discriminate].
  cbn in Hout.
  destruct (assign NFREQ (take NFREQ fr)) as [freq_out|]; [|discriminate].
  cbn in Hout.
  destruct (mapM _ (beam_z inputs)) as [R_|]; [|discriminate]. cbn in Hout.
  destruct (mapM _ (seq 0 NFREQ)) as [flap_edge|]; [|discriminate].
  cbn in Hout.
  destruct ((fst <$> flap_edge) !! 0%nat) as [flap_0|]; [|discriminate].
  cbn in Hout.
  destruct (curve_fit mode_fit R_ flap_0) as [coef0|] eqn:Hc0; [|discriminate].
  cbn in Hout.
  destruct (assign 5 (coef_norm coef0)) as [row_0|] eqn:Hr0; [|discriminate].
  cbn in Hout.
  destruct ((fst <$> flap_edge) !! 1%nat) as [flap_1|]; [|discriminate].
  cbn in Hout.
  destruct (curve_fit mode_fit R_ flap_1) as [coef1|] eqn:Hc1; [|discriminate].
  cbn in Hout.
  destruct (assign 5 (coef_norm coef1)) as [row_1|] eqn:Hr1; [|discriminate].
  cbn in Hout.
  destruct ((snd <$> flap_edge) !! 0%nat) as [edge_0|]; [|discriminate].
  cbn in Hout.
  destruct (curve_fit mode_fit R_ edge_0) as [coef2|] eqn:Hc2; [|discriminate].
  cbn in Hout.
  destruct (assign 5 (coef_norm coef2)) as [row_2|] eqn:Hr2; [|discriminate].
  cbn in Hout. injection Hout as <-. cbn [modes_coef].
  split; [reflexivity|].
  destruct (Hfit _ _ _ Hc0) as [Hl0 Hs0].
  destruct (Hfit _ _ _ Hc1) as [Hl1 Hs1].
  destruct (Hfit _ _ _ Hc2) as [Hl2 Hs2].
  repeat apply Forall_cons_2; [..|apply Forall_nil_2].
  - exact (coef_norm_row coef0 row_0 Hl0 Hs0 Hr0).
  - exact (coef_norm_row coef1 row_1 Hl1 Hs1 Hr1).
  - exact (coef_norm_row coef2 row_2 Hl2 Hs2 Hr2).
Qed.

End CurveFEMFacts.

Section CurveFEMRuns.
Import CurveFEM.
Local Open Scope R_scope.

Lemma mode_shapes_are_normalized_at_the_tip_witness :
  exists out : Outputs,
    compute 2 sample_frequencies sample_curve_fit sample_inputs = Some out /\
    length (modes_coef out) = 3%nat.
Proof.
  eexists. split; [reflexivity|].
  eapply (mode_shapes_are_normalized_at_the_tip 2 sample_frequencies
            sample_curve_fit sample_inputs).
  - intros x y coef Hcoef. injection Hcoef as <-.
    split; [reflexivity|]. unfold Np.sum. cbn. lra.
  - reflexivity.
Defined.

End CurveFEMRuns.

(** *** ResizeCompositeSection: what the resized layup is *)

Section ResizeObjects.
Import ResizeCompositeSection.
Context {A : Type} `{Numeric A}.

Lemma scale_all_run (r : nat) (f : A) (h h' : store A) :
  scale_all r f h = Some h' ->
  exists cs, h !! r = Some cs /\
             h' = <[r := set_t cs (times f <$> PreComp.t cs)]> h.
Proof.
  unfold scale_all. destruct (h !! r) as [cs|]; [|discriminate].
  cbn. intros [= <-]. eauto 10.
Qed.

Lemma scale_sector_run (r idx : nat) (k : A) (h h' : store A) :
  scale_sector r idx k h = Some h' ->
  exists cs plies,
    h !! r = Some cs /\ PreComp.t cs !! idx = Some plies /\
    h' = <[r := set_t cs (<[idx := times k plies]> (PreComp.t cs))]> h.
Proof.
  unfold scale_sector. destruct (h !! r) as [cs|]; [|discriminate]. cbn.
  destruct (PreComp.t cs !! idx) as [plies|] eqn:Hp; [|discriminate].
  cbn. intros [= <-]. exists cs, plies. auto.
Qed.

Lemma sector_sum_run (r idx : nat) (h : store A) (s : A) :
  sector_sum r idx h = Some s ->
  exists cs plies,
    h !! r = Some cs /\ PreComp.t cs !! idx = Some plies /\ s = np_sum plies.
Proof.
  unfold sector_sum. destruct (h !! r) as [cs|]; [|discriminate]. cbn.
  destruct (PreComp.t cs !! idx) as [plies|] eqn:Hp; [|discriminate].
  cbn. intros [= <-]. exists cs, plies. auto.
Qed.

(** The objects of a station after its turn of the loop, when the three
    objects are distinct and the spar and trailing-edge sectors differ. *)
Lemma resize_station_objects (inputs : Inputs A) (factor : list A) (i : nat)
    (h h' : store A) (u l w ks kt : nat) (f sT tT : A) :
  resize_station inputs factor i h = Some h' ->
  factor !! i = Some f ->
  upperCS_in inputs !! i = Some u ->
  lowerCS_in inputs !! i = Some l ->
  websCS_in inputs !! i = Some w ->
  u <> l -> u <> w -> l <> w ->
  sector_idx_strain_spar inputs !! i = Some ks ->
  sector_idx_strain_te inputs !! i = Some kt ->
  ks <> kt ->
  sparT inputs !! i = Some sT -> teT inputs !! i = Some tT ->
  exists (cs_u cs_l cs_w : PreComp.CompositeSection A) (ps pt ps_l pt_l : list A),
    h !! u = Some cs_u /\ h !! l = Some cs_l /\ h !! w = Some cs_w /\
    PreComp.t cs_u !! ks = Some ps /\ PreComp.t cs_u !! kt = Some pt /\
    PreComp.t cs_l !! ks = Some ps_l /\ PreComp.t cs_l !! kt = Some pt_l /\
    h' !! u = Some (set_t cs_u
                (<[kt := times (ndiv tT (np_sum (times f pt))) (times f pt)]>
                   (<[ks := times (ndiv sT (np_sum (times f ps))) (times f ps)]>
                      (times f <$> PreComp.t cs_u)))) /\
    h' !! l = Some (set_t cs_l
                (<[kt := times (ndiv tT (np_sum (times f pt))) (times f pt_l)]>
                   (<[ks := times (ndiv sT (np_sum (times f ps))) (times f ps_l)]>
                      (times f <$> PreComp.t cs_l)))) /\
    h' !! w = Some (set_t cs_w (times f <$> PreComp.t cs_w)) /\
    forall r : nat, r <> u -> r <> l -> r <> w -> h' !! r = h !! r.
Proof.
  unfold resize_station.
  intros Hrun Hf Hu Hl Hw Hul Huw Hlw Hks Hkt Hne HsT HtT.
  rewrite Hf, Hu in Hrun. cbn in Hrun.
  destruct (scale_all u f h) as [h1|] eqn:E1; [|discriminate]. cbn in Hrun.
  rewrite Hl in Hrun. cbn in Hrun.
  destruct (scale_all l f h1) as [h2|] eqn:E2; [|discriminate]. cbn in Hrun.
  rewrite Hw in Hrun. cbn in Hrun.
  destruct (scale_all w f h2) as [h3|] eqn:E3; [|discriminate]. cbn in Hrun.
  rewrite Hks, Hkt in Hrun. cbn in Hrun.
  destruct (sector_sum u ks h3) as [tspar|] eqn:Es; [|discriminate].
  cbn in Hrun.
  destruct (sector_sum u kt h3) as [tte|] eqn:Et; [|discriminate].
  cbn in Hrun. rewrite HsT in Hrun. cbn in Hrun.
  destruct (scale_sector u ks (ndiv sT tspar) h3) as [h4|] eqn:E4;
    [|discriminate]. cbn in Hrun.
  destruct (scale_sector l ks (ndiv sT tspar) h4) as [h5|] eqn:E5;
    [|discriminate]. cbn in Hrun. rewrite HtT in Hrun. cbn in Hrun.
  destruct (scale_sector u kt (ndiv tT tte) h5) as [h6|] eqn:E6;
    [|discriminate]. cbn in Hrun.
  destruct (scale_sector l kt (ndiv tT tte) h6) as [h7|] eqn:E7;
    [|discriminate]. cbn in Hrun. injection Hrun as <-.
  apply scale_all_run in E1 as (cs_u & Hcu & ->).
  apply scale_all_run in E2 as (cs_l & Hcl & ->).
  rewrite lookup_insert_ne in Hcl by congruence.
  apply scale_all_run in E3 as (cs_w & Hcw & ->).
  rewrite !lookup_insert_ne in Hcw by congruence.
  apply sector_sum_run in Es as (c1 & ps1 & Hc1 & Hps1 & ->).
  rewrite lookup_insert_ne, lookup_insert_ne, lookup_insert_eq in Hc1
    by congruence.
  injection Hc1 as <-. cbn in Hps1. rewrite list_lookup_fmap in Hps1.
  destruct (PreComp.t cs_u !! ks) as [ps|] eqn:Hps; [|discriminate].
  injection Hps1 as <-.
  apply sector_sum_run in Et as (c2 & pt1 & Hc2 & Hpt1 & ->).
  rewrite lookup_insert_ne, lookup_insert_ne, lookup_insert_eq in Hc2
    by congruence.
  injection Hc2 as <-. cbn in Hpt1. rewrite list_lookup_fmap in Hpt1.
  destruct (PreComp.t cs_u !! kt) as [pt|] eqn:Hpt; [|discriminate].
  injection Hpt1 as <-.
  apply scale_sector_run in E4 as (c4 & p4 & Hc4 & Hp4 & ->).
  rewrite lookup_insert_ne, lookup_insert_ne, lookup_insert_eq in Hc4
    by congruence.
  injection Hc4 as <-. cbn in Hp4. rewrite list_lookup_fmap, Hps in Hp4.
  injection Hp4 as <-.
  apply scale_sector_run in E5 as (c5 & p5 & Hc5 & Hp5 & ->).
  rewrite lookup_insert_ne, lookup_insert_ne, lookup_insert_eq in Hc5
    by congruence.
  injection Hc5 as <-. cbn in Hp5. rewrite list_lookup_fmap in Hp5.
  destruct (PreComp.t cs_l !! ks) as [ps_l|] eqn:Hpsl; [|discriminate].
  injection Hp5 as <-.
  apply scale_sector_run in E6 as (c6 & p6 & Hc6 & Hp6 & ->).
  rewrite lookup_insert_ne, lookup_insert_eq in Hc6 by congruence.
  injection Hc6 as <-. cbn in Hp6.
  rewrite list_lookup_insert_ne, list_lookup_fmap, Hpt in Hp6 by congruence.
  injection Hp6 as <-.
  apply scale_sector_run in E7 as (c7 & p7 & Hc7 & Hp7 & ->).
  rewrite lookup_insert_ne, lookup_insert_eq in Hc7 by congruence.
  injection Hc7 as <-. cbn in Hp7.
  rewrite list_lookup_insert_ne, list_lookup_fmap in Hp7 by congruence.
  destruct (PreComp.t cs_l !! kt) as [pt_l|] eqn:Hptl; [|discriminate].
  injection Hp7 as <-.
  exists cs_u, cs_l, cs_w, ps, pt, ps_l, pt_l.
  repeat (split; [first [assumption | reflexivity]|]).
  split; [rewrite lookup_insert_ne, lookup_insert_eq by congruence; reflexivity|].
  split; [rewrite lookup_insert_eq; reflexivity|].
  split.
  { rewrite !(lookup_insert_ne _ _ w) by congruence.
    rewrite lookup_insert_eq. reflexivity. }
  intros r Hru Hrl Hrw. rewrite !lookup_insert_ne by congruence. reflexivity.
Qed.


Lemma scale_all_frame (r r' : nat) (f : A) (h h' : store A) :
  scale_all r f h = Some h' -> r' <> r -> h' !! r' = h !! r'.
Proof.
  intros (cs & _ & ->)%scale_all_run Hne. apply lookup_insert_ne. congruence.
Qed.

Lemma scale_sector_frame (r r' idx : nat) (k : A) (h h' : store A) :
  scale_sector r idx k h = Some h' -> r' <> r -> h' !! r' = h !! r'.
Proof.
  intros (cs & plies & _ & _ & ->)%scale_sector_run Hne.
  apply lookup_insert_ne. congruence.
Qed.

(** A turn of the loop touches the three objects of its station only. *)
Lemma resize_station_frame (inputs : Inputs A) (factor : list A) (i : nat)
    (h h' : store A) (r : nat) :
  resize_station inputs factor i h = Some h' ->
  upperCS_in inputs !! i <> Some r ->
  lowerCS_in inputs !! i <> Some r ->
  websCS_in inputs !! i <> Some r ->
  h' !! r = h !! r.
Proof.
  unfold resize_station. intros Hrun Hu Hl Hw.
  destruct (factor !! i) as [f|]; [|discriminate]. cbn in Hrun.
  destruct (upperCS_in inputs !! i) as [u|]; [|discriminate]. cbn in Hrun.
  destruct (scale_all u f h) as [h1|] eqn:E1; [|discriminate]. cbn in Hrun.
  destruct (lowerCS_in inputs !! i) as [l|]; [|discriminate]. cbn in Hrun.
  destruct (scale_all l f h1) as [h2|] eqn:E2; [|discriminate]. cbn in Hrun.
  destruct (websCS_in inputs !! i) as [w|]; [|discriminate]. cbn in Hrun.
  destruct (scale_all w f h2) as [h3|] eqn:E3; [|discriminate]. cbn in Hrun.
  destruct (sector_idx_strain_spar inputs !! i) as [ks|]; [|discriminate].
  cbn in Hrun.
  destruct (sector_idx_strain_te inputs !! i) as [kt|]; [|discriminate].
  cbn in Hrun.
  destruct (sector_sum u ks h3) as [tspar|]; [|discriminate]. cbn in Hrun.
  destruct (sector_sum u kt h3) as [tte|]; [|discriminate]. cbn in Hrun.
  destruct (sparT inputs !! i) as [sT|]; [|discriminate]. cbn in Hrun.
  destruct (scale_sector u ks (ndiv sT tspar) h3) as [h4|] eqn:E4;
    [|discriminate]. cbn in Hrun.
  destruct (scale_sector l ks (ndiv sT tspar) h4) as [h5|] eqn:E5;
    [|discriminate]. cbn in Hrun.
  destruct (teT inputs !! i) as [tT|]; [|discriminate]. cbn in Hrun.
  destruct (scale_sector u kt (ndiv tT tte) h5) as [h6|] eqn:E6;
    [|discriminate]. cbn in Hrun.
  destruct (scale_sector l kt (ndiv tT tte) h6) as [h7|] eqn:E7;
    [|discriminate]. cbn in Hrun. injection Hrun as <-.
  assert (r <> u) by congruence. assert (r <> l) by congruence.
  assert (r <> w) by congruence.
  rewrite (scale_sector_frame _ _ _ _ _ _ E7), (scale_sector_frame _ _ _ _ _ _ E6),
    (scale_sector_frame _ _ _ _ _ _ E5), (scale_sector_frame _ _ _ _ _ _ E4),
    (scale_all_frame _ _ _ _ _ E3), (scale_all_frame _ _ _ _ _ E2),
    (scale_all_frame _ _ _ _ _ E1) by assumption.
  reflexivity.
Qed.

Lemma resize_loop_app (inputs : Inputs A) (factor : list A)
    (s1 s2 : list nat) (h : store A) :
  resize_loop inputs factor (s1 ++ s2) h
  = resize_loop inputs factor s1 h ≫= resize_loop inputs factor s2.
Proof.
  unfold resize_loop. rewrite foldl_app.
  destruct (foldl _ (Some h) s1) as [h1|]; [reflexivity|].
  apply resize_loop_None.
Qed.

Lemma resize_loop_frame (inputs : Inputs A) (factor : list A)
    (stations : list nat) (h h' : store A) (r : nat) :
  resize_loop inputs factor stations h = Some h' ->
  Forall (fun j : nat => upperCS_in inputs !! j <> Some r /\
                   lowerCS_in inputs !! j <> Some r /\
                   websCS_in inputs !! j <> Some r) stations ->
  h' !! r = h !! r.
Proof.
  intros Hrun Hall. revert h Hrun.
  induction Hall as [|j stations (Hu & Hl & Hw) _ IH]; intros h Hrun.
  - injection Hrun as <-. reflexivity.
  - change (j :: stations) with ([j] ++ stations) in Hrun.
    rewrite resize_loop_app in Hrun.
    change (resize_loop inputs factor [j] h)
      with (resize_station inputs factor j h) in Hrun.
    destruct (resize_station inputs factor j h) as [h1|] eqn:Hst;
      [|discriminate].
    cbn in Hrun. rewrite (IH h1 Hrun).
    exact (resize_station_frame inputs factor j h h1 r Hst Hu Hl Hw).
Qed.

(** With pairwise distinct objects, a reference is used by one station and
    in one role only. *)
Lemma distinct_objects (U L W : list nat) :
  NoDup (U ++ L ++ W) ->
  forall (i j : nat) (r : nat),
    (U !! i = Some r -> (U !! j = Some r -> i = j) /\
                        L !! j <> Some r /\ W !! j <> Some r) /\
    (L !! i = Some r -> (L !! j = Some r -> i = j) /\
                        U !! j <> Some r /\ W !! j <> Some r) /\
    (W !! i = Some r -> (W !! j = Some r -> i = j) /\
                        U !! j <> Some r /\ L !! j <> Some r).
Proof.
  intros Hnd i j r.
  assert (HU : forall k x, U !! k = Some x ->
             (U ++ L ++ W) !! k = Some x /\ k < length U).
  { intros k x Hk. split; [apply lookup_app_l_Some, Hk|].
    eapply lookup_lt_Some, Hk. }
  assert (HL : forall k x, L !! k = Some x ->
             (U ++ L ++ W) !! (length U + k) = Some x /\ k < length L).
  { intros k x Hk. split; [|eapply lookup_lt_Some, Hk].
    rewrite lookup_app_r by lia.
    replace (length U + k - length U) with k by lia.
    apply lookup_app_l_Some, Hk. }
  assert (HW : forall k x, W !! k = Some x ->
             (U ++ L ++ W) !! (length U + length L + k) = Some x).
  { intros k x Hk. rewrite lookup_app_r by lia.
    rewrite lookup_app_r by lia.
    replace (length U + length L + k - length U - length L) with k by lia.
    exact Hk. }
  pose proof (fun a b => NoDup_lookup (U ++ L ++ W) a b r Hnd) as Huniq.
  repeat split; intros H1;
    repeat match goal with
           | |- _ <> _ => intros H2
           | |- _ -> _ => intros H2
           end;
    repeat match goal with
           | Hk : U !! _ = Some _ |- _ => apply HU in Hk as [? ?]
           | Hk : L !! _ = Some _ |- _ => apply HL in Hk as [? ?]
           | Hk : W !! _ = Some _ |- _ => apply HW in Hk
           end;
    match goal with
    | Ha : (U ++ L ++ W) !! ?a = Some r, Hb : (U ++ L ++ W) !! ?b = Some r
      |- _ => pose proof (Huniq a b Ha Hb)
    end; lia.
Qed.

(** The objects of station [i] when the whole call has returned. *)
Lemma compute_station_objects (inputs : Inputs A) (h h' : store A)
    (out : Outputs) (i u l ks kt : nat) (c c_ref sT tT : A) :
  compute inputs h = Some (out, h') ->
  NoDup (upperCS_in inputs ++ lowerCS_in inputs ++ websCS_in inputs) ->
  upperCS_in inputs !! i = Some u ->
  lowerCS_in inputs !! i = Some l ->
  sector_idx_strain_spar inputs !! i = Some ks ->
  sector_idx_strain_te inputs !! i = Some kt ->
  ks <> kt ->
  chord inputs !! i = Some c -> chord_ref inputs !! i = Some c_ref ->
  sparT inputs !! i = Some sT -> teT inputs !! i = Some tT ->
  let f := ndiv c c_ref in
  exists (w : nat) (cs_u cs_l cs_w : PreComp.CompositeSection A)
         (ps pt ps_l pt_l : list A),
    websCS_in inputs !! i = Some w /\
    h !! u = Some cs_u /\ h !! l = Some cs_l /\ h !! w = Some cs_w /\
    PreComp.t cs_u !! ks = Some ps /\ PreComp.t cs_u !! kt = Some pt /\
    PreComp.t cs_l !! ks = Some ps_l /\ PreComp.t cs_l !! kt = Some pt_l /\
    h' !! u = Some (set_t cs_u
                (<[kt := times (ndiv tT (np_sum (times f pt))) (times f pt)]>
                   (<[ks := times (ndiv sT (np_sum (times f ps))) (times f ps)]>
                      (times f <$> PreComp.t cs_u)))) /\
    h' !! l = Some (set_t cs_l
                (<[kt := times (ndiv tT (np_sum (times f pt))) (times f pt_l)]>
                   (<[ks := times (ndiv sT (np_sum (times f ps))) (times f ps_l)]>
                      (times f <$> PreComp.t cs_l)))) /\
    h' !! w = Some (set_t cs_w (times f <$> PreComp.t cs_w)).
Proof.
  intros Hrun Hnd Hu Hl Hks Hkt Hne Hc Hcr HsT HtT f.
  unfold compute in Hrun. destruct (decide _) as [Hlen|]; [|discriminate].
  set (factor := zip_with ndiv (chord inputs) (chord_ref inputs)) in Hrun.
  destruct (resize_loop inputs factor _ h) as [h3|] eqn:Hloop;
    [|discriminate].
  cbn in Hrun. injection Hrun as _ <-.
  assert (Hi : i < length (chord inputs)) by (eapply lookup_lt_Some, Hc).
  assert (Hseq : seq 0 (length (chord inputs))
                 = seq 0 i ++ [i] ++ seq (S i) (length (chord inputs) - S i)).
  { replace (length (chord inputs))
      with (i + (1 + (length (chord inputs) - S i))) at 1 by lia.
    rewrite seq_app, seq_app. cbn [Nat.add seq].
    replace (i + 1) with (S i) by lia. reflexivity. }
  rewrite Hseq, resize_loop_app in Hloop.
  destruct (resize_loop inputs factor (seq 0 i) h) as [h1|] eqn:Hpre;
    [|discriminate].
  cbn [mbind option_bind] in Hloop. rewrite resize_loop_app in Hloop.
  change (resize_loop inputs factor [i] h1)
    with (resize_station inputs factor i h1) in Hloop.
  destruct (resize_station inputs factor i h1) as [h2|] eqn:Hst;
    [|discriminate].
  cbn [mbind option_bind] in Hloop.
  assert (Hf : factor !! i = Some f).
  { subst factor f. rewrite lookup_zip_with, Hc, Hcr. reflexivity. }
  destruct (websCS_in inputs !! i) as [w|] eqn:Hw.
  2: { unfold resize_station in Hst. rewrite Hf, Hu in Hst. cbn in Hst.
       destruct (scale_all u f h1); [|discriminate]. cbn in Hst.
       rewrite Hl in Hst. cbn in Hst.
       destruct (scale_all l f _); [|discriminate]. cbn in Hst.
       rewrite Hw in Hst. discriminate. }
  pose proof (distinct_objects _ _ _ Hnd) as Hd.
  assert (Hul : u <> l).
  { intros ->. destruct (Hd i i l) as [HdU _].
    destruct (HdU Hu) as (_ & HL & _). contradiction. }
  assert (Huw : u <> w).
  { intros ->. destruct (Hd i i w) as [HdU _].
    destruct (HdU Hu) as (_ & _ & HW). contradiction. }
  assert (Hlw : l <> w).
  { intros ->. destruct (Hd i i w) as (_ & HdL & _).
    destruct (HdL Hl) as (_ & _ & HW). contradiction. }
  assert (Hother : forall stations : list nat,
            Forall (fun j : nat => j <> i) stations ->
            forall r, r = u \/ r = l \/ r = w ->
            Forall (fun j : nat => upperCS_in inputs !! j <> Some r /\
                             lowerCS_in inputs !! j <> Some r /\
                             websCS_in inputs !! j <> Some r) stations).
  { intros stations Hst' r Hr. eapply Forall_impl; [exact Hst'|].
    intros j Hj. destruct (Hd i j r) as (HdU & HdL & HdW).
    destruct Hr as [->| [->| ->]].
    - destruct (HdU Hu) as (Hsame & ? & ?). repeat split; auto.
      intros Hx. apply Hj. symmetry. auto.
    - destruct (HdL Hl) as (Hsame & ? & ?). repeat split; auto.
      intros Hx. apply Hj. symmetry. auto.
    - destruct (HdW Hw) as (Hsame & ? & ?). repeat split; auto.
      intros Hx. apply Hj. symmetry. auto. }
  assert (Hbefore : Forall (fun j : nat => j <> i) (seq 0 i)).
  { apply Forall_forall. intros j Hj. apply elem_of_seq in Hj. lia. }
  assert (Hafter : Forall (fun j : nat => j <> i)
                     (seq (S i) (length (chord inputs) - S i))).
  { apply Forall_forall. intros j Hj. apply elem_of_seq in Hj. lia. }
  destruct (resize_station_objects inputs factor i h1 h2 u l w ks kt f sT tT
              Hst Hf Hu Hl Hw Hul Huw Hlw Hks Hkt Hne HsT HtT)
    as (cs_u & cs_l & cs_w & ps & pt & ps_l & pt_l & Hcu & Hcl & Hcw & Hps
        & Hpt & Hpsl & Hptl & Hu2 & Hl2 & Hw2 & _).
  exists w, cs_u, cs_l, cs_w, ps, pt, ps_l, pt_l.
  rewrite (resize_loop_frame _ _ _ _ _ u Hpre) in Hcu by (apply Hother; auto).
  rewrite (resize_loop_frame _ _ _ _ _ l Hpre) in Hcl by (apply Hother; auto).
  rewrite (resize_loop_frame _ _ _ _ _ w Hpre) in Hcw by (apply Hother; auto).
  rewrite (resize_loop_frame _ _ _ _ _ u Hloop) by (apply Hother; auto).
  rewrite (resize_loop_frame _ _ _ _ _ l Hloop) by (apply Hother; auto).
  rewrite (resize_loop_frame _ _ _ _ _ w Hloop) by (apply Hother; auto).
  repeat (split; [first [assumption | reflexivity]|]). assumption.
Qed.

End ResizeObjects.

Section ResizeTargets.
Import ResizeCompositeSection.
Local Open Scope R_scope.

Lemma np_sum_from (m : list R) (acc : R) :
  foldl nadd acc m = acc + np_sum m.
Proof.
  unfold np_sum. unfold_numeric. revert acc.
  induction m as [|x m IH]; intros acc; cbn [foldl]; [ring|].
  rewrite (IH (acc + x)), (IH (0 + x)). ring.
Qed.

Lemma np_sum_times (k : R) (m : list R) :
  np_sum (times k m) = np_sum m * k.
Proof.
  induction m as [|x m IH]; [unfold np_sum; unfold_numeric; cbn; ring|].
  unfold np_sum in *. cbn [times fmap list_fmap foldl] in *.
  fold (times k m). rewrite !np_sum_from. unfold np_sum. rewrite IH.
  unfold_numeric. ring.
Qed.

(** Scaling a sector to a target: the scaled plies sum to the target. *)
Lemma np_sum_rescaled (target f : R) (ps : list R) :
  f <> 0 -> np_sum ps <> 0 ->
  np_sum (times (ndiv target (np_sum (times f ps))) (times f ps)) = target.
Proof.
  intros Hf Hs. rewrite !np_sum_times. unfold_numeric. field. auto.
Qed.

(** The same scale applied to other plies. *)
Lemma np_sum_rescaled_other (target f : R) (ps qs : list R) :
  f <> 0 -> np_sum ps <> 0 ->
  np_sum (times (ndiv target (np_sum (times f ps))) (times f qs))
  = target * (np_sum qs / np_sum ps).
Proof.
  intros Hf Hs. rewrite !np_sum_times. unfold_numeric. field. auto.
Qed.

Lemma sector_sum_of (h : store R) (r idx : nat)
    (cs : PreComp.CompositeSection R) (plies : list R) :
  h !! r = Some cs -> PreComp.t cs !! idx = Some plies ->
  sector_sum r idx h = Some (np_sum plies).
Proof. intros Hcs Hp. unfold sector_sum. rewrite Hcs. cbn. rewrite Hp. reflexivity. Qed.

(** After resizing, the plies of the spar cap of the upper surface sum to
    the target [sparT[i]] and those of its trailing-edge panel to [teT[i]],
    when the section objects are pairwise distinct, the two sectors differ,
    and neither the chord ratio nor the base thickness of the two sectors is
    zero. *)
Theorem resized_upper_surface_meets_the_targets :
  forall (inputs : Inputs R) (h h' : store R) (out : Outputs)
         (i u l idx_spar idx_te : nat) (c c_ref sparT_i teT_i : R)
         (cs_u : PreComp.CompositeSection R) (ps pt : list R),
    compute inputs h = Some (out, h') ->
    NoDup (upperCS_in inputs ++ lowerCS_in inputs ++ websCS_in inputs) ->
    station_data inputs i u l idx_spar idx_te c c_ref sparT_i teT_i ->
    idx_spar <> idx_te -> c / c_ref <> 0 ->
    h !! u = Some cs_u ->
    PreComp.t cs_u !! idx_spar = Some ps -> np_sum ps <> 0 ->
    PreComp.t cs_u !! idx_te = Some pt -> np_sum pt <> 0 ->
    sector_sum u idx_spar h' = Some sparT_i /\
    sector_sum u idx_te h' = Some teT_i.
Proof.
  intros inputs h h' out i u l ks kt c c_ref sT tT cs_u ps pt Hrun Hnd
    (Hu & Hl & Hks & Hkt & Hc & Hcr & HsT & HtT) Hne Hf Hcu Hps Hsps Hpt Hspt.
  destruct (compute_station_objects inputs h h' out i u l ks kt c c_ref sT tT
              Hrun Hnd Hu Hl Hks Hkt Hne Hc Hcr HsT HtT)
    as (w & cs_u' & cs_l & cs_w & ps' & pt' & ps_l & pt_l & _ & Hcu' & _ & _
        & Hps' & Hpt' & _ & _ & Hu' & _ & _).
  rewrite Hcu in Hcu'. injection Hcu' as <-.
  rewrite Hps in Hps'. injection Hps' as <-.
  rewrite Hpt in Hpt'. injection Hpt' as <-.
  assert (Hlks : (ks < length (times (ndiv c c_ref) <$> PreComp.t cs_u))%nat).
  { rewrite length_fmap. eapply lookup_lt_Some, Hps. }
  assert (Hlkt : (kt < length (times (ndiv c c_ref) <$> PreComp.t cs_u))%nat).
  { rewrite length_fmap. eapply lookup_lt_Some, Hpt. }
  split.
  - erewrite (sector_sum_of h' u ks _ _ Hu').
    2: { cbn [PreComp.t set_t].
         rewrite list_lookup_insert_ne by congruence.
         apply list_lookup_insert_eq, Hlks. }
    f_equal. apply np_sum_rescaled; assumption.
  - erewrite (sector_sum_of h' u kt _ _ Hu').
    2: { cbn [PreComp.t set_t]. apply list_lookup_insert_eq.
         rewrite length_insert. exact Hlkt. }
    f_equal. apply np_sum_rescaled; assumption.
Qed.

(** The lower surface is scaled with the factors computed on the upper
    surface ("upper and lower have same thickness for this design"): its
    spar cap comes out as [sparT[i]] times the ratio of the lower to the
    upper base thickness, and likewise its trailing-edge panel, so it meets
    the targets only when the two surfaces had the same base thickness. *)
Theorem resized_lower_surface_follows_the_upper :
  forall (inputs : Inputs R) (h h' : store R) (out : Outputs)
         (i u l idx_spar idx_te : nat) (c c_ref sparT_i teT_i : R)
         (cs_u cs_l : PreComp.CompositeSection R) (ps pt ps_l pt_l : list R),
    compute inputs h = Some (out, h') ->
    NoDup (upperCS_in inputs ++ lowerCS_in inputs ++ websCS_in inputs) ->
    station_data inputs i u l idx_spar idx_te c c_ref sparT_i teT_i ->
    idx_spar <> idx_te -> c / c_ref <> 0 ->
    h !! u = Some cs_u ->
    PreComp.t cs_u !! idx_spar = Some ps -> np_sum ps <> 0 ->
    PreComp.t cs_u !! idx_te = Some pt -> np_sum pt <> 0 ->
    h !! l = Some cs_l ->
    PreComp.t cs_l !! idx_spar = Some ps_l ->
    PreComp.t cs_l !! idx_te = Some pt_l ->
    sector_sum l idx_spar h' = Some (sparT_i * (np_sum ps_l / np_sum ps)) /\
    sector_sum l idx_te h' = Some (teT_i * (np_sum pt_l / np_sum pt)).
Proof.
  intros inputs h h' out i u l ks kt c c_ref sT tT cs_u cs_l ps pt ps_l pt_l
    Hrun Hnd (Hu & Hl & Hks & Hkt & Hc & Hcr & HsT & HtT) Hne Hf Hcu Hps Hsps
    Hpt Hspt Hcl Hpsl Hptl.
  destruct (compute_station_objects inputs h h' out i u l ks kt c c_ref sT tT
              Hrun Hnd Hu Hl Hks Hkt Hne Hc Hcr HsT HtT)
    as (w & cs_u' & cs_l' & cs_w & ps' & pt' & ps_l' & pt_l' & _ & Hcu' & Hcl'
        & _ & Hps' & Hpt' & Hpsl' & Hptl' & _ & Hl' & _).
  rewrite Hcu in Hcu'. injection Hcu' as <-.
  rewrite Hcl in Hcl'. injection Hcl' as <-.
  rewrite Hps in Hps'. injection Hps' as <-.
  rewrite Hpt in Hpt'. injection Hpt' as <-.
  rewrite Hpsl in Hpsl'. injection Hpsl' as <-.
  rewrite Hptl in Hptl'. injection Hptl' as <-.
  assert (Hlks : (ks < length (times (ndiv c c_ref) <$> PreComp.t cs_l))%nat).
  { rewrite length_fmap. eapply lookup_lt_Some, Hpsl. }
  assert (Hlkt : (kt < length (times (ndiv c c_ref) <$> PreComp.t cs_l))%nat).
  { rewrite length_fmap. eapply lookup_lt_Some, Hptl. }
  split.
  - erewrite (sector_sum_of h' l ks _ _ Hl').
    2: { cbn [PreComp.t set_t].
         rewrite list_lookup_insert_ne by congruence.
         apply list_lookup_insert_eq, Hlks. }
    f_equal. apply np_sum_rescaled_other; assumption.
  - erewrite (sector_sum_of h' l kt _ _ Hl').
    2: { cbn [PreComp.t set_t]. apply list_lookup_insert_eq.
         rewrite length_insert. exact Hlkt. }
    f_equal. apply np_sum_rescaled_other; assumption.
Qed.

End ResizeTargets.

Section ResizeFrame.
Import ResizeCompositeSection.
Context {A : Type} `{Numeric A}.

(** Besides the spar cap and the trailing-edge panel, resizing scales every
    ply by the chord ratio [chord[i] / chord_ref[i]]: the other sectors of
    the upper and lower surfaces and all sectors of the webs; the chordwise
    breakpoints [loc] of the three objects are unchanged. *)
Theorem resize_scales_the_other_sectors_with_the_chord :
  forall (inputs : Inputs A) (h h' : store A) (out : Outputs)
         (i u l idx_spar idx_te : nat) (c c_ref sparT_i teT_i : A),
    compute inputs h = Some (out, h') ->
    NoDup (upperCS_in inputs ++ lowerCS_in inputs ++ websCS_in inputs) ->
    station_data inputs i u l idx_spar idx_te c c_ref sparT_i teT_i ->
    idx_spar <> idx_te ->
    exists (w : nat) (cs_u cs_l cs_w cs_u' cs_l' cs_w' : PreComp.CompositeSection A),
      websCS_in inputs !! i = Some w /\
      h !! u = Some cs_u /\ h !! l = Some cs_l /\ h !! w = Some cs_w /\
      h' !! u = Some cs_u' /\ h' !! l = Some cs_l' /\ h' !! w = Some cs_w' /\
      PreComp.loc cs_u' = PreComp.loc cs_u /\
      PreComp.loc cs_l' = PreComp.loc cs_l /\
      PreComp.loc cs_w' = PreComp.loc cs_w /\
      PreComp.t cs_w' = times (ndiv c c_ref) <$> PreComp.t cs_w /\
      forall j : nat,
        j <> idx_spar -> j <> idx_te ->
        PreComp.t cs_u' !! j = times (ndiv c c_ref) <$> PreComp.t cs_u !! j /\
        PreComp.t cs_l' !! j = times (ndiv c c_ref) <$> PreComp.t cs_l !! j.
Proof.
  intros inputs h h' out i u l ks kt c c_ref sT tT Hrun Hnd
    (Hu & Hl & Hks & Hkt & Hc & Hcr & HsT & HtT) Hne.
  destruct (compute_station_objects inputs h h' out i u l ks kt c c_ref sT tT
              Hrun Hnd Hu Hl Hks Hkt Hne Hc Hcr HsT HtT)
    as (w & cs_u & cs_l & cs_w & ps & pt & ps_l & pt_l & Hw & Hcu & Hcl & Hcw
        & _ & _ & _ & _ & Hu' & Hl' & Hw').
  eexists w, cs_u, cs_l, cs_w, _, _, _.
  repeat (split; [first [eassumption | reflexivity]|]).
  intros j Hjs Hjt. cbn [PreComp.t set_t].
  rewrite !list_lookup_insert_ne, !list_lookup_fmap by congruence.
  split; reflexivity.
Qed.

(** Resizing never touches an object that none of the three input lists
    names. *)
Theorem resize_leaves_unlisted_objects_alone :
  forall (inputs : Inputs A) (h h' : store A) (out : Outputs) (r : nat),
    compute inputs h = Some (out, h') ->
    r ∉ upperCS_in inputs ++ lowerCS_in inputs ++ websCS_in inputs ->
    h' !! r = h !! r.
Proof.
  intros inputs h h' out r Hrun Hr. unfold compute in Hrun.
  destruct (decide _) as [_|]; [|discriminate].
  destruct (resize_loop _ _ _ h) as [h1|] eqn:Hloop; [|discriminate].
  cbn in Hrun. injection Hrun as _ <-.
  apply (resize_loop_frame _ _ _ _ _ r Hloop), Forall_forall.
  intros j _. rewrite !not_elem_of_app in Hr. destruct Hr as (HU & HL & HW).
  repeat split; intros Hx; [apply HU|apply HL|apply HW];
    eapply list_elem_of_lookup_2, Hx.
Qed.

End ResizeFrame.

Section ResizeTargetRuns.
Import ResizeCompositeSection.
Local Open Scope R_scope.

Lemma design_station :
  station_data design_inputs 0 0 1 1 3 3 2 0.05 0.02.
Proof. repeat split; reflexivity. Qed.

Lemma design_distinct :
  NoDup (upperCS_in design_inputs ++ lowerCS_in design_inputs
         ++ websCS_in design_inputs).
Proof. compute_done. Qed.

Lemma resized_upper_surface_meets_the_targets_witness :
  exists (out : Outputs) (h' : store R),
    compute design_inputs design_store = Some (out, h') /\
    sector_sum 0 1 h' = Some 0.05 /\ sector_sum 0 3 h' = Some 0.02.
Proof.
  eexists _, _. split; [reflexivity|].
  apply (resized_upper_surface_meets_the_targets design_inputs design_store
           _ _ 0 0 1 1 3 3 2 0.05 0.02 design_upper
           [0.01; 0.02] [0.004; 0.004] eq_refl design_distinct design_station).
  - lia.
  - lra.
  - reflexivity.
  - reflexivity.
  - unfold np_sum. cbn. lra.
  - reflexivity.
  - unfold np_sum. cbn. lra.
Defined.

Lemma resized_lower_surface_follows_the_upper_witness :
  exists (out : Outputs) (h' : store R),
    compute design_inputs design_store = Some (out, h') /\
    sector_sum 1 1 h'
    = Some (0.05 * (np_sum [0.02; 0.04] / np_sum [0.01; 0.02])).
Proof.
  eexists _, _. split; [reflexivity|].
  apply (resized_lower_surface_follows_the_upper design_inputs design_store
           _ _ 0 0 1 1 3 3 2 0.05 0.02 design_upper design_lower
           [0.01; 0.02] [0.004; 0.004] [0.02; 0.04] [0.004; 0.004]
           eq_refl design_distinct design_station).
  - lia.
  - lra.
  - reflexivity.
  - reflexivity.
  - unfold np_sum. cbn. lra.
  - reflexivity.
  - unfold np_sum. cbn. lra.
  - reflexivity.
  - reflexivity.
  - reflexivity.
Defined.

Lemma resize_scales_the_other_sectors_with_the_chord_witness :
  exists (out : Outputs) (h' : store R) (cs_w' : PreComp.CompositeSection R),
    compute design_inputs design_store = Some (out, h') /\
    h' !! 2%nat = Some cs_w' /\
    PreComp.t cs_w' = times (3 / 2) <$> PreComp.t design_web.
Proof.
  eexists _, _.
  destruct (resize_scales_the_other_sectors_with_the_chord design_inputs
              design_store _ _ 0 0 1 1 3 3 2 0.05 0.02
              eq_refl design_distinct design_station)
    as (w & cs_u & cs_l & cs_w & cs_u' & cs_l' & cs_w' & Hw & _ & _ & Hcw & _
        & _ & Hw' & _ & _ & _ & Ht & _).
  - lia.
  - injection Hw as <-. injection Hcw as <-. exists cs_w'.
    split; [reflexivity|]. split; [exact Hw'|exact Ht].
Defined.

Lemma resize_leaves_unlisted_objects_alone_witness :
  exists (out : Outputs) (h' : store R),
    compute design_inputs (<[7%nat := design_web]> design_store)
    = Some (out, h') /\
    h' !! 7%nat = Some design_web.
Proof.
  eexists _, _. split; [reflexivity|].
  erewrite (resize_leaves_unlisted_objects_alone design_inputs
              (<[7%nat := design_web]> design_store)).
  - reflexivity.
  - reflexivity.
  - compute_done.
Defined.

End ResizeTargetRuns.

(** *** RotorWithpBEAM: load cases *)

Section StrainFacts.
Import RotorWithpBEAM.
Local Open Scope R_scope.

Lemma bind_raises {A B : Type} (x : option A) :
  x ≫= (fun _ => @None B) = None.
Proof. destruct x; reflexivity. Qed.

(** Case analysis on whether station [i] exists in each of the lists; a
    missing entry makes both sides undefined. *)
Ltac lookup_cases i ls :=
  match ls with
  | (?rest, ?l) =>
      destruct (l !! i); cbn;
      [ lookup_cases i rest
      | repeat (rewrite !bind_raises; cbn);
        first [reflexivity | lookup_cases i rest] ]
  | _ => idtac
  end.

Theorem strain_is_linear_in_the_loads :
  forall (self : PrincipalAxes) (blade1 blade2 : Resultants) (a b : R)
         (xu yu xl yl : list R),
    let s1 := strain self blade1 xu yu xl yl in
    let s2 := strain self blade2 xu yu xl yl in
    strain self (superpose a blade1 b blade2) xu yu xl yl
    = (Np.add (Np.smul a (fst s1)) (Np.smul b (fst s2)),
       Np.add (Np.smul a (snd s1)) (Np.smul b (snd s2))).
Proof.
  intros [ei1 ei2 ea c s] [vx1 vy1 fz1 mx1 my1 tz1] [vx2 vy2 fz2 mx2 my2 tz2]
    a b xu yu xl yl s1 s2.
  subst s1 s2. unfold strain, superpose. cbn.
  unfold Np.add, Np.sub, Np.mul, Np.div, Np.neg, Np.smul.
  f_equal; apply list_eq; intros i;
    repeat first [rewrite lookup_zip_with | rewrite list_lookup_fmap];
    lookup_cases i (tt, fz2, my2, mx2, fz1, my1, mx1, yl, xl, yu, xu, ea, ei2, ei1, s, c);
    f_equal; unfold Rdiv; ring.
Qed.

End StrainFacts.

Section DamageFacts.
Import RotorWithpBEAM.
Local Open Scope R_scope.

(** [damage] recovers the strain as [strain] does, for the moments alone,
    and turns it into the log-based utilization. *)
Lemma damage_of_strain (self : PrincipalAxes) (Mx My xu yu xl yl : list R)
    (emax eta m N : R) :
  damage self Mx My xu yu xl yl emax eta m N
  = let s := strain self (damage_load_case self Mx My) xu yu xl yl in
    ((fun e => ln N - m * (ln emax - ln eta - ln (Rabs e))) <$> fst s,
     (fun e => ln N - m * (ln emax - ln eta - ln (Rabs e))) <$> snd s).
Proof.
  unfold damage, strain, damage_load_case. cbn.
  assert (Hfz : Np.sdiv 0.0 (EA self)
                = Np.div ((fun _ => 0.0) <$> EA self) (EA self)).
  { unfold Np.sdiv, Np.div. rewrite zip_with_fmap_l, zip_with_diag.
    reflexivity. }
  rewrite Hfz. reflexivity.
Qed.

Lemma log_utilization_is_cycle_ratio (emax eta m N e : R) :
  0 < emax -> 0 < eta -> 0 < N -> e <> 0 ->
  let Nf := cycles_to_failure emax eta m (Rabs e) in
  ln N - m * (ln emax - ln eta - ln (Rabs e)) = ln (N / Nf) /\
  (ln (N / Nf) < 0 <-> N < Nf).
Proof.
  intros Hemax Heta HN He Nf.
  assert (Habs : 0 < Rabs e) by (apply Rabs_pos_lt, He).
  assert (HNf : 0 < Nf) by (unfold Nf, cycles_to_failure, Rpower; apply exp_pos).
  assert (Hq : 0 < N / Nf) by (apply Rdiv_lt_0_compat; assumption).
  split.
  - unfold Rdiv at 1. rewrite ln_mult by (try apply Rinv_0_lt_compat; lra).
    rewrite ln_Rinv by exact HNf.
    unfold Nf, cycles_to_failure, Rpower. rewrite ln_exp.
    unfold Rdiv. rewrite ln_mult.
    2: exact Hemax.
    2: { apply Rinv_0_lt_compat, Rmult_lt_0_compat; assumption. }
    rewrite ln_Rinv by (apply Rmult_lt_0_compat; assumption).
    rewrite ln_mult by assumption. ring.
  - rewrite <- ln_1. split; intros Hlt.
    + apply ln_lt_inv in Hlt; [|exact Hq|lra].
      apply (Rmult_lt_compat_r Nf) in Hlt; [|exact HNf].
      unfold Rdiv in Hlt. rewrite Rmult_assoc, Rinv_l in Hlt by lra. lra.
    + apply ln_increasing; [exact Hq|].
      apply (Rmult_lt_reg_r Nf); [exact HNf|].
      unfold Rdiv. rewrite Rmult_assoc, Rinv_l by lra. lra.
Qed.

(** The damage is the logarithm of the ratio of the cycle count [N] to the
    cycles to failure [Nf = (emax / (eta * |e|)) ** m] at the strain [e]
    that the damage-equivalent moments cause (no axial force): at every
    station with a non-zero strain, for positive [emax], [eta] and [N], it
    is [ln (N / Nf)], and it is negative exactly when [N < Nf]. *)
Theorem damage_is_log_of_cycle_ratio :
  forall (self : PrincipalAxes) (Mx My xu yu xl yl : list R)
         (emax eta m N : R) (i : nat),
    0 < emax -> 0 < eta -> 0 < N ->
    let s := strain self (damage_load_case self Mx My) xu yu xl yl in
    let d := damage self Mx My xu yu xl yl emax eta m N in
    (forall e : R,
       fst s !! i = Some e -> e <> 0 ->
       let Nf := cycles_to_failure emax eta m (Rabs e) in
       fst d !! i = Some (ln (N / Nf)) /\ (ln (N / Nf) < 0 <-> N < Nf)) /\
    (forall e : R,
       snd s !! i = Some e -> e <> 0 ->
       let Nf := cycles_to_failure emax eta m (Rabs e) in
       snd d !! i = Some (ln (N / Nf)) /\ (ln (N / Nf) < 0 <-> N < Nf)).
Proof.
  intros self Mx My xu yu xl yl emax eta m N i Hemax Heta HN s d.
  subst d. rewrite damage_of_strain. fold s. cbn [fst snd].
  split; intros e He Hne; cbv zeta;
    destruct (log_utilization_is_cycle_ratio emax eta m N e Hemax Heta HN Hne)
      as [Heq Hsign];
    (split; [|exact Hsign]);
    rewrite list_lookup_fmap, He; cbn; f_equal; exact Heq.
Qed.

End DamageFacts.

Section DamageRuns.
Import RotorWithpBEAM.
Local Open Scope R_scope.

Lemma damage_is_log_of_cycle_ratio_witness :
  exists e : R,
    fst (strain sample_axes (damage_load_case sample_axes [1] [3])
           [0.1] [0.2] [0.1] [-0.2]) !! 0%nat = Some e /\
    fst (damage sample_axes [1] [3] [0.1] [0.2] [0.1] [-0.2]
           0.01 1.755 10 (365 * 24 * 3600 * 20)) !! 0%nat
    = Some (ln (365 * 24 * 3600 * 20
                / cycles_to_failure 0.01 1.755 10 (Rabs e))).
Proof.
  eexists. split; [reflexivity|].
  assert (Hemax : 0 < 0.01) by lra.
  assert (Heta : 0 < 1.755) by lra.
  assert (HN : 0 < 365 * 24 * 3600 * 20) by lra.
  destruct (damage_is_log_of_cycle_ratio sample_axes [1] [3] [0.1] [0.2]
              [0.1] [-0.2] 0.01 1.755 10 (365 * 24 * 3600 * 20) 0
              Hemax Heta HN) as [HU _].
  refine (proj1 (HU _ eq_refl _)). lra.
Defined.

End DamageRuns.

(** *** PreCompSections: strain locations and failure cases *)

Section StrainLocationFacts.
Import PreCompSections.
Local Open Scope R_scope.
Variable np_interp : R -> list R -> list R -> option R.

Lemma broadcast_same_length (f : R -> R -> R) (a b : list R) :
  length a = length b -> Np.broadcast f a b = Some (zip_with f a b).
Proof.
  intros Hlen. unfold Np.broadcast. destruct (decide _); [reflexivity|].
  contradiction.
Qed.

(** [criticalStrainLocations] evaluates the strain at the middle of the
    sector.  When it returns, with one elastic-centre offset per station,
    the chordwise coordinate of station [i] is the mean of the two
    breakpoints of the sector times the chord, less [x_ec_nose[i]], for the
    upper and for the lower surface; it is returned under the names [yu] and
    [yl], while [xu] and [xl] hold the profile heights interpolated at that
    midpoint, times the chord, less [y_ec_nose[i]]. *)
Theorem strain_locations_are_sector_midpoints :
  forall (chord : list R)
         (upperCS lowerCS : list (PreComp.CompositeSection R))
         (profile : list PreComp.Profile) (sector_idx_strain : list nat)
         (x_ec_nose y_ec_nose xu xl yu yl : list R),
    criticalStrainLocations np_interp chord upperCS lowerCS profile
      sector_idx_strain x_ec_nose y_ec_nose = Some (xu, xl, yu, yl) ->
    length x_ec_nose = length chord ->
    length y_ec_nose = length chord ->
    forall (i : nat) (c ex ey : R) (csU csL : PreComp.CompositeSection R)
           (pf : PreComp.Profile) (idx : nat),
      chord !! i = Some c ->
      x_ec_nose !! i = Some ex -> y_ec_nose !! i = Some ey ->
      upperCS !! i = Some csU -> lowerCS !! i = Some csL ->
      profile !! i = Some pf -> sector_idx_strain !! i = Some idx ->
      exists u0 u1 l0 l1 hu hl : R,
        PreComp.loc csU !! idx = Some u0 /\
        PreComp.loc csU !! (idx + 1)%nat = Some u1 /\
        PreComp.loc csL !! idx = Some l0 /\
        PreComp.loc csL !! (idx + 1)%nat = Some l1 /\
        np_interp (0.5 * (u0 + u1)) (PreComp.x pf) (PreComp.yu pf) = Some hu /\
        np_interp (0.5 * (l0 + l1)) (PreComp.x pf) (PreComp.yl pf) = Some hl /\
        yu !! i = Some (0.5 * (u0 + u1) * c - ex) /\
        yl !! i = Some (0.5 * (l0 + l1) * c - ex) /\
        xu !! i = Some (hu * c - ey) /\
        xl !! i = Some (hl * c - ey).
Proof.
  intros chord upperCS lowerCS profile idxs x_ec y_ec xu xl yu yl Hrun Hx Hy
    i c ex ey csU csL pf idx Hc Hex Hey HU HL Hpf Hidx.
  unfold criticalStrainLocations in Hrun.
  destruct (mapM _ (seq 0 (length chord))) as [rows|] eqn:Hrows;
    [|discriminate].
  cbn in Hrun.
  assert (Hlen : length rows = length chord).
  { apply length_mapM in Hrows. rewrite length_seq in Hrows. congruence. }
  rewrite !broadcast_same_length in Hrun
    by (unfold Np.mul; rewrite length_zip_with, length_fmap; lia).
  cbn in Hrun. injection Hrun as <- <- <- <-.
  apply mapM_Some_1 in Hrows.
  assert (Hi : seq 0 (length chord) !! i = Some i).
  { apply lookup_seq. split; [reflexivity|]. eapply lookup_lt_Some, Hc. }
  destruct (Forall2_lookup_l _ _ _ _ _ Hrows Hi) as (row & Hrow & Hbody).
  cbn in Hbody. rewrite HU, HL, Hpf, Hidx in Hbody. cbn in Hbody.
  unfold criticalStrainLocations_station in Hbody.
  destruct (PreComp.loc csU !! idx) as [u0|]; [|discriminate].
  cbn in Hbody.
  destruct (PreComp.loc csU !! (idx + 1)%nat) as [u1|]; [|discriminate].
  cbn in Hbody.
  destruct (PreComp.loc csL !! idx) as [l0|]; [|discriminate].
  cbn in Hbody.
  destruct (PreComp.loc csL !! (idx + 1)%nat) as [l1|]; [|discriminate].
  cbn in Hbody.
  destruct (np_interp (0.5 * (u0 + u1)) _ _) as [hu|] eqn:Hhu;
    [|discriminate]. cbn in Hbody.
  destruct (np_interp (0.5 * (l0 + l1)) _ _) as [hl|] eqn:Hhl;
    [|discriminate]. cbn in Hbody. injection Hbody as <-.
  exists u0, u1, l0, l1, hu, hl.
  repeat (split; [first [reflexivity | assumption]|]).
  unfold Np.mul.
  repeat split;
    rewrite lookup_zip_with, lookup_zip_with, list_lookup_fmap, Hrow, Hc;
    cbn; rewrite ?Hex, ?Hey; reflexivity.
Qed.

End StrainLocationFacts.

Section StrainLocationRuns.
Import PreCompSections.
Local Open Scope R_scope.

Lemma strain_locations_are_sector_midpoints_witness :
  exists xu xl yu yl : list R,
    criticalStrainLocations sample_interp [2] [sample_section]
      [sample_section] [sample_profile] [0%nat] [0.5] [0.01]
    = Some (xu, xl, yu, yl) /\
    exists u0 u1 : R, yu !! 0%nat = Some (0.5 * (u0 + u1) * 2 - 0.5).
Proof.
  eexists _, _, _, _. split; [reflexivity|].
  destruct (strain_locations_are_sector_midpoints sample_interp [2]
              [sample_section] [sample_section] [sample_profile] [0%nat]
              [0.5] [0.01] _ _ _ _ eq_refl eq_refl eq_refl
              0 2 0.5 0.01 sample_section sample_section sample_profile 0
              eq_refl eq_refl eq_refl eq_refl eq_refl eq_refl eq_refl)
    as (u0 & u1 & l0 & l1 & hu & hl & _ & _ & _ & _ & _ & _ & Hyu & _).
  exists u0, u1. exact Hyu.
Defined.

End StrainLocationRuns.

Section PanelBucklingFailure.
Import PreCompSections.
Local Open Scope R_scope.
Variable compositeMatrices :
  PreComp.CompositeSection R -> nat -> Matrix * Matrix * Matrix * R.
Variable effectiveEAxial : PreComp.CompositeSection R -> nat -> R.

(** The subscripts of [panelBucklingStrain] succeed, and the call returns
    what the two laminate methods give, exactly when every station of
    [chord] has its section object and its sector index, and the sector has
    its two breakpoints in [cs.loc]; otherwise a subscript raises an
    [IndexError]. *)
Theorem panel_buckling_returns_iff_sectors_in_range :
  forall (chord : list R) (CS_list : list (PreComp.CompositeSection R))
         (sector_idx_strain : list nat),
    is_Some (panelBucklingStrain compositeMatrices effectiveEAxial
               chord CS_list sector_idx_strain) <->
    forall i : nat,
      (i < length chord)%nat ->
      exists (cs : PreComp.CompositeSection R) (idx : nat),
        CS_list !! i = Some cs /\ sector_idx_strain !! i = Some idx /\
        (idx + 1 < length (PreComp.loc cs))%nat.
Proof.
  intros chord CS_list idxs. unfold panelBucklingStrain.
  rewrite mapM_is_Some, Forall_forall. split.
  - intros Hall i Hi. specialize (Hall i). cbn in Hall.
    destruct Hall as [e He]; [apply elem_of_seq; lia|].
    destruct (chord !! i) as [c|]; [|discriminate]. cbn in He.
    destruct (CS_list !! i) as [cs|]; [|discriminate]. cbn in He.
    destruct (idxs !! i) as [idx|]; [|discriminate]. cbn in He.
    exists cs, idx. split; [reflexivity|]. split; [reflexivity|].
    unfold panelBucklingStrain_station in He.
    destruct (PreComp.loc cs !! (idx + 1)%nat) as [hi|] eqn:Hhi;
      [|discriminate].
    eapply lookup_lt_Some, Hhi.
  - intros Hall i Hi. apply elem_of_seq in Hi. cbn.
    destruct (Hall i) as (cs & idx & Hcs & Hidx & Hlt); [lia|].
    destruct (lookup_lt_is_Some_2 chord i) as [c Hc]; [lia|].
    rewrite Hc, Hcs, Hidx. cbn. unfold panelBucklingStrain_station.
    destruct (lookup_lt_is_Some_2 (PreComp.loc cs) (idx + 1)) as [hi Hhi];
      [lia|].
    destruct (lookup_lt_is_Some_2 (PreComp.loc cs) idx) as [lo Hlo]; [lia|].
    rewrite Hhi, Hlo. cbn.
    destruct (compositeMatrices cs idx) as [[[A B] D] t]. eexists. reflexivity.
Qed.

End PanelBucklingFailure.

(** *** ExtremeLoads: the analytic partials *)

Section ExtremePartials.
Local Open Scope R_scope.



End ExtremePartials.
